(** * chopshop: the rights-scoped JSON codec of the request context

    A shallow embedding of the reflection-driven serializer
    ([safeSerialize], [safeSerializeStruct], [safeSerializeSlice]), of the
    merger ([safeMerge], [ReadJSON]), of the principal's rights
    ([HasRight], [RemoveRight], [hasItem]) and of the helpers of reflect.go
    ([isEmpty], [hasJSONOption], [parseJSONTag]).

    Go values are modelled as the trees package reflect walks: every node
    knows its kind, and a struct node carries its type descriptor (field
    names, tags, method sets).  A call either returns, panics, or (in the
    model only) exhausts the recursion budget. *)

From Stdlib Require Import ZArith String Ascii List Bool Lia.
From Stdlib Require Import Floats.SpecFloat.
From stdpp Require Import base option list strings gmap.

#[local] Set Warnings "-register-all".
Open Scope string_scope.

(** ** Package reflect: kinds, types and values *)

Module reflect.

(** The kinds of [reflect.Kind], in the order of the Go declaration. *)
Inductive Kind : Set :=
| Invalid | Bool
| Int | Int8 | Int16 | Int32 | Int64
| Uint | Uint8 | Uint16 | Uint32 | Uint64 | Uintptr
| Float32 | Float64 | Complex64 | Complex128
| Array | Chan | Func | Interface | Map | Ptr | Slice | String | Struct
| UnsafePointer.

#[global] Instance Kind_eq_dec : EqDecision Kind.
Proof. solve_decision. Defined.

End reflect.

Inductive IntKind : Set := KInt | KInt8 | KInt16 | KInt32 | KInt64.
Inductive UintKind : Set := KUint | KUint8 | KUint16 | KUint32 | KUint64 | KUintptr.
Inductive FloatKind : Set := KFloat32 | KFloat64.
Inductive ComplexKind : Set := KComplex64 | KComplex128.

(** The interfaces the codec asks a type about. *)
Inductive Iface : Set :=
| json_Unmarshaler
| encoding_TextUnmarshaler
| encoding_TextMarshaler.

#[global] Instance Iface_eq_dec : EqDecision Iface.
Proof. solve_decision. Defined.

(** A struct tag, as the key/value pairs [StructTag.Get] reads. *)
Definition StructTag : Type := list (string * string).

(** [reflect.StructField], without the field's type, which the value tree
    carries.  [PkgPath] is empty exactly for exported fields. *)
Record StructField : Type := mkField {
  Name : string;
  PkgPath : string;
  Tag : StructTag;
  Anonymous : bool;
}.

(** A struct type: its fields in declaration order, and the interfaces in
    the method set of the type ([Methods]) and in the method set of the
    pointer to it only ([PtrMethods]). *)
Record StructType : Type := mkStruct {
  TypeName : string;
  Fields : list StructField;
  Methods : list Iface;
  PtrMethods : list Iface;
}.

#[global] Instance StructField_eq_dec : EqDecision StructField.
Proof. solve_decision. Defined.

#[global] Instance StructType_eq_dec : EqDecision StructType.
Proof. solve_decision. Defined.

(** Go values.  A slice and a map do not distinguish nil from empty: the
    codec only asks for their length. *)
Inductive Value : Type :=
| VBool (b : bool)
| VInt (k : IntKind) (n : Z)
| VUint (k : UintKind) (n : Z)
| VFloat (k : FloatKind) (f : spec_float)
| VComplex (k : ComplexKind) (re im : spec_float)
| VString (s : string)
| VArray (elems : list Value)
| VSlice (elems : list Value)
| VMap (entries : list (Value * Value))
| VPtr (target : option Value)
| VInterface (dynamic : option Value)
| VStruct (ty : StructType) (fields : list Value)
| VChan (isNil : bool)
| VFunc (isNil : bool)
| VUnsafePointer (addr : Z).

(** What the serializer hands to the JSON encoder: [map[string]interface{}],
    [[]interface{}], a Go value passed through as it is, or nil. *)
Inductive Wire : Type :=
| WNil
| WMap (m : gmap string Wire)
| WSlice (elems : list Wire)
| WValue (v : Value).

(** ** Outcomes of a call *)

Inductive outcome (A : Type) : Type :=
| Return (a : A)
| Panic (why : string)
| OutOfFuel.

Arguments Return {A} a.
Arguments Panic {A} why.
Arguments OutOfFuel {A}.

#[global] Instance outcome_ret : MRet outcome := fun A a => Return a.
#[global] Instance outcome_bind : MBind outcome := fun A B f m =>
  match m with
  | Return a => f a
  | Panic why => Panic why
  | OutOfFuel => OutOfFuel
  end.

(** Go's [error]: nil or a message. *)
Definition error : Type := option string.
Definition nil : error := None.

(** ** reflect.Value *)

Definition kind_of (v : Value) : reflect.Kind :=
  match v with
  | VBool _ => reflect.Bool
  | VInt KInt _ => reflect.Int
  | VInt KInt8 _ => reflect.Int8
  | VInt KInt16 _ => reflect.Int16
  | VInt KInt32 _ => reflect.Int32
  | VInt KInt64 _ => reflect.Int64
  | VUint KUint _ => reflect.Uint
  | VUint KUint8 _ => reflect.Uint8
  | VUint KUint16 _ => reflect.Uint16
  | VUint KUint32 _ => reflect.Uint32
  | VUint KUint64 _ => reflect.Uint64
  | VUint KUintptr _ => reflect.Uintptr
  | VFloat KFloat32 _ => reflect.Float32
  | VFloat KFloat64 _ => reflect.Float64
  | VComplex KComplex64 _ _ => reflect.Complex64
  | VComplex KComplex128 _ _ => reflect.Complex128
  | VString _ => reflect.String
  | VArray _ => reflect.Array
  | VSlice _ => reflect.Slice
  | VMap _ => reflect.Map
  | VPtr _ => reflect.Ptr
  | VInterface _ => reflect.Interface
  | VStruct _ _ => reflect.Struct
  | VChan _ => reflect.Chan
  | VFunc _ => reflect.Func
  | VUnsafePointer _ => reflect.UnsafePointer
  end.

(** A [reflect.Value]: the Go value it holds ([None] for the zero Value)
    and the two read-only flags reflect keeps for values reached through
    unexported fields.  [flagStickyRO] is inherited by everything reached
    from the value, [flagEmbedRO] (an unexported embedded field) is not
    inherited by that field's own fields. *)
Record RValue : Type := mkRValue {
  flagStickyRO : bool;
  flagEmbedRO : bool;
  rv : option Value;
}.

Definition flagRO (v : RValue) : bool := flagStickyRO v || flagEmbedRO v.

(** [reflect.ValueOf(v)] for a non-nil interface value. *)
Definition ValueOf (v : Value) : RValue := mkRValue false false (Some v).

Definition zeroValue : RValue := mkRValue false false None.

(** [v.Type().Kind()]: [Type] panics on the zero Value. *)
Definition Type_Kind (v : RValue) : outcome reflect.Kind :=
  match rv v with
  | Some x => Return (kind_of x)
  | None => Panic "reflect: call of reflect.Value.Type on zero Value"
  end.

(** [v.NumField()]. *)
Definition NumField (v : RValue) : outcome nat :=
  match rv v with
  | Some (VStruct ty _) => Return (length (Fields ty))
  | _ => Panic "reflect: call of reflect.Value.NumField on non-struct Value"
  end.

(** [v.Type().Field(i)]. *)
Definition Type_Field (v : RValue) (i : nat) : outcome StructField :=
  match rv v with
  | Some (VStruct ty _) =>
    match Fields ty !! i with
    | Some f => Return f
    | None => Panic "reflect: Field index out of bounds"
    end
  | _ => Panic "reflect: Field of non-struct type"
  end.

Definition exported (f : StructField) : bool := String.eqb (PkgPath f) "".

(** [v.Field(i)]: the field's value, read-only when the field is
    unexported. *)
Definition Field (v : RValue) (i : nat) : outcome RValue :=
  match rv v with
  | Some (VStruct ty vals) =>
    match Fields ty !! i, vals !! i with
    | Some f, Some x =>
      Return (mkRValue (flagStickyRO v || (negb (exported f) && negb (Anonymous f)))
                       (negb (exported f) && Anonymous f)
                       (Some x))
    | _, _ => Panic "reflect: Field index out of range"
    end
  | _ => Panic "reflect: call of reflect.Value.Field on non-struct Value"
  end.

(** [v.Len()] on the kinds that have a length. *)
Definition Len (v : RValue) : outcome nat :=
  match rv v with
  | Some (VArray l) | Some (VSlice l) => Return (length l)
  | Some (VMap m) => Return (length m)
  | Some (VString s) => Return (String.length s)
  | _ => Panic "reflect: call of reflect.Value.Len on a Value without length"
  end.

(** [v.Index(i)] on a slice or an array. *)
Definition Index (v : RValue) (i : nat) : outcome RValue :=
  match rv v with
  | Some (VArray l) | Some (VSlice l) =>
    match l !! i with
    | Some x => Return (mkRValue (flagRO v) false (Some x))
    | None => Panic "reflect: slice index out of range"
    end
  | _ => Panic "reflect: call of reflect.Value.Index on a Value without elements"
  end.

(** [v.Elem()]: the pointee, or the zero Value for a nil pointer. *)
Definition Elem (v : RValue) : outcome RValue :=
  match rv v with
  | Some (VPtr (Some x)) =>
    Return (mkRValue (flagStickyRO v) (flagEmbedRO v) (Some x))
  | Some (VInterface (Some x)) => Return (mkRValue (flagRO v) false (Some x))
  | Some (VPtr None) | Some (VInterface None) => Return zeroValue
  | _ => Panic "reflect: call of reflect.Value.Elem on a Value that is no pointer"
  end.

(** [v.Interface()]: refused for a value reached through an unexported
    field. *)
Definition Interface (v : RValue) : outcome Value :=
  match rv v with
  | None => Panic "reflect: call of reflect.Value.Interface on zero Value"
  | Some x =>
    if flagRO v
    then Panic "reflect.Value.Interface: cannot return value obtained from unexported field or method"
    else Return x
  end.

(** [ty.Implements(u)] and [reflect.PtrTo(ty).Implements(u)] for a struct
    type: the method set of the pointer contains that of the type. *)
Definition Implements (ty : StructType) (u : Iface) : bool :=
  bool_decide (u ∈ Methods ty).
Definition PtrTo_Implements (ty : StructType) (u : Iface) : bool :=
  bool_decide (u ∈ Methods ty) || bool_decide (u ∈ PtrMethods ty).

(** Assignability, as far as the value tree records types: the same kind,
    and for structs the same struct type. *)
Definition assignable (x dst : Value) : bool :=
  match x, dst with
  | VStruct tx _, VStruct td _ => bool_decide (tx = td)
  | _, _ => bool_decide (kind_of x = kind_of dst)
  end.

(** [dst.Set(x)]: the new content of [dst].  The values the merger sets are
    fields of a struct reached through a pointer, hence addressable. *)
Definition Set_ (dst x : RValue) : outcome Value :=
  if flagRO dst
  then Panic "reflect: reflect.Value.Set using value obtained using unexported field"
  else if flagRO x
  then Panic "reflect: reflect.Value.Set using value obtained using unexported field"
  else match rv dst, rv x with
       | Some d, Some s =>
         if assignable s d then Return s
         else Panic "reflect.Set: value is not assignable to type"
       | _, _ => Panic "reflect: call of reflect.Value.Set on zero Value"
       end.

(** [reflect.New(v.Type()).Elem()]: the zero value of the type of [v]. *)
Fixpoint zeroOf (v : Value) : Value :=
  match v with
  | VBool _ => VBool false
  | VInt k _ => VInt k 0
  | VUint k _ => VUint k 0
  | VFloat k _ => VFloat k (S754_zero false)
  | VComplex k _ _ => VComplex k (S754_zero false) (S754_zero false)
  | VString _ => VString ""
  | VArray l => VArray (map zeroOf l)
  | VSlice _ => VSlice []
  | VMap _ => VMap []
  | VPtr _ => VPtr None
  | VInterface _ => VInterface None
  | VStruct ty vals => VStruct ty (map zeroOf vals)
  | VChan _ => VChan true
  | VFunc _ => VFunc true
  | VUnsafePointer _ => VUnsafePointer 0
  end.

(** [StructTag.Get]: the value of the first pair with that key, or the
    empty string. *)
Fixpoint Tag_Get (tag : StructTag) (key : string) : string :=
  match tag with
  | [] => ""
  | (k, v) :: rest => if String.eqb k key then v else Tag_Get rest key
  end.

(** ** reflect.go: emptiness and the json tag *)

(** The accessors [isEmpty] uses, each on the kinds reflect defines it
    for. *)
Definition Value_Len (v : Value) : nat :=
  match v with
  | VArray l | VSlice l => length l
  | VMap m => length m
  | VString s => String.length s
  | _ => 0
  end.
Definition Value_Bool (v : Value) : bool :=
  match v with VBool b => b | _ => false end.
Definition Value_Int (v : Value) : Z :=
  match v with VInt _ n => n | _ => 0 end.
Definition Value_Uint (v : Value) : Z :=
  match v with VUint _ n => n | _ => 0 end.
Definition Value_Float (v : Value) : spec_float :=
  match v with VFloat _ f => f | _ => S754_zero false end.
Definition Value_IsNil (v : Value) : bool :=
  match v with
  | VPtr None | VInterface None => true
  | VChan b | VFunc b => b
  | _ => false
  end.

(** [v.Kind()] of the zero Value is Invalid, which is none of the cases. *)
Definition isEmpty (v : RValue) : bool :=
  match rv v with
  | None => false
  | Some x =>
    match kind_of x with
    | reflect.Array | reflect.Map | reflect.Slice | reflect.String =>
      Nat.eqb (Value_Len x) 0
    | reflect.Bool => negb (Value_Bool x)
    | reflect.Int | reflect.Int8 | reflect.Int16 | reflect.Int32 | reflect.Int64 =>
      Z.eqb (Value_Int x) 0
    | reflect.Uint | reflect.Uint8 | reflect.Uint16 | reflect.Uint32
    | reflect.Uint64 | reflect.Uintptr =>
      Z.eqb (Value_Uint x) 0
    | reflect.Float32 | reflect.Float64 => SFeqb (Value_Float x) (S754_zero false)
    | reflect.Interface | reflect.Ptr => Value_IsNil x
    | _ => false
    end
  end.

(** [strings.Index(s, substr)]: the first position, or -1. *)
Definition strings_Index (s substr : string) : Z :=
  match String.index 0 substr s with
  | Some i => Z.of_nat i
  | None => (-1)%Z
  end.

(** The slices [s[:i]] and [s[i:]] of a string. *)
Definition slice_to (s : string) (i : nat) : string := String.substring 0 i s.
Definition slice_from (s : string) (i : nat) : string :=
  String.substring i (String.length s - i) s.

(** The loop of [hasJSONOption]; an iteration leaves a strictly shorter
    [opts], so [String.length opts] iterations are enough. *)
Fixpoint hasJSONOption_loop (fuel : nat) (key opts : string) : bool :=
  match fuel with
  | 0 => false
  | S fuel =>
    if String.eqb opts "" then false
    else
      let i := strings_Index opts "," in
      let '(opts, next) :=
        if (0 <=? i)%Z
        then (slice_to opts (Z.to_nat i), slice_from opts (Z.to_nat i + 1))
        else (opts, "") in
      if String.eqb opts key then true
      else hasJSONOption_loop fuel key next
  end.

Definition hasJSONOption (key opts : string) : bool :=
  if Nat.eqb (String.length opts) 0 then false
  else hasJSONOption_loop (String.length opts) key opts.

Definition parseJSONTag (tag : string) : string * string :=
  let idx := strings_Index tag "," in
  if negb (idx =? -1)%Z
  then (slice_to tag (Z.to_nat idx), slice_from tag (Z.to_nat idx + 1))
  else (tag, "").

(** ** middleware.go and the request context: the principal's rights *)

Fixpoint hasItem (item : string) (list : list string) : bool :=
  match list with
  | [] => false
  | v :: list => if String.eqb v item then true else hasItem item list
  end.

Record Principal : Type := mkPrincipal {
  Username : string;
  UserID : Z;
  Rights : list string;
}.

(** Of the request context the codec reads the principal only. *)
Record RequestContext : Type := mkContext {
  principal : option Principal;
}.

Definition IsAuthenticated (ctx : RequestContext) : bool :=
  match principal ctx with Some _ => true | None => false end.

Definition HasRight (ctx : RequestContext) (right : string) : bool :=
  match principal ctx with
  | None => false
  | Some p => hasItem right (Rights p)
  end.

Definition AddRight (ctx : RequestContext) (right : string) : RequestContext * error :=
  if negb (IsAuthenticated ctx) then (ctx, Some "Session not authenticated.")
  else
    match principal ctx with
    | None => (ctx, nil)
    | Some p =>
      (mkContext (Some (mkPrincipal (Username p) (UserID p) (Rights p ++ [right])%list)), nil)
    end.

(** [sort.Search] of the Go standard library: a binary search over
    [0, n), which finds the least index at which [f] holds when [f] is
    false up to some index and true from there on, and returns [n] when it
    meets no such index.  The interval [i, j) shrinks on every iteration,
    so [n] iterations are enough. *)
Fixpoint Search_loop (fuel i j : nat) (f : nat -> bool) : nat :=
  match fuel with
  | 0 => i
  | S fuel =>
    if (i <? j)%nat then
      let h := ((i + j) / 2)%nat in
      if negb (f h) then Search_loop fuel (h + 1) j f
      else Search_loop fuel i h f
    else i
  end.

Definition sort_Search (n : nat) (f : nat -> bool) : nat := Search_loop n 0 n f.

Definition RemoveRight (ctx : RequestContext) (right : string) : RequestContext :=
  if negb (IsAuthenticated ctx) then ctx
  else
    match principal ctx with
    | None => ctx
    | Some p =>
      let rights := Rights p in
      let i := sort_Search (length rights)
                 (fun i => bool_decide (rights !! i = Some right)) in
      if (length rights <=? i)%nat then ctx
      else mkContext (Some (mkPrincipal (Username p) (UserID p)
                              (take i rights ++ drop (i + 1) rights)%list))
    end.

(** ** Loops *)

(** What an iteration of a [for] loop does: go on with the loop's state, or
    return from the enclosing function. *)
Inductive flow (St Res : Type) : Type :=
| Next (s : St)
| Exit (r : Res).

Arguments Next {St Res} s.
Arguments Exit {St Res} r.

(** [for _, i := range indices { body }], the state threaded through. *)
Fixpoint for_range {St Res : Type} (indices : list nat)
    (body : nat -> St -> outcome (flow St Res)) (s : St) : outcome (flow St Res) :=
  match indices with
  | [] => Return (Next s)
  | i :: indices =>
    c ← body i s;
    match c with
    | Next s => for_range indices body s
    | Exit r => Return (Exit r)
    end
  end.

(** ** The serializer and the merger *)

Section codec.

(** [snaker.CamelToSnake], of a package outside the repository. *)
Variable CamelToSnake : string -> string.

(** [unmarshalerTypes]. *)
Definition unmarshalerTypes : list Iface :=
  [json_Unmarshaler; encoding_TextUnmarshaler].

Definition isRecursibleType (v : RValue) : outcome bool :=
  match rv v with
  | None => Panic "reflect: call of reflect.Value.Type on zero Value"
  | Some (VStruct ty _) =>
    Return (negb (existsb (fun umType => Implements ty umType || PtrTo_Implements ty umType)
                          unmarshalerTypes))
  | Some _ => Return false
  end.

(** The content of field [i] of a struct value replaced: what a [Set] or
    a merge through [dst.Field(i)] leaves in [dst]. *)
Definition with_field (dst : Value) (i : nat) (x : Value) : Value :=
  match dst with
  | VStruct ty vals => VStruct ty (<[i := x]> vals)
  | _ => dst
  end.

Definition with_rv (v : RValue) (x : Value) : RValue :=
  mkRValue (flagStickyRO v) (flagEmbedRO v) (Some x).

(** [safeMerge(src, dst)]: the content of [dst] after the call, and the
    error returned. *)
Fixpoint safeMerge (fuel : nat) (ctx : RequestContext) (src dst : RValue)
    : outcome (Value * error) :=
  match fuel with
  | 0 => OutOfFuel
  | S fuel =>
    match rv dst with
    | None => Panic "reflect: call of reflect.Value.Type on zero Value"
    | Some d0 =>
      n ← NumField dst;
      r ← for_range (seq 0 n) (fun i d =>
             field ← Type_Field (with_rv dst d) i;
             let w := Tag_Get (Tag field) "writeRight" in
             if String.eqb w "" || HasRight ctx w then
               srcField ← Field src i;
               dstField ← Field (with_rv dst d) i;
               recursible ← isRecursibleType srcField;
               if (recursible : bool) then
                 '(d', err) ← safeMerge fuel ctx srcField dstField;
                 match err with
                 | Some e => Return (Exit (with_field d i d', Some e))
                 | None => Return (Next (with_field d i d'))
                 end
               else
                 d' ← Set_ dstField srcField;
                 Return (Next (with_field d i d'))
             else Return (Next d)) d0;
      match r with
      | Next d => Return (d, nil)
      | Exit r => Return r
      end
    end
  end.

(** The map a call of [safeSerializeStruct] fills is the one it returns;
    the callee's additions reach the caller through the returned map. *)
Fixpoint safeSerialize (fuel : nat) (ctx : RequestContext) (src : RValue)
    {struct fuel} : outcome (Wire * error) :=
  match fuel with
  | 0 => OutOfFuel
  | S fuel =>
    k ← Type_Kind src;
    match k with
    | reflect.Slice => safeSerializeSlice fuel ctx src
    | reflect.Struct =>
      m ← Interface src;
      match m with
      | VStruct ty _ =>
        if Implements ty encoding_TextMarshaler then Return (WValue m, nil)
        else safeSerializeStruct fuel ctx src None
      | _ => safeSerializeStruct fuel ctx src None
      end
    | reflect.Ptr => e ← Elem src; safeSerialize fuel ctx e
    | _ => m ← Interface src; Return (WValue m, nil)
    end
  end

with safeSerializeStruct (fuel : nat) (ctx : RequestContext) (src : RValue)
    (out : option (gmap string Wire)) {struct fuel} : outcome (Wire * error) :=
  match fuel with
  | 0 => OutOfFuel
  | S fuel =>
    let out := default ∅ out in
    _ ← Type_Kind src;
    n ← NumField src;
    r ← for_range (seq 0 n) (fun i out =>
           field ← Type_Field src i;
           let r := Tag_Get (Tag field) "readWrite" in
           if String.eqb r "" || HasRight ctx r then
             let '(name, opts) := parseJSONTag (Tag_Get (Tag field) "json") in
             skip ← (if String.eqb name "-" then Return true
                     else if hasJSONOption "omitempty" opts
                          then f ← Field src i; Return (isEmpty f)
                          else Return false);
             if (skip : bool) then Return (Next out)
             else if String.eqb name "" && String.eqb (Name field) "" then
               '(w, err) ← safeSerializeStruct fuel ctx src (Some out);
               match err, w with
               | Some e, _ => Return (Exit (WNil, Some e))
               | None, WMap out => Return (Next out)
               | None, _ => Return (Next out)
               end
             else
               let name := if String.eqb name "" then CamelToSnake (Name field) else name in
               f ← Field src i;
               '(val, err) ← safeSerialize fuel ctx f;
               match err with
               | Some e => Return (Exit (WNil, Some e))
               | None => Return (Next (<[name := val]> out))
               end
           else Return (Next out)) out;
    match r with
    | Next out => Return (WMap out, nil)
    | Exit r => Return r
    end
  end

with safeSerializeSlice (fuel : nat) (ctx : RequestContext) (src : RValue)
    {struct fuel} : outcome (Wire * error) :=
  match fuel with
  | 0 => OutOfFuel
  | S fuel =>
    n ← Len src;
    r ← for_range (seq 0 n) (fun i (slice : list Wire) =>
           e ← Index src i;
           '(val, err) ← safeSerialize fuel ctx e;
           match err with
           | Some e => Return (Exit (WNil, Some e))
           | None => Return (Next (slice ++ [val])%list)
           end) ([] : list Wire);
    match r with
    | Next slice => Return (WSlice slice, nil)
    | Exit r => Return r
    end
  end.

(** [MakeJSONResponse(v)]: the tree handed to [JSONResponse]. *)
Definition MakeJSONResponse (fuel : nat) (ctx : RequestContext) (v : Value)
    : outcome (Wire * error) :=
  safeSerialize fuel ctx (ValueOf v).

(** The request body and [json.NewDecoder(body).Decode], of the Go
    standard library: from the body and the zero-valued scratch instance
    to the scratch instance after decoding and the error. *)
Context {Body : Type}.
Variable json_Decode : Body -> Value -> Value * error.

Definition ReadJSONUnsafe (body : Body) (v : Value) : Value * error :=
  json_Decode body v.

(** [ReadJSON(v)] for a pointer [v]: the content of [*v] after the call,
    and the error returned. *)
Definition ReadJSON (fuel : nat) (ctx : RequestContext) (body : Body) (v : Value)
    : outcome (Value * error) :=
  target ← Elem (ValueOf v);
  match rv target with
  | None => Panic "reflect: call of reflect.Value.Type on zero Value"
  | Some t =>
    let ru := zeroOf t in
    let '(ru, err) := ReadJSONUnsafe body ru in
    match err with
    | Some e => Return (t, Some e)
    | None => safeMerge fuel ctx (ValueOf ru) target
    end
  end.

End codec.

(** ** The merger as the specification words it *)

(** A field may be written when its [writeRight] is unset or held. *)
Definition writable (ctx : RequestContext) (f : StructField) : bool :=
  String.eqb (Tag_Get (Tag f) "writeRight") "" || HasRight ctx (Tag_Get (Tag f) "writeRight").

(** A type with a custom wire-decode capability is atomic for the merge. *)
Definition owns_decoding (ty : StructType) : bool :=
  existsb (fun u => bool_decide (u ∈ Methods ty) || bool_decide (u ∈ PtrMethods ty))
          [json_Unmarshaler; encoding_TextUnmarshaler].

(** A record the merge recurses into. *)
Definition plain_record (v : Value) : bool :=
  match v with
  | VStruct ty _ => negb (owns_decoding ty)
  | _ => false
  end.

(** Select-and-copy over the fields of a record, in declaration order: a
    field that may not be written keeps the target's value; one that may be
    written takes the scratch value, through [rec] when it is a plain
    record. *)
Fixpoint merge_fields (rec : Value -> Value -> Value) (ctx : RequestContext)
    (fs : list StructField) (svals dvals : list Value) {struct dvals} : list Value :=
  match dvals with
  | [] => []
  | d :: dvals =>
    match fs, svals with
    | f :: _, s :: _ =>
      if writable ctx f
      then (if plain_record s then rec s d else s)
      else d
    | _, _ => d
    end :: merge_fields rec ctx (tail fs) (tail svals) dvals
  end.

(** The target after the merge of the scratch record [src] into it. *)
Fixpoint merge_spec (ctx : RequestContext) (src dst : Value) {struct dst} : Value :=
  match src, dst with
  | VStruct _ svals, VStruct ty dvals =>
    VStruct ty (merge_fields (merge_spec ctx) ctx (Fields ty) svals dvals)
  | _, _ => dst
  end.

(** Scratch and target are of one struct type, the fields the merge writes
    are exported, and the records nest less than [n] deep. *)
Fixpoint mergeable_at (n : nat) (ctx : RequestContext) (src dst : Value) : bool :=
  match n with
  | 0 => false
  | S n =>
    match src, dst with
    | VStruct ts svals, VStruct td dvals =>
      bool_decide (ts = td)
      && Nat.eqb (length svals) (length (Fields td))
      && Nat.eqb (length dvals) (length (Fields td))
      && forallb (fun i =>
           match Fields td !! i, svals !! i, dvals !! i with
           | Some f, Some s, Some d =>
             if writable ctx f
             then exported f
                  && (if plain_record s then mergeable_at n ctx s d else assignable s d)
             else true
           | _, _, _ => false
           end) (seq 0 (length (Fields td)))
    | _, _ => false
    end
  end.

(** ** The JSON text between serializer and merger *)

(** Modelled from the documented behaviour of Go's encoding/json, which is
    outside the repository: what [Decode] leaves in the scratch value when
    the body is the JSON text the encoder writes for a wire tree.  The
    model covers a fragment and reports anything else as an error of its
    own ([outside_fragment]):
    - the scratch value is a record whose fields are not embedded and are
      either skipped by the decoder (tag [-], or unexported) or carry an
      explicit name of ASCII letters, digits and underscores, with no
      option other than [omitempty], the names being pairwise distinct;
    - every key of a JSON object is the name of such a field, so that the
      decoder's case-insensitive second look is never taken;
    - a leaf is a boolean, an integer within the range of its kind (64 bits
      for [int], [uint] and [uintptr]) or a string of ASCII characters; it
      is decoded into a value of its own kind;
    - JSON null leaves the value as it is, a key that is absent leaves the
      field as it is. *)

Definition outside_fragment : error := Some "model: outside the modelled fragment of encoding/json".

Definition int_bits (k : IntKind) : Z :=
  match k with KInt8 => 8 | KInt16 => 16 | KInt32 => 32 | KInt | KInt64 => 64 end.
Definition uint_bits (k : UintKind) : Z :=
  match k with KUint8 => 8 | KUint16 => 16 | KUint32 => 32 | KUint | KUint64 | KUintptr => 64 end.

Definition ascii_only (s : string) : bool :=
  forallb (fun c => (nat_of_ascii c <? 128)%nat) (list_ascii_of_string s).

(** The leaves that come back from JSON text as they went in. *)
Definition json_scalar (v : Value) : bool :=
  match v with
  | VBool _ => true
  | VString s => ascii_only s
  | VInt k n => ((- 2 ^ (int_bits k - 1) <=? n) && (n <? 2 ^ (int_bits k - 1)))%Z
  | VUint k n => ((0 <=? n) && (n <? 2 ^ uint_bits k))%Z
  | _ => false
  end.

(** The object key the decoder reads a field from; [None] for a field it
    skips. *)
Definition json_key (f : StructField) : option string :=
  let t := Tag_Get (Tag f) "json" in
  if String.eqb t "-" || negb (exported f) then None
  else Some (parseJSONTag t).1.

Definition plain_name_char (c : ascii) : bool :=
  let n := nat_of_ascii c in
  ((48 <=? n) && (n <=? 57) || (65 <=? n) && (n <=? 90)
   || (97 <=? n) && (n <=? 122) || (n =? 95))%nat.

Definition plain_name (s : string) : bool :=
  negb (String.eqb s "") && forallb plain_name_char (list_ascii_of_string s).

Definition field_in_fragment (f : StructField) : bool :=
  let t := Tag_Get (Tag f) "json" in
  negb (Anonymous f)
  && (String.eqb t "-" || negb (exported f)
      || (plain_name (parseJSONTag t).1
          && (String.eqb (parseJSONTag t).2 "" || String.eqb (parseJSONTag t).2 "omitempty"))).

Definition struct_in_fragment (ty : StructType) : bool :=
  forallb field_in_fragment (Fields ty)
  && bool_decide (NoDup (omap json_key (Fields ty)))
  && negb (owns_decoding ty).

Definition keys_known (m : gmap string Wire) (ty : StructType) : bool :=
  bool_decide (dom m ⊆ list_to_set (omap json_key (Fields ty))).

(** The fields of a record decoded from the object [m], in declaration
    order, each with its error. *)
Fixpoint decode_fields (rec : Wire -> Value -> Value * error) (m : gmap string Wire)
    (fs : list StructField) (vals : list Value) {struct vals} : list (Value * error) :=
  match vals with
  | [] => []
  | v :: vals =>
    match fs with
    | f :: _ =>
      match json_key f with
      | Some k =>
        match m !! k with
        | Some w => rec w v
        | None => (v, nil)
        end
      | None => (v, nil)
      end
    | [] => (v, nil)
    end :: decode_fields rec m (tail fs) vals
  end.

(** The first error of a list, nil if there is none. *)
Fixpoint first_error (errs : list error) : error :=
  match errs with
  | [] => nil
  | Some e :: _ => Some e
  | None :: errs => first_error errs
  end.

Fixpoint json_Decode_model (fuel : nat) (w : Wire) (z : Value) : Value * error :=
  match fuel with
  | 0 => (z, outside_fragment)
  | S fuel =>
    match w, z with
    | WNil, _ => (z, nil)
    | WMap m, VStruct ty vals =>
      if struct_in_fragment ty && keys_known m ty
         && Nat.eqb (length vals) (length (Fields ty))
      then
        let r := decode_fields (json_Decode_model fuel) m (Fields ty) vals in
        (VStruct ty r.*1, first_error r.*2)
      else (z, outside_fragment)
    | WValue x, _ =>
      if json_scalar x && bool_decide (kind_of x = kind_of z) then (x, nil)
      else (z, outside_fragment)
    | _, _ => (z, outside_fragment)
    end
  end.

(** ** Concrete records *)

Definition anonymous : RequestContext := mkContext None.
Definition session (rights : list string) : RequestContext :=
  mkContext (Some (mkPrincipal "alice" 7 rights)).

Definition field (name : string) (tag : StructTag) : StructField :=
  mkField name "" tag false.
Definition embedded (name : string) (tag : StructTag) : StructField :=
  mkField name "" tag true.

(** [type Account struct {
       Name   string `json:"name"`
       Secret string `json:"secret" readRight:"admin" writeRight:"admin"` }] *)
Definition tAccount : StructType :=
  mkStruct "Account"
    [field "Name" [("json", "name")];
     field "Secret" [("json", "secret"); ("readRight", "admin"); ("writeRight", "admin")]]
    [] [].
Definition account (name secret : string) : Value :=
  VStruct tAccount [VString name; VString secret].

(** [type Address struct {
       City string `json:"city"`
       Zip  string `json:"zip" writeRight:"admin"` }
     type Customer struct {
       Name string  `json:"name"`
       Addr Address `json:"addr"` }] *)
Definition tAddress : StructType :=
  mkStruct "Address"
    [field "City" [("json", "city")];
     field "Zip" [("json", "zip"); ("writeRight", "admin")]]
    [] [].
Definition tCustomer : StructType :=
  mkStruct "Customer"
    [field "Name" [("json", "name")]; field "Addr" [("json", "addr")]] [] [].
Definition customer (name city zip : string) : Value :=
  VStruct tCustomer [VString name; VStruct tAddress [VString city; VString zip]].

(** [type Inner struct { X int `json:"x"` }
     type Outer struct { Inner }] *)
Definition tInner : StructType :=
  mkStruct "Inner" [field "X" [("json", "x")]] [] [].
Definition tOuter : StructType :=
  mkStruct "Outer" [embedded "Inner" []] [] [].
Definition outer (x : Z) : Value :=
  VStruct tOuter [VStruct tInner [VInt KInt x]].

(** [type Profile struct { Avatar *string `json:"avatar"` }], the pointer
    nil. *)
Definition tProfile : StructType :=
  mkStruct "Profile" [field "Avatar" [("json", "avatar")]] [] [].
Definition profile_without_avatar : Value := VStruct tProfile [VPtr None].

(** [type Note struct { Text string `json:"text,omitempty"` }] *)
Definition tNote : StructType :=
  mkStruct "Note" [field "Text" [("json", "text,omitempty")]] [] [].
Definition note (text : string) : Value := VStruct tNote [VString text].

(** [type Login struct {
       User     string `json:"user"`
       Password string `json:"-"` }] *)
Definition tLogin : StructType :=
  mkStruct "Login" [field "User" [("json", "user")]; field "Password" [("json", "-")]] [] [].
Definition login (user password : string) : Value :=
  VStruct tLogin [VString user; VString password].

(** [type Pair struct {
       First  string `json:"v"`
       Second string `json:"v"` }] *)
Definition tPair : StructType :=
  mkStruct "Pair" [field "First" [("json", "v")]; field "Second" [("json", "v")]] [] [].
Definition pair (a b : string) : Value := VStruct tPair [VString a; VString b].

(** [type Vault struct {
       Owner string `json:"owner"`
       Key   string `json:"key" readWrite:"admin"` }] *)
Definition tVault : StructType :=
  mkStruct "Vault"
    [field "Owner" [("json", "owner")];
     field "Key" [("json", "key"); ("readWrite", "admin")]] [] [].
Definition vault (owner key : string) : Value := VStruct tVault [VString owner; VString key].

(** [type Badge struct {
       Code  string `json:"label" readWrite:"admin"`
       Label string `json:"label"` }] *)
Definition tBadge : StructType :=
  mkStruct "Badge"
    [field "Code" [("json", "label"); ("readWrite", "admin")];
     field "Label" [("json", "label")]] [] [].
Definition badge (code label : string) : Value := VStruct tBadge [VString code; VString label].

(** [type Team struct {
       Name   string   `json:"name"`
       Token  string   `json:"token" readWrite:"admin"`
       Vaults [1]Vault `json:"vaults"` }], and the same with [Vaults []Vault]:
    the value tree tells an array from a slice. *)
Definition tTeam : StructType :=
  mkStruct "Team"
    [field "Name" [("json", "name")];
     field "Token" [("json", "token"); ("readWrite", "admin")];
     field "Vaults" [("json", "vaults")]] [] [].
Definition team (name token : string) (vaults : Value) : Value :=
  VStruct tTeam [VString name; VString token; vaults].

(** [type Branch struct {
       Name string   `json:"name"`
       Addr *Address `json:"addr"` }] *)
Definition tBranch : StructType :=
  mkStruct "Branch" [field "Name" [("json", "name")]; field "Addr" [("json", "addr")]] [] [].
Definition branch (name city zip : string) : Value :=
  VStruct tBranch [VString name; VPtr (Some (VStruct tAddress [VString city; VString zip]))].

(** [type Ticket struct {
       Title string `json:"title"`
       seat  string }], declared in package [shop]. *)
Definition tTicket : StructType :=
  mkStruct "Ticket" [field "Title" [("json", "title")]; mkField "seat" "shop" [] false] [] [].
Definition ticket (title seat : string) : Value := VStruct tTicket [VString title; VString seat].

(** A body the decoder gives up on after it has filled the first field of
    the scratch record. *)
Definition truncated_decode (body : string) (scratch : Value) : Value * error :=
  (with_field scratch 0 (VString body), Some "unexpected EOF").

(** The body [{"addr":{"city":"Oslo","zip":"0150"},"name":"x"}]. *)
Definition customer_body : Wire :=
  WMap {[ "name" := WValue (VString "x");
          "addr" := WMap {[ "city" := WValue (VString "Oslo");
                            "zip" := WValue (VString "0150") ]} ]}.

(** ** The serializer's decisions about a field *)

(** The check the serializer applies before it writes a field: the tag it
    reads is [readWrite]. *)
Definition readable (ctx : RequestContext) (f : StructField) : bool :=
  String.eqb (Tag_Get (Tag f) "readWrite") "" || HasRight ctx (Tag_Get (Tag f) "readWrite").

Definition json_name (f : StructField) : string := (parseJSONTag (Tag_Get (Tag f) "json")).1.
Definition json_opts (f : StructField) : string := (parseJSONTag (Tag_Get (Tag f) "json")).2.
Definition suppressed (f : StructField) : bool := String.eqb (json_name f) "-".
Definition omitempty (f : StructField) : bool := hasJSONOption "omitempty" (json_opts f).

(** The key a field is written under. *)
Definition wire_name (CamelToSnake : string -> string) (f : StructField) : string :=
  if String.eqb (json_name f) "" then CamelToSnake (Name f) else json_name f.

(** A field the serializer writes: it passes that check, is not suppressed,
    and is not both omit-on-empty and empty. *)
Definition emitted (ctx : RequestContext) (f : StructField) (v : RValue) : bool :=
  readable ctx f && negb (suppressed f) && negb (omitempty f && isEmpty v).

(** Every field of a Go struct type has a name; an embedded field is named
    after its type. *)
Definition named (ty : StructType) : bool :=
  forallb (fun f => negb (String.eqb (Name f) "")) (Fields ty).

(** What the map [m] holds after [safeSerializeStruct] has gone through
    the first [i] fields of [src], starting from the map [out0]: an entry
    of [m] was in [out0] or is the serialization of an emitted field under
    its wire name; every emitted field was serialized and has an entry;
    and every key of [out0] has an entry. *)
Definition emits_invariant (CamelToSnake : string -> string) (fuel : nat)
    (ctx : RequestContext) (src : RValue) (ty : StructType)
    (out0 : gmap string Wire) (i : nat) (m : gmap string Wire) : Prop :=
  (forall k x, m !! k = Some x ->
     out0 !! k = Some x
     \/ exists j f fv, j < i /\ Fields ty !! j = Some f /\ Field src j = Return fv
          /\ emitted ctx f fv = true /\ wire_name CamelToSnake f = k
          /\ safeSerialize CamelToSnake fuel ctx fv = Return (x, nil))
  /\ (forall j f fv, j < i -> Fields ty !! j = Some f -> Field src j = Return fv ->
        emitted ctx f fv = true ->
        is_Some (m !! wire_name CamelToSnake f)
        /\ exists x, safeSerialize CamelToSnake fuel ctx fv = Return (x, nil))
  /\ (forall k, is_Some (out0 !! k) -> is_Some (m !! k)).

(** ** The round trip through JSON text *)

(** Every field of the record passes the test [P], and so does every field
    of the records its fields hold, which nest less than [n] deep. *)
Fixpoint every_field (n : nat) (P : StructField -> bool) (v : Value) : bool :=
  match n with
  | 0 => false
  | S n =>
    match v with
    | VStruct ty vals =>
      forallb P (Fields ty)
      && forallb (fun x => match x with
                           | VStruct _ _ => every_field n P x
                           | _ => true
                           end) vals
    | _ => true
    end
  end.

(** A record of the fragment that goes through JSON text and back, nesting
    less than [n] deep: its type is in the decoder's fragment and is no
    [TextMarshaler], its fields are named and exported, and their values
    are scalars or records of the same form. *)
Fixpoint json_record (n : nat) (v : Value) : bool :=
  match n with
  | 0 => false
  | S n =>
    match v with
    | VStruct ty vals =>
      struct_in_fragment ty
      && named ty
      && negb (Implements ty encoding_TextMarshaler)
      && Nat.eqb (length vals) (length (Fields ty))
      && forallb exported (Fields ty)
      && forallb (fun x => json_scalar x || json_record n x) vals
    | _ => false
    end
  end.

(** The record with its suppressed fields zeroed, at every depth. *)
Fixpoint restore_fields (rec : Value -> Value) (fs : list StructField)
    (vals : list Value) {struct vals} : list Value :=
  match vals with
  | [] => []
  | v :: vals =>
    match fs with
    | f :: _ => if suppressed f then zeroOf v else rec v
    | [] => rec v
    end :: restore_fields rec (tail fs) vals
  end.

Fixpoint restored (v : Value) : Value :=
  match v with
  | VStruct ty vals => VStruct ty (restore_fields restored (Fields ty) vals)
  | _ => v
  end.

(** What the round trip asks of the JSON codec, which is outside the
    repository, for a tree written as JSON text and read back: a scalar
    leaf comes back as it went in when it is read into a value of its kind,
    and an object is read member by member into the fields its keys name,
    a field without a member being left as it is. *)
Definition restores_scalars (decode : Wire -> Value -> Value * error) : Prop :=
  forall x z, json_scalar x = true -> kind_of x = kind_of z -> decode (WValue x) z = (x, nil).

Definition reads_members (decode : Wire -> Value -> Value * error) : Prop :=
  forall m ty vals,
    struct_in_fragment ty = true -> keys_known m ty = true ->
    length vals = length (Fields ty) ->
    decode (WMap m) (VStruct ty vals)
    = (VStruct ty (decode_fields decode m (Fields ty) vals).*1,
       first_error (decode_fields decode m (Fields ty) vals).*2).

(** The reading of [json_Decode_model] by recursion on the scratch value,
    for records of any depth. *)
Fixpoint json_Decode_total (z : Value) (w : Wire) {struct z} : Value * error :=
  match z with
  | VStruct ty vals =>
    match w with
    | WNil => (z, nil)
    | WMap m =>
      if struct_in_fragment ty && keys_known m ty
         && Nat.eqb (length vals) (length (Fields ty))
      then
        let r := decode_fields (fun w v => json_Decode_total v w) m (Fields ty) vals in
        (VStruct ty r.*1, first_error r.*2)
      else (z, outside_fragment)
    | WValue x =>
      if json_scalar x && bool_decide (kind_of x = kind_of z) then (x, nil)
      else (z, outside_fragment)
    | WSlice _ => (z, outside_fragment)
    end
  | _ =>
    match w with
    | WNil => (z, nil)
    | WValue x =>
      if json_scalar x && bool_decide (kind_of x = kind_of z) then (x, nil)
      else (z, outside_fragment)
    | _ => (z, outside_fragment)
    end
  end.

(** The options of a json tag: the parts of the text after the name that
    commas separate. *)
Fixpoint comma_separated (s : string) : list string :=
  match s with
  | EmptyString => [""]
  | String c s =>
    if Ascii.eqb c ","
    then "" :: comma_separated s
    else match comma_separated s with
         | h :: t => String c h :: t
         | [] => [String c ""]
         end
  end.

(** ** Emptiness as the specification's rule table words it *)

Inductive category : Set :=
| sequence | mapping | text | boolean | integer | floating_point
| optional_reference | anything_else.

Definition category_of (k : reflect.Kind) : category :=
  match k with
  | reflect.Array | reflect.Slice => sequence
  | reflect.Map => mapping
  | reflect.String => text
  | reflect.Bool => boolean
  | reflect.Int | reflect.Int8 | reflect.Int16 | reflect.Int32 | reflect.Int64
  | reflect.Uint | reflect.Uint8 | reflect.Uint16 | reflect.Uint32 | reflect.Uint64
  | reflect.Uintptr => integer
  | reflect.Float32 | reflect.Float64 => floating_point
  | reflect.Interface | reflect.Ptr => optional_reference
  | _ => anything_else
  end.

(** A float is zero when it is plus or minus zero. *)
Definition float_is_zero (f : spec_float) : Prop :=
  match f with S754_zero _ => True | _ => False end.

Definition empty_by_table (v : Value) : Prop :=
  match category_of (kind_of v) with
  | sequence | mapping | text => Value_Len v = 0
  | boolean => Value_Bool v = false
  | integer => match v with VUint _ n | VInt _ n => n = 0%Z | _ => False end
  | floating_point => float_is_zero (Value_Float v)
  | optional_reference =>
    match v with VPtr p => p = None | VInterface d => d = None | _ => False end
  | anything_else => False
  end.

(** * The rest of the framework *)

(** ** Values of dynamic type *)

(** What an [interface{}] holds once encoding/json has decoded a document
    into it with [UseJSONNumber] set: the claims of a token are such values,
    and so are the items of the session store. *)
Inductive Claim : Type :=
| CNil
| CBool (b : bool)
| CNumber (n : string)                (* json.Number *)
| CString (s : string)
| CSlice (l : list Claim)             (* []interface{} *)
| CMap (m : gmap string Claim).       (* map[string]interface{} *)

(** ** reflect.go: the strings of a slice of values *)

Definition ErrTypeError : error := Some "type error".

(** The loop of [ifSliceToStrSlice], [list] being the strings appended so
    far. *)
Fixpoint ifSliceToStrSlice_loop (v : list Claim) (list : list string) :
    Datatypes.list string * error :=
  match v with
  | [] => (list, nil)
  | x :: v =>
    match x with
    | CString s => ifSliceToStrSlice_loop v (list ++ [s])%list
    | _ => (list, ErrTypeError)
    end
  end.

Definition ifSliceToStrSlice (v : list Claim) : list string * error :=
  ifSliceToStrSlice_loop v [].

(** ** strconv.ParseUint and strconv.FormatUint in base 10 at 64 bits *)

Definition maxUint64 : Z := (2 ^ 64 - 1)%Z.

(** The errors a [*NumError] of strconv wraps. *)
Definition strconv_ErrSyntax : error := Some "invalid syntax".
Definition strconv_ErrRange : error := Some "value out of range".

(** The loop of [ParseUint] over the bytes of the text, [n] being the
    number read so far; [cutoff] is the least number whose tenfold exceeds
    [maxUint64], and the sum [n + d] wraps around at 64 bits. *)
Fixpoint ParseUint_loop (s : string) (n : Z) : Z * error :=
  match s with
  | EmptyString => (n, nil)
  | String c s =>
    let c := Z.of_nat (nat_of_ascii c) in
    if ((48 <=? c) && (c <=? 57))%Z then
      let d := (c - 48)%Z in
      let cutoff := (maxUint64 / 10 + 1)%Z in
      if (cutoff <=? n)%Z then (maxUint64, strconv_ErrRange)
      else
        let n := (n * 10)%Z in
        let n1 := ((n + d) mod 2 ^ 64)%Z in
        if ((n1 <? n) || (maxUint64 <? n1))%Z then (maxUint64, strconv_ErrRange)
        else ParseUint_loop s n1
    else (0%Z, strconv_ErrSyntax)
  end.

Definition ParseUint (s : string) : Z * error :=
  if String.eqb s "" then (0%Z, strconv_ErrSyntax) else ParseUint_loop s 0.

(** [FormatUint] writes the digits from the last one backwards, [acc]
    being the digits written so far; twenty digits are enough at 64 bits. *)
Fixpoint FormatUint_loop (fuel : nat) (u : Z) (acc : string) : string :=
  match fuel with
  | 0 => acc
  | S fuel =>
    if (10 <=? u)%Z
    then FormatUint_loop fuel (u / 10)
           (String (ascii_of_nat (48 + Z.to_nat (u mod 10))) acc)
    else String (ascii_of_nat (48 + Z.to_nat u)) acc
  end.

Definition FormatUint (u : Z) : string := FormatUint_loop 20 u "".

(** A text of decimal digits, and the number it writes. *)
Definition is_digit (c : ascii) : bool :=
  ((48 <=? nat_of_ascii c) && (nat_of_ascii c <=? 57))%nat.

Fixpoint all_digits (s : string) : bool :=
  match s with
  | EmptyString => true
  | String c s => is_digit c && all_digits s
  end.

Fixpoint decimal_value (s : string) (n : Z) : Z :=
  match s with
  | EmptyString => n
  | String c s => decimal_value s (n * 10 + (Z.of_nat (nat_of_ascii c) - 48))%Z
  end.

(** ** The request context in full *)

(** Of a [*jwt.Token] the framework reads and writes the claims. *)
Record Token : Type := mkToken {
  Claims : gmap string Claim;
}.

(** Of a [*http.Request] the handlers read the header, through
    [Header.Get], the path of the URL, and the route variables gorilla/mux
    holds for it, a nil map when the route has none. *)
Record http_Request : Type := mkRequest {
  Header_Get : string -> string;
  URL_Path : string;
  mux_Vars : option (gmap string string);
}.

(** The request context: [auth] is the part the codec reads, the
    principal. *)
Record Ctx : Type := mkCtx {
  auth : RequestContext;
  Request : http_Request;
  token : Token;
  destroyingSession : bool;
  routeVars : option (gmap string string);
}.

Definition with_auth (ctx : Ctx) (a : RequestContext) : Ctx :=
  mkCtx a (Request ctx) (token ctx) (destroyingSession ctx) (routeVars ctx).

Definition with_Claims (ctx : Ctx) (c : gmap string Claim) : Ctx :=
  mkCtx (auth ctx) (Request ctx) (mkToken c) (destroyingSession ctx) (routeVars ctx).

Definition with_routeVars (ctx : Ctx) (vars : option (gmap string string)) : Ctx :=
  mkCtx (auth ctx) (Request ctx) (token ctx) (destroyingSession ctx) vars.

(** *** The principal *)

(** A nil [rights] becomes an empty slice; as lists the two are one. *)
Definition NewPrincipal (username : string) (user_id : Z) (rights : list string) :
    Principal :=
  mkPrincipal username user_id rights.

Definition SetPrincipal (ctx : RequestContext) (username : string) (user_id : Z)
    (rights : list string) : RequestContext :=
  mkContext (Some (NewPrincipal username user_id rights)).

Definition DestroyPrincipal (ctx : RequestContext) : RequestContext :=
  mkContext None.

Definition Username_of (ctx : RequestContext) : string :=
  if negb (IsAuthenticated ctx) then ""
  else match principal ctx with Some p => Username p | None => "" end.

Definition UserID_of (ctx : RequestContext) : Z :=
  if negb (IsAuthenticated ctx) then 0%Z
  else match principal ctx with Some p => UserID p | None => 0%Z end.

(** *** The route variables *)

Definition ErrModelIDNotPresent : error := Some "route missing model id".

(** [RouteVar] asks gorilla/mux for the variables when it holds none yet,
    and keeps them. *)
Definition RouteVar (ctx : Ctx) (k : string) : string * Ctx :=
  let ctx :=
    match routeVars ctx with
    | None => with_routeVars ctx (mux_Vars (Request ctx))
    | Some _ => ctx
    end in
  match routeVars ctx with
  | Some vars =>
    match vars !! k with
    | Some v => (v, ctx)
    | None => ("", ctx)
    end
  | None => ("", ctx)
  end.

Definition RouteModelID (ctx : Ctx) : Z * error * Ctx :=
  let '(idstr, ctx) := RouteVar ctx "id" in
  if String.eqb idstr "" then (0%Z, ErrModelIDNotPresent, ctx)
  else
    let '(id, err) := ParseUint idstr in
    match err with
    | Some _ => (0%Z, err, ctx)
    | None => (id, nil, ctx)
    end.

(** *** The session store *)

(** [ctx.token.Claims["vars"].(map[string]interface{})]: the assertion
    panics on anything but a map. *)
Definition session_vars (ctx : Ctx) : outcome (gmap string Claim) :=
  match Claims (token ctx) !! "vars" with
  | Some (CMap vars) => Return vars
  | _ => Panic "interface conversion: interface {} is not map[string]interface {}"
  end.

Definition GetSession (ctx : Ctx) (key : string) : outcome (Claim * bool) :=
  vars ← session_vars ctx;
  match vars !! key with
  | Some val => Return (val, true)
  | None => Return (CNil, false)
  end.

Definition HasSession (ctx : Ctx) (key : string) : outcome bool :=
  vars ← session_vars ctx;
  match vars !! key with
  | Some _ => Return true
  | None => Return false
  end.

(** The map is written in place: the claims hold the map written to. *)
Definition PutSession (ctx : Ctx) (key : string) (value : Claim) : outcome Ctx :=
  vars ← session_vars ctx;
  Return (with_Claims ctx (<["vars" := CMap (<[key := value]> vars)]> (Claims (token ctx)))).

Definition DeleteSession (ctx : Ctx) (key : string) : outcome Ctx :=
  vars ← session_vars ctx;
  Return (with_Claims ctx (<["vars" := CMap (delete key vars)]> (Claims (token ctx)))).

Definition SessionID (ctx : Ctx) : outcome string :=
  match Claims (token ctx) !! "jti" with
  | Some sessionID =>
    match sessionID with
    | CString s => Return s
    | _ => Panic "interface conversion: interface {} is not string"
    end
  | None => Return ""
  end.

Definition XSRFToken (ctx : Ctx) : outcome string := SessionID ctx.

(** ** response.go: the responses *)

(** A response is the function that writes it; the model keeps which
    constructor made it, and from what. *)
Inductive Response : Type :=
| BlankResponse (status : Z)
| EmptyJSONResponse (status : Z)
| JSONResponse (v : Wire)
| ErrorResponse (message : string) (status : Z)
| RedirectResponse (path : string) (status : Z)
| StreamResponse (contentType : string)
| ServeFile (filename : string).      (* the response of [LocalAssetHandler] *)

Definition StatusUnauthorized : Z := 401.
Definition StatusNotFound : Z := 404.
Definition StatusInternalServerError : Z := 500.

(** A handler answers a request context, which it may change on the
    way. *)
Definition ContextHandlerFunc : Type := Ctx -> outcome (Response * Ctx).

Definition SingleResponseContextHandlerFunc (r : Response) : ContextHandlerFunc :=
  fun ctx => Return (r, ctx).

(** ** middleware.go *)

Definition Middleware : Type := ContextHandlerFunc -> ContextHandlerFunc.

Definition composeMiddlewarePair (mw1 mw2 : Middleware) : Middleware :=
  fun h => mw1 (mw2 h).

(** The loop of [composeMiddleware]; a nil middleware is [None]. *)
Fixpoint composeMiddleware_loop (mws : list (option Middleware))
    (mwc : option Middleware) : option Middleware :=
  match mws with
  | [] => mwc
  | mw :: mws =>
    match mw with
    | None => composeMiddleware_loop mws mwc
    | Some m =>
      match mwc with
      | None => composeMiddleware_loop mws mw
      | Some c => composeMiddleware_loop mws (Some (composeMiddlewarePair m c))
      end
    end
  end.

Definition composeMiddleware (mws : list (option Middleware)) : option Middleware :=
  composeMiddleware_loop mws None.

Definition extendMiddleware (mw : option Middleware) (mws : list (option Middleware)) :
    option Middleware :=
  composeMiddleware ([mw] ++ mws)%list.

Definition XSRFMiddleware : Middleware := fun fn ctx =>
  let xsrfHeader := Header_Get (Request ctx) "X-XSRF-Token" in
  if String.eqb xsrfHeader "" then Return (EmptyJSONResponse StatusUnauthorized, ctx)
  else
    t ← XSRFToken ctx;
    if negb (String.eqb t xsrfHeader)
    then Return (EmptyJSONResponse StatusUnauthorized, ctx)
    else fn ctx.

Definition RightCheckMiddleware (right : string) : Middleware := fun fn ctx =>
  if negb (IsAuthenticated (auth ctx)) || negb (HasRight (auth ctx) right)
  then Return (EmptyJSONResponse StatusUnauthorized, ctx)
  else fn ctx.

(** ** The framework: a principal out of a token *)

Definition ErrInvalidJWT : error := Some "invalid JWT".

Definition jsonNumberToUint64 (n : string) : Z * error := ParseUint n.

Definition readPrincipal (token : option Token) : option Principal * error :=
  match token with
  | None => (None, nil)
  | Some token =>
    match Claims token !! "sub" with
    | Some (CMap sub) =>
      let '(username, okUser) :=
        match sub !! "username" with
        | Some (CString s) => (s, true)
        | _ => ("", false)
        end in
      let '(irights, okRights) :=
        match sub !! "rights" with
        | Some (CSlice l) => (l, true)
        | _ => ([], false)
        end in
      let '(userIDN, okUserID) :=
        match sub !! "user_id" with
        | Some (CNumber n) => (n, true)
        | _ => ("", false)
        end in
      let '(userID, okUserID) :=
        if okUserID
        then let '(val, err) := jsonNumberToUint64 userIDN in
             (val, match err with None => true | Some _ => false end)
        else (0%Z, okUserID) in
      if negb okUser || negb okRights || negb okUserID then (None, ErrInvalidJWT)
      else
        let '(rights, err) := ifSliceToStrSlice irights in
        match err with
        | Some _ => (None, ErrInvalidJWT)
        | None => (Some (NewPrincipal username userID rights), nil)
        end
    | _ => (None, nil)
    end
  end.

(** [buildToken]: the identifier and the time are drawn outside. *)
Definition buildToken (IssuerName jti : string) (iat : Claim) : Token :=
  mkToken (<["vars" := CMap ∅]> (<["iat" := iat]> (<["jti" := CString jti]>
            (<["sub" := CNil]> (<["iss" := CString IssuerName]> ∅))))).

(** [CreateRequestContext], given what [ReadToken] returned for the
    request and the token [buildToken] would build. *)
Definition CreateRequestContext (read : option Token * error) (built : Token)
    (r : http_Request) : option Ctx * error :=
  let '(token, err) := read in
  let token := match err with Some _ => None | None => token end in
  let token := match token with None => built | Some token => token end in
  let '(principal, err) := readPrincipal (Some token) in
  match err with
  | Some _ => (None, err)
  | None => (Some (mkCtx (mkContext principal) r token false None), nil)
  end.

(** ** The asset resolver *)

(** An asset handler returns a response, or nil. *)
Definition AssetHandler : Type := string -> option Response.

Record AssetResolver : Type := mkAssetResolver {
  chain : list AssetHandler;
}.

Definition NewAssetResolver (chain : list AssetHandler) : AssetResolver :=
  mkAssetResolver chain.

Definition PrependHandler (r : AssetResolver) (handler : AssetHandler) : AssetResolver :=
  mkAssetResolver ([handler] ++ chain r)%list.

Definition AppendHandler (r : AssetResolver) (handler : AssetHandler) : AssetResolver :=
  mkAssetResolver (chain r ++ [handler])%list.

Definition Chain (r : AssetResolver) (chain : list AssetHandler) : AssetResolver :=
  mkAssetResolver chain.

Fixpoint Resolve_loop (chain : list AssetHandler) (path : string) : option Response :=
  match chain with
  | [] => None
  | resolver :: chain =>
    match resolver path with
    | Some response => Some response
    | None => Resolve_loop chain path
    end
  end.

Definition Resolve (r : AssetResolver) (path : string) : option Response :=
  Resolve_loop (chain r) path.

Definition AssetResolverResponse (a : AssetResolver) : ContextHandlerFunc := fun ctx =>
  let path := URL_Path (Request ctx) in
  let path := if negb (String.prefix "/" path) then "/" ++ path else path in
  match Resolve a path with
  | Some response => Return (response, ctx)
  | None => Return (BlankResponse StatusNotFound, ctx)
  end.

Section files.

(** [os.Stat] on the file system at hand: whether the name is a directory,
    or an error. *)
Variable os_Stat : string -> bool * error.
Variable path_Clean : string -> string.

(** The fuel is the depth of the recursion. *)
Fixpoint resolveLocalFile (fuel : nat) (filename : string) : outcome (string * error) :=
  match fuel with
  | 0 => OutOfFuel
  | S fuel =>
    let '(IsDir, err) := os_Stat filename in
    match err with
    | Some _ => Return ("", err)
    | None =>
      if IsDir then resolveLocalFile fuel (filename ++ "/index.html")
      else Return (filename, nil)
    end
  end.

Definition LocalAssetHandler (fuel : nat) (rootpath : string) (lpath : string) :
    outcome (option Response) :=
  '(filename, err) ← resolveLocalFile fuel (rootpath ++ path_Clean lpath);
  match err with
  | None => Return (Some (ServeFile filename))
  | Some _ => Return None
  end.

End files.

(** [name] followed by [k] times [/index.html]. *)
Fixpoint index_of_depth (k : nat) (name : string) : string :=
  match k with
  | 0 => name
  | S k => index_of_depth k (name ++ "/index.html")
  end.

(** ** router.go *)

Record Route : Type := mkRoute {
  Route_mw : option Middleware;
}.

Record Router : Type := mkRouter {
  Router_mw : option Middleware;
}.

Definition newRouter : Router := mkRouter None.

Definition Router_Path (r : Router) : Route := mkRoute (Router_mw r).

Definition Router_Middleware (r : Router) (mws : list (option Middleware)) : Router :=
  mkRouter (composeMiddleware mws).

Definition Route_Middleware (r : Route) (mws : list (option Middleware)) : Route :=
  mkRoute (composeMiddleware mws).

(** The handler [Route.Handler] mounts keeps [fn] in a variable of its own
    and assigns to it on every request; a request is answered by the
    function it finds there after the assignment. *)
Definition Route_Handler_serve (r : Route) (fn : ContextHandlerFunc) (ctx : Ctx) :
    outcome (Response * Ctx) * ContextHandlerFunc :=
  let fn :=
    match Route_mw r with
    | Some mw => mw fn
    | None => fn
    end in
  (fn ctx, fn).

(** The answers to the requests [ctxs], in the order they come in. *)
Fixpoint Route_Handler_run (r : Route) (fn : ContextHandlerFunc) (ctxs : list Ctx) :
    list (outcome (Response * Ctx)) :=
  match ctxs with
  | [] => []
  | ctx :: ctxs =>
    let '(answer, fn) := Route_Handler_serve r fn ctx in
    answer :: Route_Handler_run r fn ctxs
  end.

(** ** Readings of the properties *)

(** A text without a comma. *)
Fixpoint no_comma (s : string) : bool :=
  match s with
  | EmptyString => true
  | String c s => negb (Ascii.eqb c ",") && no_comma s
  end.

(** The handler a middleware, nil or not, makes of a handler. *)
Definition wrap (mw : option Middleware) (h : ContextHandlerFunc) : ContextHandlerFunc :=
  match mw with
  | Some m => m h
  | None => h
  end.

(** The claims [Principal]'s json tags give a principal. *)
Definition claims_of_principal (p : Principal) : gmap string Claim :=
  <["username" := CString (Username p)]>
    (<["user_id" := CNumber (FormatUint (UserID p))]>
       (<["rights" := CSlice (CString <$> Rights p)]> ∅)).

(** The parts of the options [hasJSONOption] compares the key with: the
    comma-separated parts, but for an empty last one. *)
Definition options_compared (opts : string) : list string :=
  let parts := comma_separated opts in
  match last parts with
  | Some "" => removelast parts
  | _ => parts
  end.

(** The claims under [sub] of a token, when they are a map. *)
Definition sub_of (token : option Token) : option (gmap string Claim) :=
  match token with
  | Some token =>
    match Claims token !! "sub" with
    | Some (CMap sub) => Some sub
    | _ => None
    end
  | None => None
  end.

(** The claims [sub] write the principal [p]: its name as a string, its
    rights as a slice of strings, its identifier as a number in decimal
    digits, below 2^64. *)
Definition writes_principal (sub : gmap string Claim) (p : Principal) : Prop :=
  sub !! "username" = Some (CString (Username p))
  /\ sub !! "rights" = Some (CSlice (CString <$> Rights p))
  /\ exists n, sub !! "user_id" = Some (CNumber n)
       /\ n <> "" /\ all_digits n = true /\ decimal_value n 0 = UserID p
       /\ (UserID p <= maxUint64)%Z.

(** A request without header, route variables or query. *)
Definition plain_request (path : string) : http_Request :=
  mkRequest (fun _ => "") path None.

(** The context of a request to [/orders/42] on the route [/orders/{id}],
    before any route variable was asked for. *)
Definition order_context : Ctx :=
  mkCtx anonymous (mkRequest (fun _ => "") "/orders/42" (Some {[ "id" := "42" ]}))
    (mkToken ∅) false None.

(** A file system with a directory [/srv/docs] that holds an
    [index.html]. *)
Definition static_files (name : string) : bool * error :=
  if String.eqb name "/srv/docs" then (true, nil)
  else if String.eqb name "/srv/docs/index.html" then (false, nil)
  else (false, Some "no such file or directory").

(** ** Proof steps *)

(** Case analysis on the call a sequence of calls starts with. *)
Ltac case_bind H :=
  match type of H with
  | (?m ≫= _) = _ =>
    let E := fresh "E" in
    destruct m eqn:E; cbn [mbind outcome_bind] in H; try discriminate H
  end.

Tactic Notation "case_bind" hyp(H) "as" simple_intropattern(x) :=
  match type of H with
  | (?m ≫= _) = _ =>
    let E := fresh "E" in
    destruct m as [x| |] eqn:E; cbn [mbind outcome_bind] in H; try discriminate H
  end.


(** * Properties *)

(** ** Loops *)

Section for_range_lemmas.
Context {St Res : Type}.
Implicit Types (body : nat -> St -> outcome (flow St Res)).

(** An invariant of the loop state holds when the loop ends, and [Q]
    holds of what the loop returns early. *)
Lemma for_range_invariant body (I : nat -> St -> Prop) (Q : Res -> Prop) n :
  forall a s c,
    I a s ->
    (forall i s c, a <= i < a + n -> I i s -> body i s = Return c ->
                   match c with Next s' => I (S i) s' | Exit r => Q r end) ->
    for_range (seq a n) body s = Return c ->
    match c with Next s' => I (a + n) s' | Exit r => Q r end.
Proof.
  induction n as [|n IH]; intros a s c Ha Hstep Hrun; simpl in Hrun.
  - inversion Hrun; subst. by rewrite Nat.add_0_r.
  - destruct (body a s) as [[s'|r]| |] eqn:Hb; simpl in Hrun; try discriminate.
    + specialize (Hstep a s (Next s') ltac:(lia) Ha Hb) as Hs. simpl in Hs.
      replace (a + S n) with (S a + n) by lia.
      apply (IH (S a) s' c Hs); [|done].
      intros i s0 c0 Hi. apply Hstep. lia.
    + inversion Hrun; subst.
      by specialize (Hstep a s (Exit r) ltac:(lia) Ha Hb).
Qed.

(** A loop whose iterations all go on runs to its end. *)
Lemma for_range_runs body (I : nat -> St -> Prop) n :
  forall a s,
    I a s ->
    (forall i s, a <= i < a + n -> I i s ->
                 exists s', body i s = Return (Next s') /\ I (S i) s') ->
    exists s', for_range (seq a n) body s = Return (Next s') /\ I (a + n) s'.
Proof.
  induction n as [|n IH]; intros a s Ha Hstep; simpl.
  - exists s. by rewrite Nat.add_0_r.
  - destruct (Hstep a s ltac:(lia) Ha) as (s' & Hb & Hs).
    rewrite Hb. simpl.
    replace (a + S n) with (S a + n) by lia.
    apply IH; [done|]. intros i s0 Hi. apply Hstep. lia.
Qed.

End for_range_lemmas.

(** ** The merger *)

Lemma merge_fields_length rec ctx dvals :
  forall fs svals, length (merge_fields rec ctx fs svals dvals) = length dvals.
Proof.
  induction dvals as [|d dvals IH]; intros fs svals; simpl; [done|].
  by rewrite IH.
Qed.

Lemma merge_fields_lookup rec ctx dvals :
  forall fs svals i,
    merge_fields rec ctx fs svals dvals !! i =
    (fun d => match fs !! i, svals !! i with
              | Some f, Some s =>
                if writable ctx f then (if plain_record s then rec s d else s) else d
              | _, _ => d
              end) <$> dvals !! i.
Proof.
  induction dvals as [|d dvals IH]; intros fs svals i; simpl; [done|].
  destruct i as [|i]; simpl.
  - by destruct fs, svals.
  - rewrite IH. by destruct fs, svals; simpl; rewrite ?lookup_nil.
Qed.

Lemma isRecursibleType_plain_record v s :
  rv v = Some s -> isRecursibleType v = Return (plain_record s).
Proof.
  intros Hv. unfold isRecursibleType. rewrite Hv.
  destruct s; try reflexivity.
  simpl. unfold owns_decoding, Implements, PtrTo_Implements. simpl.
  repeat case_bool_decide; reflexivity.
Qed.

(** [Field] of a value that is not read-only, at an exported field. *)
Lemma Field_exported ty vals i f x :
  Fields ty !! i = Some f -> vals !! i = Some x -> exported f = true ->
  Field (ValueOf (VStruct ty vals)) i = Return (ValueOf x).
Proof.
  intros Hf Hx He. unfold Field, ValueOf. simpl. by rewrite Hf, Hx, He.
Qed.

Lemma Set_assignable d s :
  assignable s d = true -> Set_ (ValueOf d) (ValueOf s) = Return s.
Proof. intros H. unfold Set_, ValueOf, flagRO. simpl. by rewrite H. Qed.

(** On records of one type whose written fields are exported, [safeMerge]
    returns nil and leaves in the target what the specification's
    select-and-copy describes. *)
Lemma safeMerge_spec n :
  forall ctx src dst,
    mergeable_at n ctx src dst = true ->
    safeMerge n ctx (ValueOf src) (ValueOf dst) = Return (merge_spec ctx src dst, nil).
Proof.
  induction n as [|n IH]; intros ctx src dst Hm; [discriminate|].
  destruct src as [| | | | | | | | | | |ts svals| | |]; try discriminate.
  destruct dst as [| | | | | | | | | | |ty dvals| | |]; try discriminate.
  simpl in Hm.
  apply andb_prop in Hm as [Hm Hall].
  apply andb_prop in Hm as [Hm Hld].
  apply andb_prop in Hm as [Hty Hls].
  apply bool_decide_eq_true in Hty. subst ts.
  apply Nat.eqb_eq in Hls, Hld.
  rewrite forallb_forall in Hall.
  set (spec := merge_fields (merge_spec ctx) ctx (Fields ty) svals dvals).
  assert (Hlen : length spec = length dvals) by apply merge_fields_length.
  cbn [safeMerge ValueOf rv].
  change (NumField _) with (Return (length (Fields ty)) : outcome nat).
  cbn [mbind outcome_bind].
  match goal with |- context [for_range (seq 0 ?k) ?body ?s0] =>
  destruct (for_range_runs body
    (fun i d => exists vs, d = VStruct ty vs /\ length vs = length dvals
                           /\ (forall j, j < i -> vs !! j = spec !! j)
                           /\ (forall j, i <= j -> vs !! j = dvals !! j))
    k 0 s0) as (d & Hrun & vs & -> & Hvl & Hlt & _)
  end.
  - exists dvals. split; [done|]. split; [done|]. split; [intros j Hj; lia|done].
  - intros i d [_ Hi] (vs & -> & Hvl & Hlt & Hge). simpl in Hi.
    destruct (lookup_lt_is_Some_2 (Fields ty) i Hi) as [f Hf].
    destruct (lookup_lt_is_Some_2 svals i ltac:(lia)) as [s Hs].
    destruct (lookup_lt_is_Some_2 dvals i ltac:(lia)) as [x Hx].
    specialize (Hall i). rewrite Hf, Hs, Hx in Hall.
    specialize (Hall ltac:(apply in_seq; lia)).
    assert (Hspec : spec !! i =
              Some (if writable ctx f
                    then (if plain_record s then merge_spec ctx s x else s) else x)).
    { unfold spec. by rewrite merge_fields_lookup, Hf, Hs, Hx. }
    unfold Type_Field, with_rv, ValueOf. cbn [rv flagStickyRO flagEmbedRO]. rewrite Hf.
    cbn [mbind outcome_bind].
    fold (writable ctx f). cbv zeta.
    destruct (writable ctx f) eqn:Hw.
    + apply andb_prop in Hall as [Hexp Hrest].
      change (mkRValue false false (Some (VStruct ty svals))) with (ValueOf (VStruct ty svals)).
      change (mkRValue false false (Some (VStruct ty vs))) with (ValueOf (VStruct ty vs)).
      rewrite (Field_exported _ _ _ _ _ Hf Hs Hexp). cbn [mbind outcome_bind].
      rewrite (Field_exported ty vs i f x Hf ltac:(by rewrite Hge) Hexp).
      cbn [mbind outcome_bind].
      rewrite (isRecursibleType_plain_record (ValueOf s) s eq_refl).
      cbn [mbind outcome_bind].
      destruct (plain_record s) eqn:Hp.
      * rewrite (IH ctx s x Hrest). cbn [mbind outcome_bind nil].
        eexists. split; [reflexivity|].
        exists (<[i := merge_spec ctx s x]> vs). split; [done|].
        rewrite length_insert. split; [done|]. split.
        -- intros j Hj. destruct (decide (j = i)) as [->|Hne].
           ++ rewrite list_lookup_insert_eq by lia. by rewrite Hspec.
           ++ rewrite list_lookup_insert_ne by done. apply Hlt. lia.
        -- intros j Hj. rewrite list_lookup_insert_ne by lia. apply Hge. lia.
      * rewrite (Set_assignable x s Hrest). cbn [mbind outcome_bind].
        eexists. split; [reflexivity|].
        exists (<[i := s]> vs). split; [done|].
        rewrite length_insert. split; [done|]. split.
        -- intros j Hj. destruct (decide (j = i)) as [->|Hne].
           ++ rewrite list_lookup_insert_eq by lia. by rewrite Hspec.
           ++ rewrite list_lookup_insert_ne by done. apply Hlt. lia.
        -- intros j Hj. rewrite list_lookup_insert_ne by lia. apply Hge. lia.
    + eexists. split; [reflexivity|].
      exists vs. split; [done|]. split; [done|]. split.
      * intros j Hj. destruct (decide (j = i)) as [->|Hne].
        -- rewrite Hspec. rewrite Hge by lia. done.
        -- apply Hlt. lia.
      * intros j Hj. apply Hge. lia.
  - rewrite Hrun. cbn [mbind outcome_bind]. simpl.
    do 3 f_equal. apply list_eq. intros j.
    destruct (decide (j < length (Fields ty))) as [Hj|Hj].
    + by apply Hlt.
    + rewrite (lookup_ge_None_2 vs) by lia. symmetry.
      apply lookup_ge_None_2. rewrite merge_fields_length. lia.
Qed.

(** Whatever the arguments, the error [safeMerge] returns is nil. *)
Lemma safeMerge_error_nil fuel :
  forall ctx src dst d e,
    safeMerge fuel ctx src dst = Return (d, e) -> e = nil.
Proof.
  induction fuel as [|n IH]; intros ctx src dst d e H; [discriminate|].
  cbn [safeMerge] in H.
  destruct (rv dst) as [d0|]; [|discriminate].
  case_bind H as k. case_bind H as [d1|r].
  - by inversion H.
  - inversion H; subst r.
    match type of E0 with for_range (seq 0 ?k) ?body ?s0 = _ =>
      pose proof (for_range_invariant body (fun _ _ => True)
                    (fun r : Value * error => r.2 = nil) k 0 s0 (Exit (d, e)) I) as Hinv
    end.
    apply Hinv; [|done]. clear Hinv E0.
    intros i s c _ _ Hb.
    case_bind Hb as f. cbv zeta in Hb.
    destruct (_ || _); [|by inversion Hb].
    case_bind Hb as srcField. case_bind Hb as dstField.
    case_bind Hb as [|].
    + case_bind Hb as [d' [err|]].
      * by pose proof (IH _ _ _ _ _ E4).
      * by inversion Hb.
    + case_bind Hb as d'. by inversion Hb.
Qed.

(** The fields the context may not write keep the target's value, whatever
    the scratch value is. *)
Lemma safeMerge_frame fuel ctx src dst ty dvals d e :
  rv dst = Some (VStruct ty dvals) ->
  safeMerge fuel ctx src dst = Return (d, e) ->
  exists vals, d = VStruct ty vals /\ length vals = length dvals /\
    forall j f, Fields ty !! j = Some f -> writable ctx f = false ->
                vals !! j = dvals !! j.
Proof.
  intros Hdst H. destruct fuel as [|n]; [discriminate|].
  pose proof (safeMerge_error_nil _ _ _ _ _ _ H) as Hnil.
  cbn [safeMerge] in H. rewrite Hdst in H.
  case_bind H as k. case_bind H as res.
  match type of E0 with for_range (seq 0 ?k) ?body ?s0 = _ =>
    pose proof (for_range_invariant body
      (fun _ d => exists vals, d = VStruct ty vals /\ length vals = length dvals /\
         forall j f, Fields ty !! j = Some f -> writable ctx f = false ->
                     vals !! j = dvals !! j)
      (fun r : Value * error => r.2 <> nil) k 0 s0 res) as Hinv
  end.
  assert (Hres : match res with
                 | Next d' => exists vals, d' = VStruct ty vals /\ length vals = length dvals /\
                     forall j f, Fields ty !! j = Some f -> writable ctx f = false ->
                                 vals !! j = dvals !! j
                 | Exit r => r.2 <> nil
                 end).
  { apply Hinv; [by exists dvals| |done]. clear Hinv E0 H Hnil.
    intros i s c _ (vs & -> & Hvl & Hfr) Hb.
    case_bind Hb as f'. cbv zeta in Hb.
    unfold Type_Field, with_rv in E0. cbn [rv] in E0.
    destruct (Fields ty !! i) as [f|] eqn:Hf; [|discriminate].
    inversion E0; subst f'. fold (writable ctx f) in Hb.
    destruct (writable ctx f) eqn:Hw.
    - assert (Hkeep : forall x, exists vals, with_field (VStruct ty vs) i x = VStruct ty vals
                /\ length vals = length dvals
                /\ forall j f0, Fields ty !! j = Some f0 -> writable ctx f0 = false ->
                                vals !! j = dvals !! j).
      { intros x. exists (<[i := x]> vs). split; [done|].
        rewrite length_insert. split; [done|].
        intros j f0 Hj Hw0. rewrite list_lookup_insert_ne; [by eapply Hfr|].
        intros ->. congruence. }
      case_bind Hb as srcField. case_bind Hb as dstField. case_bind Hb as [|].
      + case_bind Hb as [d' [err|]]; inversion Hb; subst c; [done|].
        apply Hkeep.
      + case_bind Hb as d'. inversion Hb; subst c. apply Hkeep.
    - inversion Hb; subst c. by exists vs. }
  destruct res as [d'|r].
  - inversion H; subst. exact Hres.
  - inversion H; subst r. simpl in Hres. by destruct Hres.
Qed.

(** ** The two-phase decode *)

Lemma ReadJSON_pointer {Body : Type} (decode : Body -> Value -> Value * error)
    fuel ctx body t :
  ReadJSON decode fuel ctx body (VPtr (Some t)) =
  match (decode body (zeroOf t)).2 with
  | Some e => Return (t, Some e)
  | None => safeMerge fuel ctx (ValueOf (decode body (zeroOf t)).1) (ValueOf t)
  end.
Proof.
  unfold ReadJSON, ReadJSONUnsafe. simpl.
  by destruct (decode body (zeroOf t)) as [ru [e|]].
Qed.

(** C5.  When the unfiltered decode into the scratch instance fails,
    [ReadJSON] returns that error and the target keeps its value: the
    target is the same after the call as before, whatever the decoder left
    in the scratch instance. *)
Theorem ReadJSON_decode_error_leaves_target {Body : Type}
    (decode : Body -> Value -> Value * error) fuel ctx body t scratch e :
  decode body (zeroOf t) = (scratch, Some e) ->
  ReadJSON decode fuel ctx body (VPtr (Some t)) = Return (t, Some e).
Proof. intros H. by rewrite ReadJSON_pointer, H. Qed.

Lemma ReadJSON_decode_error_witness :
  truncated_decode "x" (zeroOf (account "bob" "s3")) = (account "x" "", Some "unexpected EOF")
  /\ ReadJSON truncated_decode 0 (session ["admin"]) "x" (VPtr (Some (account "bob" "s3")))
     = Return (account "bob" "s3", Some "unexpected EOF").
Proof.
  split; [reflexivity|].
  apply (ReadJSON_decode_error_leaves_target truncated_decode 0 (session ["admin"]) "x"
           (account "bob" "s3") (account "x" "") "unexpected EOF").
  reflexivity.
Defined.



(** The merge does not return when it comes to a field it may write that
    is unexported and is no plain record: reflect refuses to set it. *)
Lemma safeMerge_unexported fuel ctx ty svals dvals i f s r :
  Fields ty !! i = Some f -> svals !! i = Some s ->
  writable ctx f = true -> exported f = false -> plain_record s = false ->
  safeMerge fuel ctx (ValueOf (VStruct ty svals)) (ValueOf (VStruct ty dvals)) <> Return r.
Proof.
  intros Hf Hs Hw Hexp Hplain H. destruct fuel as [|n]; [discriminate|].
  cbn [safeMerge ValueOf rv] in H.
  change (NumField _) with (Return (length (Fields ty)) : outcome nat) in H.
  cbn [mbind outcome_bind] in H.
  case_bind H as res.
  match type of E with for_range (seq 0 ?k) ?body ?s0 = _ =>
    pose proof (for_range_invariant body
      (fun j d => j <= i /\ exists vs, d = VStruct ty vs)
      (fun _ : Value * error => False) k 0 s0 res) as Hinv
  end.
  assert (Hres : match res with
                 | Next d => length (Fields ty) <= i /\ exists vs, d = VStruct ty vs
                 | Exit _ => False
                 end).
  { apply Hinv; [split; [lia|by exists dvals]| |done]. clear Hinv E H.
    intros j d c _ [Hji (vs & ->)] Hb.
    case_bind Hb as f'. cbv zeta in Hb.
    unfold Type_Field, with_rv in E. cbn [rv ValueOf] in E.
    destruct (Fields ty !! j) as [g|] eqn:Hg; [|discriminate].
    inversion E; subst f'. clear E. fold (writable ctx g) in Hb.
    destruct (decide (j = i)) as [->|Hne].
    - exfalso. rewrite Hf in Hg. inversion Hg; subst g. rewrite Hw in Hb.
      case_bind Hb as srcField.
      assert (Hsrc : rv srcField = Some s).
      { unfold Field, ValueOf in E. simpl in E. rewrite Hf, Hs in E. by inversion E. }
      case_bind Hb as dstField.
      assert (Hro : flagRO dstField = true).
      { unfold Field, with_rv, ValueOf in E0. simpl in E0. rewrite Hf in E0.
        destruct (vs !! i); [|discriminate]. inversion E0. unfold flagRO.
        cbn [flagStickyRO flagEmbedRO]. rewrite Hexp. by destruct (Anonymous f). }
      rewrite (isRecursibleType_plain_record srcField s Hsrc), Hplain in Hb.
      cbn [mbind outcome_bind] in Hb.
      unfold Set_ in Hb. rewrite Hro in Hb. discriminate Hb.
    - assert (Hkeep : forall x, S j <= i /\ exists vals, with_field (VStruct ty vs) j x
                                                        = VStruct ty vals).
      { intros x. split; [lia|]. by eexists. }
      destruct (writable ctx g).
      + case_bind Hb as srcField. case_bind Hb as dstField. case_bind Hb as [|].
        * case_bind Hb as [d' [err|]]; inversion Hb; subst c.
          -- by pose proof (safeMerge_error_nil _ _ _ _ _ _ E2).
          -- apply Hkeep.
        * case_bind Hb as d'. inversion Hb; subst c. apply Hkeep.
      + inversion Hb; subst c. split; [lia|by exists vs]. }
  destruct res as [d|r']; [|done].
  destruct Hres as [Hlen _]. apply lookup_lt_Some in Hf. lia.
Qed.

(** C2, as amended.  When the body decodes without error into a scratch
    record: whenever [ReadJSON] returns, it returns nil and the target's
    fields whose [writeRight] is set and not held keep their prior values.
    When scratch and target are of one struct type and the fields the
    context may write are exported, [ReadJSON] does return, and every field
    of the target is settled by its [writeRight]: a field whose right is
    set and not held keeps its prior value; a field whose right is unset or
    held takes the decoded value as a whole when it is not a plain record,
    and is merged field by field under the same rule when it is one.  When
    a field the context may write is unexported and no plain record,
    [ReadJSON] does not return: reflect refuses to set the field. *)
Theorem ReadJSON_select_and_copy {Body : Type}
    (decode : Body -> Value -> Value * error) n ctx body ty vals scratch :
  decode body (zeroOf (VStruct ty vals)) = (scratch, nil) ->
  (forall t' e,
     ReadJSON decode n ctx body (VPtr (Some (VStruct ty vals))) = Return (t', e) ->
     e = nil
     /\ exists vals', t' = VStruct ty vals' /\ length vals' = length vals
          /\ forall i f, Fields ty !! i = Some f -> writable ctx f = false ->
                          vals' !! i = vals !! i)
  /\ (mergeable_at n ctx scratch (VStruct ty vals) = true ->
      exists svals vals',
        scratch = VStruct ty svals
        /\ ReadJSON decode n ctx body (VPtr (Some (VStruct ty vals)))
           = Return (VStruct ty vals', nil)
        /\ forall i f d, Fields ty !! i = Some f -> vals !! i = Some d ->
             exists s, svals !! i = Some s
               /\ vals' !! i = Some (if writable ctx f
                                     then (if plain_record s then merge_spec ctx s d else s)
                                     else d))
  /\ (forall svals i f s r,
        scratch = VStruct ty svals ->
        Fields ty !! i = Some f -> svals !! i = Some s ->
        writable ctx f = true -> exported f = false -> plain_record s = false ->
        ReadJSON decode n ctx body (VPtr (Some (VStruct ty vals))) <> Return r).
Proof.
  intros Hdec. rewrite ReadJSON_pointer, Hdec. cbn [fst snd nil].
  split; [|split].
  - intros t' e H.
    pose proof (safeMerge_error_nil _ _ _ _ _ _ H) as ->. split; [done|].
    exact (safeMerge_frame n ctx (ValueOf scratch) (ValueOf (VStruct ty vals)) ty vals t' nil
             eq_refl H).
  - intros Hm.
    rewrite (safeMerge_spec n ctx scratch _ Hm).
    destruct n as [|n]; [discriminate|].
    destruct scratch as [| | | | | | | | | | |ts svals| | |]; try discriminate.
    simpl in Hm.
    apply andb_prop in Hm as [Hm _].
    apply andb_prop in Hm as [Hm Hld].
    apply andb_prop in Hm as [Hty Hls].
    apply bool_decide_eq_true in Hty. subst ts.
    apply Nat.eqb_eq in Hls, Hld.
    exists svals, (merge_fields (merge_spec ctx) ctx (Fields ty) svals vals).
    split; [done|]. split; [done|].
    intros i f d Hf Hd.
    destruct (lookup_lt_is_Some_2 svals i) as [s Hs].
    { apply lookup_lt_Some in Hf. lia. }
    exists s. split; [done|].
    by rewrite merge_fields_lookup, Hf, Hs, Hd.
  - intros svals i f s r -> Hf Hs Hw Hexp Hplain.
    by apply (safeMerge_unexported n ctx ty svals vals i f s r).
Qed.

Lemma ReadJSON_select_and_copy_witness :
  json_Decode_model 3 customer_body (zeroOf (customer "old" "Rome" "00100"))
  = (customer "x" "Oslo" "0150", nil)
  /\ ReadJSON (json_Decode_model 3) 2 anonymous customer_body
       (VPtr (Some (customer "old" "Rome" "00100")))
     = Return (customer "x" "Oslo" "00100", nil)
  /\ exists svals vals',
       customer "x" "Oslo" "0150" = VStruct tCustomer svals
       /\ ReadJSON (json_Decode_model 3) 2 anonymous customer_body
            (VPtr (Some (customer "old" "Rome" "00100")))
          = Return (VStruct tCustomer vals', nil)
       /\ forall i f d, Fields tCustomer !! i = Some f ->
            [VString "old"; VStruct tAddress [VString "Rome"; VString "00100"]] !! i = Some d ->
            exists s, svals !! i = Some s
              /\ vals' !! i = Some (if writable anonymous f
                                    then (if plain_record s then merge_spec anonymous s d else s)
                                    else d).
Proof.
  split; [vm_compute; reflexivity|]. split; [vm_compute; reflexivity|].
  exact (proj1 (proj2 (ReadJSON_select_and_copy (json_Decode_model 3) 2 anonymous customer_body
                         tCustomer
                         [VString "old"; VStruct tAddress [VString "Rome"; VString "00100"]]
                         (customer "x" "Oslo" "0150") eq_refl)) eq_refl).
Defined.

(** C2 as stated fails: the body decodes without error, the field [Addr]
    has no [writeRight], and yet it does not end up equal to the decoded
    value, because its own field [Zip] is write-protected.  And a target
    with an unexported field without [writeRight] gets no decoded value at
    all: the call panics. *)
Lemma ReadJSON_full_overwrite_counterexample :
  json_Decode_model 3 customer_body (zeroOf (customer "old" "Rome" "00100"))
    = (customer "x" "Oslo" "0150", nil)
  /\ ReadJSON (json_Decode_model 3) 2 anonymous customer_body
       (VPtr (Some (customer "old" "Rome" "00100")))
     = Return (customer "x" "Oslo" "00100", nil)
  /\ Tag_Get (Tag (field "Addr" [("json", "addr")])) "writeRight" = ""
  /\ VStruct tAddress [VString "Oslo"; VString "00100"]
     <> VStruct tAddress [VString "Oslo"; VString "0150"]
  /\ json_Decode_model 3 (WMap {[ "title" := WValue (VString "x") ]})
       (zeroOf (ticket "old" "12A"))
     = (ticket "x" "", nil)
  /\ ReadJSON (json_Decode_model 3) 2 anonymous (WMap {[ "title" := WValue (VString "x") ]})
       (VPtr (Some (ticket "old" "12A")))
     = Panic "reflect: reflect.Value.Set using value obtained using unexported field".
Proof.
  split; [vm_compute; reflexivity|].
  split; [vm_compute; reflexivity|].
  split; [reflexivity|].
  split; [intros H; inversion H|].
  split; vm_compute; reflexivity.
Qed.

(** ** The principal's rights *)

Lemma hasItem_elem_of item l : hasItem item l = true <-> item ∈ l.
Proof.
  induction l as [|v l IH]; simpl.
  - split; [discriminate|]. by intros ?%elem_of_nil.
  - destruct (String.eqb_spec v item) as [->|Hne].
    + split; [intros _; by left|done].
    + rewrite IH. split; [by right|].
      intros [?|?]%elem_of_cons; [congruence|done].
Qed.

(** The binary search ends within its budget, at an index where the
    predicate holds or at the upper end it started from. *)
Lemma Search_loop_spec (f : nat -> bool) n0 fuel :
  forall i j, i <= j -> j - i <= fuel -> (j = n0 \/ f j = true) ->
    i <= Search_loop fuel i j f <= j
    /\ (Search_loop fuel i j f = n0 \/ f (Search_loop fuel i j f) = true).
Proof.
  induction fuel as [|fuel IH]; intros i j Hij Hfuel Hj; cbn [Search_loop].
  - assert (i = j) as -> by lia. split; [lia|done].
  - destruct (Nat.ltb_spec i j) as [Hlt|Hge].
    + assert (Hh : i <= (i + j) / 2 < j).
      { split; [apply Nat.div_le_lower_bound; lia|apply Nat.Div0.div_lt_upper_bound; lia]. }
      destruct (f ((i + j) / 2)) eqn:Hf; cbn [negb].
      * destruct (IH i ((i + j) / 2)) as [Hr Hr']; [lia|lia|by right|].
        split; [lia|done].
      * destruct (IH ((i + j) / 2 + 1) j) as [Hr Hr']; [lia|lia|done|].
        split; [lia|done].
    + assert (i = j) as -> by lia. split; [lia|done].
Qed.

Lemma sort_Search_spec (f : nat -> bool) n :
  sort_Search n f <= n /\ (sort_Search n f = n \/ f (sort_Search n f) = true).
Proof.
  unfold sort_Search.
  destruct (Search_loop_spec f n n 0 n) as [Hr Hr']; [lia|lia|by left|].
  split; [lia|done].
Qed.

(** A right added to an authenticated session is held afterwards. *)
Lemma AddRight_grants ctx right :
  IsAuthenticated ctx = true ->
  (AddRight ctx right).2 = nil /\ HasRight (AddRight ctx right).1 right = true.
Proof.
  unfold AddRight, IsAuthenticated, HasRight.
  destruct (principal ctx) as [p|]; [|discriminate]. intros _. cbn.
  split; [done|]. apply hasItem_elem_of. apply elem_of_app. right. by left.
Qed.

(** The budget [sort_Search] gives its loop is enough: more changes
    nothing. *)
Lemma Search_loop_stable (f : nat -> bool) fuel :
  forall i j, j - i <= fuel -> Search_loop (S fuel) i j f = Search_loop fuel i j f.
Proof.
  induction fuel as [|fuel IH]; intros i j Hfuel.
  - cbn [Search_loop]. destruct (Nat.ltb_spec i j); [lia|done].
  - change (Search_loop (S (S fuel)) i j f)
      with (if (i <? j)%nat
            then if negb (f ((i + j) / 2))
                 then Search_loop (S fuel) ((i + j) / 2 + 1) j f
                 else Search_loop (S fuel) i ((i + j) / 2) f
            else i).
    change (Search_loop (S fuel) i j f)
      with (if (i <? j)%nat
            then if negb (f ((i + j) / 2))
                 then Search_loop fuel ((i + j) / 2 + 1) j f
                 else Search_loop fuel i ((i + j) / 2) f
            else i).
    destruct (Nat.ltb_spec i j) as [Hlt|Hge]; [|done].
    assert (Hh : i <= (i + j) / 2 < j).
    { split; [apply Nat.div_le_lower_bound; lia|apply Nat.Div0.div_lt_upper_bound; lia]. }
    destruct (negb _); apply IH; lia.
Qed.

(** What [RemoveRight] takes out of the rights of an authenticated session
    is one entry equal to the right, or nothing. *)
Theorem RemoveRight_removes_an_exact_match ctx right p :
  principal ctx = Some p ->
  RemoveRight ctx right = ctx
  \/ exists i, Rights p !! i = Some right
       /\ RemoveRight ctx right =
          mkContext (Some (mkPrincipal (Username p) (UserID p)
                             (take i (Rights p) ++ drop (i + 1) (Rights p)))).
Proof.
  intros Hp. unfold RemoveRight, IsAuthenticated. rewrite Hp. cbn [negb].
  destruct (sort_Search_spec (fun i => bool_decide (Rights p !! i = Some right))
              (length (Rights p))) as [_ Hfound].
  destruct (Nat.leb_spec (length (Rights p))
              (sort_Search (length (Rights p))
                 (fun i => bool_decide (Rights p !! i = Some right)))) as [Hge|Hlt];
    [by left|].
  right. destruct Hfound as [Heq|Hf]; [lia|].
  apply bool_decide_eq_true in Hf. by eexists.
Qed.

Lemma RemoveRight_removes_an_exact_match_witness :
  RemoveRight (session ["b"; "a"]) "a" = session ["b"; "a"]
  \/ exists i, ["b"; "a"] !! i = Some "a"
       /\ RemoveRight (session ["b"; "a"]) "a" =
          mkContext (Some (mkPrincipal "alice" 7 (take i ["b"; "a"] ++ drop (i + 1) ["b"; "a"]))).
Proof.
  exact (RemoveRight_removes_an_exact_match (session ["b"; "a"]) "a"
           (mkPrincipal "alice" 7 ["b"; "a"]) eq_refl).
Defined.

(** C6, at the failing input.  A session holding the rights [a] and [b]
    still holds [a] after [RemoveRight "a"]: the binary search looks at
    index 1 only, finds [b] there and reports that nothing matches; so it
    is for every right that is followed by a different one.  With the
    right held twice one entry is removed and the right is still held.  On
    an unauthenticated context [RemoveRight] changes nothing. *)
Theorem RemoveRight_misses_a_held_right :
  RemoveRight (session ["a"; "b"]) "a" = session ["a"; "b"]
  /\ HasRight (RemoveRight (session ["a"; "b"]) "a") "a" = true
  /\ (forall r r', r' <> r ->
        RemoveRight (session [r; r']) r = session [r; r']
        /\ HasRight (RemoveRight (session [r; r']) r) r = true)
  /\ HasRight (RemoveRight (session ["a"; "a"]) "a") "a" = true
  /\ forall right, RemoveRight anonymous right = anonymous.
Proof.
  split; [reflexivity|]. split; [reflexivity|]. split; [|split; reflexivity].
  intros r r' Hne.
  assert (Hsame : RemoveRight (session [r; r']) r = session [r; r']).
  { unfold RemoveRight, session, IsAuthenticated, sort_Search.
    cbn [principal negb Rights length Search_loop Nat.ltb Nat.leb].
    change ((0 + 2) / 2) with 1. cbn [lookup list_lookup].
    rewrite bool_decide_eq_false_2 by congruence. done. }
  split; [done|]. rewrite Hsame. unfold HasRight, session. cbn [principal Rights hasItem].
  by rewrite String.eqb_refl.
Qed.

(** ** The serializer *)

Section serializer.
Variable CamelToSnake : string -> string.

(** None of the three serializer functions ever returns an error. *)
Lemma serializer_error_nil fuel :
  forall ctx src,
    (forall w e, safeSerialize CamelToSnake fuel ctx src = Return (w, e) -> e = nil)
    /\ (forall out w e,
          safeSerializeStruct CamelToSnake fuel ctx src out = Return (w, e) -> e = nil)
    /\ (forall w e, safeSerializeSlice CamelToSnake fuel ctx src = Return (w, e) -> e = nil).
Proof.
  induction fuel as [|n IH]; intros ctx src; [by repeat split|].
  split; [|split].
  - intros w e H. cbn [safeSerialize] in H.
    case_bind H as k.
    destruct k;
      try (case_bind H as m; by inversion H);
      try exact (proj2 (proj2 (IH ctx src)) _ _ H).
    + case_bind H as x. exact (proj1 (IH ctx x) _ _ H).
    + case_bind H as m. destruct m; try exact (proj1 (proj2 (IH ctx src)) _ _ _ H).
      destruct (Implements _ _); [by inversion H|].
      exact (proj1 (proj2 (IH ctx src)) _ _ _ H).
  - intros out w e H. cbn [safeSerializeStruct] in H.
    case_bind H as k. case_bind H as num. case_bind H as [m|r]; [by inversion H|].
    inversion H; subst r.
    match type of E1 with for_range (seq 0 ?k) ?body ?s0 = _ =>
      pose proof (for_range_invariant body (fun _ _ => True)
                    (fun _ : Wire * error => False) k 0 s0 (Exit (w, e)) I) as Hinv
    end.
    exfalso. apply Hinv; [|done]. clear Hinv E1 H.
    intros i s c _ _ Hb.
    case_bind Hb as f. cbv zeta in Hb.
    destruct (_ || _); [|by inversion Hb].
    destruct (parseJSONTag _) as [name opts].
    case_bind Hb as [|]; [by inversion Hb|].
    destruct (_ && _).
    + case_bind Hb as [w' [err|]].
      * by pose proof (proj1 (proj2 (IH ctx src)) _ _ _ E3).
      * by destruct w'; inversion Hb.
    + case_bind Hb as fv. case_bind Hb as [val [err|]].
      * by pose proof (proj1 (IH ctx fv) _ _ E4).
      * by inversion Hb.
  - intros w e H. cbn [safeSerializeSlice] in H.
    case_bind H as num. case_bind H as [m|r]; [by inversion H|].
    inversion H; subst r.
    match type of E0 with for_range (seq 0 ?k) ?body ?s0 = _ =>
      pose proof (for_range_invariant body (fun _ _ => True)
                    (fun _ : Wire * error => False) k 0 s0 (Exit (w, e)) I) as Hinv
    end.
    exfalso. apply Hinv; [|done]. clear Hinv E0 H.
    intros i s c _ _ Hb.
    case_bind Hb as x. case_bind Hb as [val [err|]].
    + by pose proof (proj1 (IH ctx x) _ _ E1).
    + by inversion Hb.
Qed.

Lemma emits_invariant_skip fuel ctx src ty out0 i m f :
  Fields ty !! i = Some f ->
  (forall fv, Field src i = Return fv -> emitted ctx f fv = false) ->
  emits_invariant CamelToSnake fuel ctx src ty out0 i m ->
  emits_invariant CamelToSnake fuel ctx src ty out0 (S i) m.
Proof.
  intros Hf Hskip (HA & HB & HC). split; [|split].
  - intros k x Hk. destruct (HA k x Hk) as [?|(j & g & fv & Hj & ?)]; [by left|].
    right. exists j, g, fv. split; [lia|done].
  - intros j g fv Hj Hg Hfv Hem.
    destruct (decide (j = i)) as [->|Hne].
    + rewrite Hf in Hg. inversion Hg; subst g.
      rewrite (Hskip fv Hfv) in Hem. discriminate.
    + apply (HB j g fv); [lia|done..].
  - done.
Qed.

Lemma emits_invariant_emit fuel ctx src ty out0 i m f fv val :
  Fields ty !! i = Some f ->
  Field src i = Return fv ->
  emitted ctx f fv = true ->
  safeSerialize CamelToSnake fuel ctx fv = Return (val, nil) ->
  emits_invariant CamelToSnake fuel ctx src ty out0 i m ->
  emits_invariant CamelToSnake fuel ctx src ty out0 (S i)
    (<[wire_name CamelToSnake f := val]> m).
Proof.
  intros Hf Hfv Hem Hval (HA & HB & HC). split; [|split].
  - intros k x Hk.
    destruct (decide (wire_name CamelToSnake f = k)) as [<-|Hne].
    + rewrite lookup_insert_eq in Hk. inversion Hk; subst x.
      right. exists i, f, fv. split; [lia|done].
    + rewrite lookup_insert_ne in Hk by done.
      destruct (HA k x Hk) as [?|(j & g & gv & Hj & ?)]; [by left|].
      right. exists j, g, gv. split; [lia|done].
  - intros j g gv Hj Hg Hgv Hemg.
    assert (Hser : exists x, safeSerialize CamelToSnake fuel ctx gv = Return (x, nil)).
    { destruct (decide (j = i)) as [->|Hji].
      - rewrite Hfv in Hgv. inversion Hgv; subst gv. by exists val.
      - apply (HB j g gv); [lia|done..]. }
    split; [|done].
    destruct (decide (wire_name CamelToSnake f = wire_name CamelToSnake g)) as [<-|Hne].
    + rewrite lookup_insert_eq. by eexists.
    + rewrite lookup_insert_ne by done.
      destruct (decide (j = i)) as [->|Hji].
      * rewrite Hf in Hg. inversion Hg; subst g. done.
      * apply (HB j g gv); [lia|done..].
  - intros k Hk.
    destruct (decide (wire_name CamelToSnake f = k)) as [<-|Hne].
    + rewrite lookup_insert_eq. by eexists.
    + rewrite lookup_insert_ne by done. by apply HC.
Qed.

(** What a call of [safeSerializeStruct] on a record returns: nil as the
    error, and a map that holds the entries of [out] and, under its wire
    name, the serialization of every field it emits. *)
Lemma safeSerializeStruct_emits fuel ctx src ty vals out w e :
  rv src = Some (VStruct ty vals) ->
  named ty = true ->
  safeSerializeStruct CamelToSnake (S fuel) ctx src out = Return (w, e) ->
  exists m, w = WMap m /\ e = nil
    /\ emits_invariant CamelToSnake fuel ctx src ty (default ∅ out) (length (Fields ty)) m.
Proof.
  intros Hsrc Hnamed H.
  cbn [safeSerializeStruct] in H.
  case_bind H as k. case_bind H as num.
  unfold NumField in E0. rewrite Hsrc in E0. inversion E0; subst num. clear E0.
  case_bind H as res.
  match type of E0 with for_range (seq 0 ?k) ?body ?s0 = _ =>
    pose proof (for_range_invariant body
      (emits_invariant CamelToSnake fuel ctx src ty (default ∅ out))
      (fun _ : Wire * error => False) k 0 s0 res) as Hinv
  end.
  assert (Hres : match res with
                 | Next m => emits_invariant CamelToSnake fuel ctx src ty (default ∅ out)
                               (length (Fields ty)) m
                 | Exit _ => False
                 end).
  { apply Hinv; [| |done]; clear Hinv E0 H.
    { split; [by left|]. split; [|done]. intros j f fv Hj. lia. }
    intros i s c _ Hinv Hb.
    case_bind Hb as f'. cbv zeta in Hb.
    unfold Type_Field in E0. rewrite Hsrc in E0.
    destruct (Fields ty !! i) as [f|] eqn:Hf; [|discriminate].
    inversion E0; subst f'. clear E0.
    fold (readable ctx f) in Hb.
    destruct (readable ctx f) eqn:Hread.
    2: { inversion Hb. apply (emits_invariant_skip _ _ _ _ _ _ _ f Hf); [|done].
         intros fv _. unfold emitted. by rewrite Hread. }
    assert (Hname : json_name f = (parseJSONTag (Tag_Get (Tag f) "json")).1) by done.
    assert (Hopts : json_opts f = (parseJSONTag (Tag_Get (Tag f) "json")).2) by done.
    destruct (parseJSONTag (Tag_Get (Tag f) "json")) as [name opts].
    simpl in Hname, Hopts.
    case_bind Hb as skip.
    assert (Hskip : forall fv, Field src i = Return fv -> emitted ctx f fv = negb skip).
    { intros fv Hfv. unfold emitted, suppressed, omitempty.
      rewrite Hread, Hname, Hopts.
      destruct (String.eqb name "-"); [by inversion E0|].
      destruct (hasJSONOption "omitempty" opts); [|by inversion E0].
      rewrite Hfv in E0. by inversion E0. }
    destruct skip.
    { inversion Hb. by apply (emits_invariant_skip _ _ _ _ _ _ _ f Hf). }
    destruct (String.eqb name "" && String.eqb (Name f) "") eqn:Hanon.
    { apply andb_prop in Hanon as [_ Hn].
      unfold named in Hnamed. rewrite forallb_forall in Hnamed.
      specialize (Hnamed f). rewrite Hn in Hnamed.
      discriminate Hnamed. apply list_elem_of_In. by eapply list_elem_of_lookup_2. }
    case_bind Hb as fv. case_bind Hb as [val [err|]].
    { by pose proof (proj1 (serializer_error_nil fuel ctx fv) _ _ E2). }
    inversion Hb.
    replace (if String.eqb name "" then CamelToSnake (Name f) else name)
      with (wire_name CamelToSnake f) by (unfold wire_name; by rewrite Hname).
    apply (emits_invariant_emit fuel ctx src ty _ i s f fv val); try done.
    by rewrite (Hskip fv eq_refl). }
  destruct res as [m|r]; [|done].
  inversion H; subst. by exists m.
Qed.

(** [MakeJSONResponse] of a record that returns a map went through
    [safeSerializeStruct], starting from the empty map. *)
Lemma MakeJSONResponse_record fuel ctx ty vals m e :
  named ty = true ->
  MakeJSONResponse CamelToSnake (S (S fuel)) ctx (VStruct ty vals) = Return (WMap m, e) ->
  e = nil
  /\ emits_invariant CamelToSnake fuel ctx (ValueOf (VStruct ty vals)) ty ∅
       (length (Fields ty)) m.
Proof.
  intros Hnamed H. unfold MakeJSONResponse in H. cbn [safeSerialize] in H.
  cbn [Type_Kind ValueOf rv kind_of mbind outcome_bind Interface flagRO
       flagStickyRO flagEmbedRO orb] in H.
  destruct (Implements ty encoding_TextMarshaler); [discriminate|].
  destruct (safeSerializeStruct_emits fuel ctx (ValueOf (VStruct ty vals)) ty vals None _ _
              eq_refl Hnamed H)
    as (m' & Hm & He & Hinv).
  inversion Hm; subst m'. done.
Qed.

Lemma Field_ValueOf ty vals i f v :
  Fields ty !! i = Some f -> vals !! i = Some v ->
  exists fv, Field (ValueOf (VStruct ty vals)) i = Return fv /\ rv fv = Some v.
Proof.
  intros Hf Hv. unfold Field. cbn [rv ValueOf]. rewrite Hf, Hv. by eexists.
Qed.

End serializer.

(** ** The serializer at the inputs where it departs from the specification *)




(** C3, at the failing input and in general.  The fields of an embedded
    record are not flattened: the record [Outer], which embeds [Inner], is
    serialized with [Inner]'s field nested one level down, under the
    snake-cased name of the embedded type.  In general every entry of the
    output of a record is the serialization of one of the record's own
    fields, embedded or not, under that field's wire name.  (Of two fields
    with one wire name the one declared last does win.) *)
Theorem safeSerialize_nests_embedded_record (CamelToSnake : string -> string) :
  Anonymous (embedded "Inner" []) = true
  /\ MakeJSONResponse CamelToSnake 5 anonymous (outer 1)
     = Return (WMap {[ CamelToSnake "Inner" := WMap {[ "x" := WValue (VInt KInt 1) ]} ]}, nil)
  /\ MakeJSONResponse CamelToSnake 3 anonymous (pair "first" "second")
     = Return (WMap {[ "v" := WValue (VString "second") ]}, nil)
  /\ (forall fuel ctx ty vals m e k x,
        named ty = true ->
        MakeJSONResponse CamelToSnake (S (S fuel)) ctx (VStruct ty vals) = Return (WMap m, e) ->
        m !! k = Some x ->
        exists i f v, Fields ty !! i = Some f /\ vals !! i = Some v
          /\ wire_name CamelToSnake f = k
          /\ exists fv, rv fv = Some v
               /\ safeSerialize CamelToSnake fuel ctx fv = Return (x, nil)).
Proof.
  split; [reflexivity|]. split; [reflexivity|]. split; [vm_compute; reflexivity|].
  intros fuel ctx ty vals m e k x Hnamed H Hk.
  destruct (MakeJSONResponse_record CamelToSnake fuel ctx ty vals m e Hnamed H) as (_ & HA & _).
  destruct (HA k x Hk) as [Hempty|(j & f & fv & _ & Hf & Hfv & _ & Hname & Hser)].
  { by rewrite lookup_empty in Hempty. }
  destruct (lookup_lt_is_Some_2 vals j) as [v Hv].
  { unfold Field in Hfv. cbn [rv ValueOf] in Hfv. rewrite Hf in Hfv.
    destruct (vals !! j) eqn:Hvj; [by eapply lookup_lt_Some|discriminate]. }
  destruct (Field_ValueOf ty vals j f v Hf Hv) as (fv' & Hfv' & Hrv).
  rewrite Hfv in Hfv'. inversion Hfv'; subst fv'.
  exists j, f, v. repeat split; try done. by exists fv.
Qed.

(** A nil pointer is never serialized: the call does not return. *)
Lemma safeSerialize_nil_pointer (CamelToSnake : string -> string) fuel ctx r w e :
  rv r = Some (VPtr None) -> safeSerialize CamelToSnake fuel ctx r <> Return (w, e).
Proof.
  intros Hr. destruct fuel as [|[|fuel]]; [done|..];
    cbn [safeSerialize]; unfold Type_Kind, Elem; rewrite Hr; done.
Qed.

(** C4, at the failing input and in general.  Serializing a nil pointer
    panics, on its own and as a field of a record; and the serializer never
    returns on a record in which it reaches a nil pointer field (a field it
    may read, not suppressed, without [omitempty]). *)
Theorem safeSerialize_nil_pointer_panics (CamelToSnake : string -> string) fuel ctx :
  safeSerialize CamelToSnake (S (S fuel)) ctx (ValueOf (VPtr None))
  = Panic "reflect: call of reflect.Value.Type on zero Value"
  /\ MakeJSONResponse CamelToSnake (S (S (S (S fuel)))) ctx profile_without_avatar
     = Panic "reflect: call of reflect.Value.Type on zero Value"
  /\ (forall ty vals i f w e,
        named ty = true -> Implements ty encoding_TextMarshaler = false ->
        Fields ty !! i = Some f -> vals !! i = Some (VPtr None) ->
        readable ctx f = true -> suppressed f = false -> omitempty f = false ->
        MakeJSONResponse CamelToSnake fuel ctx (VStruct ty vals) <> Return (w, e)).
Proof.
  split; [reflexivity|]. split; [reflexivity|].
  intros ty vals i f w e Hnamed Htm Hf Hv Hread Hsup Hom H.
  destruct fuel as [|[|n]]; [discriminate H| |];
    unfold MakeJSONResponse in H; cbn [safeSerialize] in H;
    cbn [Type_Kind ValueOf rv kind_of mbind outcome_bind Interface flagRO
         flagStickyRO flagEmbedRO orb] in H;
    rewrite Htm in H; [discriminate H|].
  destruct (safeSerializeStruct_emits CamelToSnake n ctx (ValueOf (VStruct ty vals)) ty vals
              None w e eq_refl Hnamed H) as (m & _ & _ & _ & HB & _).
  destruct (Field_ValueOf ty vals i f (VPtr None) Hf Hv) as (fv & Hfv & Hrv).
  destruct (HB i f fv) as [_ [x Hx]]; [by eapply lookup_lt_Some|done|done| |].
  - unfold emitted. by rewrite Hread, Hsup, Hom.
  - by apply (safeSerialize_nil_pointer CamelToSnake n ctx fv x nil Hrv).
Qed.

(** An array, a map, an interface value and every scalar is handed on as
    it is, whatever the context: the serializer looks into slices, structs
    and pointers only. *)
Lemma safeSerialize_passes_through (CamelToSnake : string -> string) fuel ctx v :
  kind_of v <> reflect.Slice -> kind_of v <> reflect.Struct -> kind_of v <> reflect.Ptr ->
  safeSerialize CamelToSnake (S fuel) ctx (ValueOf v) = Return (WValue v, nil).
Proof.
  intros Hslice Hstruct Hptr. cbn [safeSerialize].
  cbn [Type_Kind ValueOf rv mbind outcome_bind].
  destruct (kind_of v) eqn:Hk; try done.
Qed.

(** C7, with the failing input.  Without a principal [HasRight] is false
    for every right; and yet the serializer hands out a field with a read
    right that lies in a record held in an array: the array is no slice, so
    it goes to the output as it is, with the records in it unfiltered (the
    same records in a slice are filtered).  What holds without a principal,
    whenever the call returns: in the map returned for a record every entry
    is written for a field of the record itself without read right, so the
    record's own fields with a read right are excluded; and a merge leaves
    the target's own fields with a write right as they were.  A record
    behind a pointer is replaced as a whole by the merge, the fields with a
    write right in it included. *)
Theorem unauthenticated_context :
  (forall ctx right, principal ctx = None -> HasRight ctx right = false)
  /\ (forall CamelToSnake : string -> string,
        MakeJSONResponse CamelToSnake 7 anonymous
          (team "red" "t0" (VArray [vault "ann" "k1"]))
        = Return (WMap {[ "name" := WValue (VString "red");
                          "vaults" := WValue (VArray [vault "ann" "k1"]) ]}, nil)
        /\ MakeJSONResponse CamelToSnake 7 anonymous
             (team "red" "t0" (VSlice [vault "ann" "k1"]))
           = Return (WMap {[ "name" := WValue (VString "red");
                             "vaults" := WSlice [WMap {[ "owner" := WValue (VString "ann") ]}]
                          ]}, nil))
  /\ Tag_Get (Tag (field "Key" [("json", "key"); ("readWrite", "admin")])) "readWrite" = "admin"
  /\ (forall (CamelToSnake : string -> string) fuel ctx v,
        kind_of v <> reflect.Slice -> kind_of v <> reflect.Struct ->
        kind_of v <> reflect.Ptr ->
        safeSerialize CamelToSnake (S fuel) ctx (ValueOf v) = Return (WValue v, nil))
  /\ (forall (CamelToSnake : string -> string) fuel ctx ty vals m e k,
        principal ctx = None -> named ty = true ->
        MakeJSONResponse CamelToSnake (S (S fuel)) ctx (VStruct ty vals) = Return (WMap m, e) ->
        is_Some (m !! k) ->
        exists f, f ∈ Fields ty /\ wire_name CamelToSnake f = k
                  /\ Tag_Get (Tag f) "readWrite" = "")
  /\ (forall fuel ctx src dst ty dvals d e,
        principal ctx = None ->
        rv dst = Some (VStruct ty dvals) ->
        safeMerge fuel ctx src dst = Return (d, e) ->
        exists vals, d = VStruct ty vals /\
          forall j f, Fields ty !! j = Some f -> Tag_Get (Tag f) "writeRight" <> "" ->
                      vals !! j = dvals !! j)
  /\ safeMerge 2 anonymous (ValueOf (branch "x" "Oslo" "0150"))
                           (ValueOf (branch "old" "Rome" "00100"))
     = Return (branch "x" "Oslo" "0150", nil).
Proof.
  split; [|split; [|split; [|split; [|split; [|split]]]]].
  - intros ctx right H. unfold HasRight. by rewrite H.
  - intros CamelToSnake. split; vm_compute; reflexivity.
  - reflexivity.
  - apply safeSerialize_passes_through.
  - intros CamelToSnake fuel ctx ty vals m e k Hp Hnamed H [x Hk].
    destruct (MakeJSONResponse_record CamelToSnake fuel ctx ty vals m e Hnamed H)
      as (_ & HA & _).
    destruct (HA k x Hk) as [Hempty|(j & f & fv & _ & Hf & _ & Hem & Hname & _)].
    { by rewrite lookup_empty in Hempty. }
    unfold emitted, readable, HasRight in Hem. rewrite Hp in Hem.
    rewrite orb_false_r, !andb_true_iff in Hem. destruct Hem as [[Hread _] _].
    exists f. split; [by eapply list_elem_of_lookup_2|]. split; [done|].
    by apply String.eqb_eq.
  - intros fuel ctx src dst ty dvals d e Hp Hdst H.
    destruct (safeMerge_frame _ _ _ _ _ _ _ _ Hdst H) as (vals & -> & _ & Hfr).
    exists vals. split; [done|]. intros j f Hf Hw. apply (Hfr j f Hf).
    unfold writable, HasRight. rewrite Hp.
    apply String.eqb_neq in Hw. by rewrite Hw.
  - reflexivity.
Qed.

(** ** The options of the json tag *)

Lemma substring_length_le s : forall n m, String.length (substring n m s) <= m.
Proof.
  induction s as [|c s IH]; intros [|n] [|m]; simpl; try lia.
  - specialize (IH 0 m). lia.
  - apply IH.
  - apply IH.
Qed.

Lemma substring_whole s : substring 0 (String.length s) s = s.
Proof. induction s as [|c s IH]; simpl; [done|]. by rewrite IH. Qed.

Lemma hasJSONOption_loop_unfold fuel key opts :
  hasJSONOption_loop (S fuel) key opts =
  if String.eqb opts "" then false
  else
    let i := strings_Index opts "," in
    let '(opts, next) :=
      if (0 <=? i)%Z
      then (slice_to opts (Z.to_nat i), slice_from opts (Z.to_nat i + 1))
      else (opts, "") in
    if String.eqb opts key then true
    else hasJSONOption_loop fuel key next.
Proof. reflexivity. Qed.

(** The budget [hasJSONOption] gives its loop is enough: more changes
    nothing. *)
Lemma hasJSONOption_loop_stable fuel :
  forall key opts, String.length opts <= fuel ->
    hasJSONOption_loop (S fuel) key opts = hasJSONOption_loop fuel key opts.
Proof.
  induction fuel as [|fuel IH]; intros key opts Hlen.
  - destruct opts; [reflexivity|simpl in Hlen; lia].
  - rewrite (hasJSONOption_loop_unfold (S fuel)), (hasJSONOption_loop_unfold fuel).
    destruct (String.eqb_spec opts "") as [|Hne]; [done|]. cbv zeta.
    assert (0 < String.length opts) by (destruct opts; [done|simpl; lia]).
    destruct (0 <=? strings_Index opts ",")%Z.
    + destruct (String.eqb _ key); [done|]. apply IH.
      unfold slice_from.
      pose proof (substring_length_le opts (Z.to_nat (strings_Index opts ",") + 1)
                    (String.length opts - (Z.to_nat (strings_Index opts ",") + 1))).
      lia.
    + destruct (String.eqb opts key); [done|]. apply IH. simpl. lia.
Qed.

Lemma index_comma_cons c s :
  index 0 "," (String c s) =
  if Ascii.eqb c "," then Some 0 else S <$> index 0 "," s.
Proof.
  cbn [index].
  change (String.prefix "," (String c s))
    with (if ascii_dec "," c then String.prefix "" s else false).
  destruct (ascii_dec "," c) as [<-|Hne]; [by destruct s|].
  destruct (Ascii.eqb_spec c ",") as [->|_]; [done|]. done.
Qed.

(** Cutting a text at its first comma, as [hasJSONOption] does, gives the
    first of its comma-separated parts and the text the others are in. *)
Lemma comma_separated_cut opts :
  if (0 <=? strings_Index opts ",")%Z
  then comma_separated opts
       = slice_to opts (Z.to_nat (strings_Index opts ","))
         :: comma_separated (slice_from opts (Z.to_nat (strings_Index opts ",") + 1))
  else comma_separated opts = [opts].
Proof.
  induction opts as [|c s IH]; [reflexivity|].
  unfold strings_Index in *. rewrite index_comma_cons.
  destruct (Ascii.eqb_spec c ",") as [->|Hc].
  - replace (0 <=? Z.of_nat 0)%Z with true by reflexivity.
    replace (Z.to_nat (Z.of_nat 0)) with 0 by reflexivity.
    unfold slice_to, slice_from.
    cbn [substring String.length comma_separated Nat.add Nat.sub].
    by rewrite Ascii.eqb_refl, Nat.sub_0_r, substring_whole.
  - destruct (index 0 "," s) as [j|]; cbn [fmap option_fmap option_map].
    + rewrite Nat2Z.id in IH.
      replace (0 <=? Z.of_nat j)%Z with true in IH by (symmetry; apply Z.leb_le; lia).
      replace (0 <=? Z.of_nat (S j))%Z with true by (symmetry; apply Z.leb_le; lia).
      rewrite Nat2Z.id. cbn [comma_separated].
      rewrite (proj2 (Ascii.eqb_neq _ _) Hc), IH.
      unfold slice_to, slice_from. cbn [substring String.length Nat.add Nat.sub]. done.
    + cbn [Z.leb Z.compare] in *. cbn [comma_separated].
      by rewrite (proj2 (Ascii.eqb_neq _ _) Hc), IH.
Qed.

Lemma hasJSONOption_loop_spec key fuel :
  key <> "" ->
  forall opts, String.length opts <= fuel ->
    (hasJSONOption_loop fuel key opts = true <-> key ∈ comma_separated opts).
Proof.
  intros Hkey. induction fuel as [|fuel IH]; intros opts Hlen.
  - destruct opts; [|simpl in Hlen; lia]. simpl.
    split; [discriminate|]. by intros ->%list_elem_of_singleton.
  - rewrite hasJSONOption_loop_unfold.
    destruct (String.eqb_spec opts "") as [->|Hne].
    { simpl. split; [discriminate|]. by intros ->%list_elem_of_singleton. }
    assert (0 < String.length opts) by (destruct opts; [done|simpl; lia]).
    pose proof (comma_separated_cut opts) as Hcut. cbv zeta.
    destruct (0 <=? strings_Index opts ",")%Z.
    + rewrite Hcut, elem_of_cons.
      destruct (String.eqb_spec (slice_to opts (Z.to_nat (strings_Index opts ","))) key)
        as [->|Hh]; [by split; [left|]|].
      rewrite IH.
      * split; [by right|]. by intros [?|?].
      * unfold slice_from.
        pose proof (substring_length_le opts (Z.to_nat (strings_Index opts ",") + 1)
                      (String.length opts - (Z.to_nat (strings_Index opts ",") + 1))).
        lia.
    + rewrite Hcut, list_elem_of_singleton.
      destruct (String.eqb_spec opts key) as [->|Hh]; [done|].
      assert (hasJSONOption_loop fuel key "" = false) as -> by by destruct fuel.
      split; [discriminate|congruence].
Qed.

(** [hasJSONOption] finds an option exactly when it is one of the
    comma-separated parts of the options. *)
Lemma hasJSONOption_spec key opts :
  key <> "" -> (hasJSONOption key opts = true <-> key ∈ comma_separated opts).
Proof.
  intros Hkey. unfold hasJSONOption.
  destruct (Nat.eqb_spec (String.length opts) 0) as [H0|H0].
  - destruct opts; [|discriminate]. simpl.
    split; [discriminate|]. by intros ->%list_elem_of_singleton.
  - by apply hasJSONOption_loop_spec.
Qed.

(** ** Emptiness *)

Lemma SFeqb_zero f : SFeqb f (S754_zero false) = true <-> float_is_zero f.
Proof. destruct f as [s|s| |s m e]; try destruct s; simpl; intuition discriminate. Qed.

(** [isEmpty] decides the rule table. *)
Lemma isEmpty_table r v : rv r = Some v -> (isEmpty r = true <-> empty_by_table v).
Proof.
  intros Hr. unfold isEmpty, empty_by_table. rewrite Hr.
  destruct v as [b|k n|k n|k f|k re im|s|l|l|m|p|d|ty fs|b|b|a];
    try destruct k; cbn;
    rewrite ?Nat.eqb_eq, ?Z.eqb_eq, ?negb_true_iff, ?SFeqb_zero;
    try done; try (by destruct p); try (by destruct d); intuition discriminate.
Qed.

(** C8.  [isEmpty] classifies a value exactly as the rule table does; a
    field requests omit-on-empty exactly when [omitempty] is one of the
    comma-separated options of its json tag; and such a field, when the
    serializer would otherwise write it (it passes the read check, is not
    suppressed, and shares its wire name with no other field), is absent
    from the output exactly when its value is empty. *)
Theorem omit_on_empty :
  (forall r v, rv r = Some v -> (isEmpty r = true <-> empty_by_table v))
  /\ (forall r, rv r = None -> isEmpty r = false)
  /\ (forall f, omitempty f = true <-> "omitempty" ∈ comma_separated (json_opts f))
  /\ (forall (CamelToSnake : string -> string) fuel ctx ty vals i f v m e,
        named ty = true ->
        Fields ty !! i = Some f -> vals !! i = Some v ->
        omitempty f = true -> readable ctx f = true -> suppressed f = false ->
        (forall j g, Fields ty !! j = Some g -> j <> i ->
                     wire_name CamelToSnake g <> wire_name CamelToSnake f) ->
        MakeJSONResponse CamelToSnake (S (S fuel)) ctx (VStruct ty vals) = Return (WMap m, e) ->
        (m !! wire_name CamelToSnake f = None <-> empty_by_table v)).
Proof.
  split; [apply isEmpty_table|]. split.
  { intros r Hr. unfold isEmpty. by rewrite Hr. }
  split.
  { intros f. by apply hasJSONOption_spec. }
  intros snake fuel ctx ty vals i f v m e Hnamed Hf Hv Hom Hread Hsup Huniq H.
  destruct (MakeJSONResponse_record snake fuel ctx ty vals m e Hnamed H) as (_ & HA & HB & _).
  destruct (Field_ValueOf ty vals i f v Hf Hv) as (fv & Hfv & Hrv).
  rewrite <- (isEmpty_table fv v Hrv).
  assert (Hem : emitted ctx f fv = negb (isEmpty fv)).
  { unfold emitted. by rewrite Hread, Hsup, Hom. }
  split.
  - intros Hnone. destruct (isEmpty fv) eqn:Hie; [done|].
    destruct (HB i f fv) as [[x Hx] _]; [by eapply lookup_lt_Some|done|done|by rewrite Hem|].
    congruence.
  - intros Hie. destruct (m !! wire_name snake f) as [x|] eqn:Hx; [|done].
    destruct (HA _ x Hx) as [Hempty|(j & g & gv & _ & Hg & Hgv & Hemg & Hname & _)].
    { by rewrite lookup_empty in Hempty. }
    destruct (decide (j = i)) as [->|Hne].
    + rewrite Hf in Hg. inversion Hg; subst g.
      rewrite Hfv in Hgv. inversion Hgv; subst gv.
      rewrite Hem, Hie in Hemg. discriminate.
    + by destruct (Huniq j g Hg Hne).
Qed.

Lemma omit_on_empty_witness :
  (MakeJSONResponse (fun s => s) 3 anonymous (note "") = Return (WMap ∅, nil)
   /\ ((∅ : gmap string Wire) !! "text" = None <-> empty_by_table (VString "")))
  /\ (MakeJSONResponse (fun s => s) 3 anonymous (note "x")
       = Return (WMap {[ "text" := WValue (VString "x") ]}, nil)
      /\ (({[ "text" := WValue (VString "x") ]} : gmap string Wire) !! "text" = None
          <-> empty_by_table (VString "x"))).
Proof.
  assert (Huniq : forall j g, Fields tNote !! j = Some g -> j <> 0 ->
            wire_name (fun s => s) g
            <> wire_name (fun s => s) (field "Text" [("json", "text,omitempty")])).
  { intros [|j] g Hg Hj; [done|discriminate]. }
  split; (split; [vm_compute; reflexivity|]).
  - exact (proj2 (proj2 (proj2 omit_on_empty)) (fun s => s) 1 anonymous tNote [VString ""] 0
             (field "Text" [("json", "text,omitempty")]) (VString "") ∅ nil
             eq_refl eq_refl eq_refl eq_refl eq_refl eq_refl Huniq eq_refl).
  - exact (proj2 (proj2 (proj2 omit_on_empty)) (fun s => s) 1 anonymous tNote [VString "x"] 0
             (field "Text" [("json", "text,omitempty")]) (VString "x")
             {[ "text" := WValue (VString "x") ]} nil
             eq_refl eq_refl eq_refl eq_refl eq_refl eq_refl Huniq eq_refl).
Defined.

(** ** Through JSON text and back *)

Lemma json_scalar_kind_zeroOf v : json_scalar v = true -> kind_of (zeroOf v) = kind_of v.
Proof. by destruct v. Qed.

Lemma json_scalar_not_record v : json_scalar v = true -> plain_record v = false.
Proof. by destruct v. Qed.

Lemma json_scalar_assignable v x :
  json_scalar v = true -> kind_of x = kind_of v -> assignable v x = true.
Proof.
  intros Hv Hk. destruct v; try discriminate; unfold assignable;
    destruct x; try discriminate; by apply bool_decide_eq_true.
Qed.

(** An empty scalar is the zero value of its type. *)
Lemma json_scalar_empty_zero r v :
  rv r = Some v -> json_scalar v = true -> isEmpty r = true -> zeroOf v = v.
Proof.
  intros Hr Hv. unfold isEmpty. rewrite Hr.
  destruct v as [b|k n|k n| | |s| | | | | | | | |]; try discriminate.
  - destruct b; [discriminate|done].
  - destruct k; cbn; intros ->%Z.eqb_eq; done.
  - destruct k; cbn; intros ->%Z.eqb_eq; done.
  - destruct s; [done|discriminate].
Qed.

Lemma safeSerialize_scalar (CamelToSnake : string -> string) fuel ctx v :
  json_scalar v = true ->
  safeSerialize CamelToSnake (S fuel) ctx (ValueOf v) = Return (WValue v, nil).
Proof.
  destruct v as [b|k n|k n| | |s| | | | | | | | |]; try discriminate; intros _;
    first [reflexivity | destruct k; reflexivity].
Qed.

Lemma decode_fields_length rec m vals :
  forall fs, length (decode_fields rec m fs vals) = length vals.
Proof. induction vals as [|v vals IH]; intros fs; simpl; [done|]. by rewrite IH. Qed.

Lemma decode_fields_lookup rec m vals :
  forall fs i,
    decode_fields rec m fs vals !! i =
    (fun v => match fs !! i with
              | Some f =>
                match json_key f with
                | Some k => match m !! k with Some w => rec w v | None => (v, nil) end
                | None => (v, nil)
                end
              | None => (v, nil)
              end) <$> vals !! i.
Proof.
  induction vals as [|v vals IH]; intros fs i; simpl; [done|].
  destruct i as [|i]; simpl.
  - by destruct fs.
  - rewrite IH. by destruct fs; simpl; rewrite ?lookup_nil.
Qed.

Lemma first_error_nil errs : (forall e, e ∈ errs -> e = nil) -> first_error errs = nil.
Proof.
  induction errs as [|e errs IH]; intros H; simpl; [done|].
  rewrite (H e) by left. apply IH. intros e' He'. apply H. by right.
Qed.

(** Two fields with one key are one field, when the keys are pairwise
    distinct. *)
Lemma NoDup_omap_lookup {A B : Type} (g : A -> option B) (l : list A) :
  NoDup (omap g l) ->
  forall i j a b k, l !! i = Some a -> l !! j = Some b ->
                    g a = Some k -> g b = Some k -> i = j.
Proof.
  induction l as [|x l IH]; intros Hnd i j a b k Hi Hj Ha Hb; [by destruct i|].
  simpl in Hnd.
  assert (Hin : forall n c, l !! n = Some c -> g c = Some k -> k ∈ omap g l).
  { intros n c Hn Hc. apply list_elem_of_omap. exists c. split; [|done].
    by eapply list_elem_of_lookup_2. }
  destruct i as [|i], j as [|j]; simpl in Hi, Hj.
  - done.
  - inversion Hi; subst x. rewrite Ha in Hnd. apply NoDup_cons in Hnd as [Hk _].
    destruct Hk. by eapply Hin.
  - inversion Hj; subst x. rewrite Hb in Hnd. apply NoDup_cons in Hnd as [Hk _].
    destruct Hk. by eapply Hin.
  - f_equal. apply (IH ltac:(destruct (g x); [by apply NoDup_cons in Hnd as [_ ?]|done])
                      i j a b k); done.
Qed.

(** The key the decoder reads an exported field of the fragment from is
    the wire name the serializer writes it under. *)
Lemma json_key_wire_name (CamelToSnake : string -> string) f :
  field_in_fragment f = true -> exported f = true -> suppressed f = false ->
  json_key f = Some (wire_name CamelToSnake f).
Proof.
  unfold field_in_fragment, suppressed, json_key, wire_name, json_name.
  intros Hfrag Hex Hsup. rewrite Hex in *. cbn [negb orb] in *.
  rewrite orb_false_r in *.
  destruct (String.eqb_spec (Tag_Get (Tag f) "json") "-") as [Ht|Ht].
  - rewrite Ht in Hsup. discriminate.
  - cbn [orb] in Hfrag. apply andb_prop in Hfrag as [_ Hfrag].
    apply andb_prop in Hfrag as [Hname _].
    apply andb_prop in Hname as [Hname _].
    apply negb_true_iff in Hname. by rewrite Hname.
Qed.

Lemma json_key_suppressed f :
  exported f = true -> json_key f = None -> suppressed f = true.
Proof.
  unfold json_key, suppressed, json_name. intros Hex. rewrite Hex. cbn [negb].
  rewrite orb_false_r.
  destruct (String.eqb_spec (Tag_Get (Tag f) "json") "-") as [Ht|Ht]; [|done].
  by rewrite Ht.
Qed.

Lemma json_scalar_zeroOf v : json_scalar v = true -> json_scalar (zeroOf v) = true.
Proof. destruct v as [b|k n|k n| | |s| | | | | | | | |]; try done; by destruct k. Qed.

Lemma restore_fields_length rec vals :
  forall fs, length (restore_fields rec fs vals) = length vals.
Proof. induction vals as [|v vals IH]; intros fs; simpl; [done|]. by rewrite IH. Qed.

Lemma restore_fields_lookup rec vals :
  forall fs i,
    restore_fields rec fs vals !! i =
    (fun v => match fs !! i with
              | Some f => if suppressed f then zeroOf v else rec v
              | None => rec v
              end) <$> vals !! i.
Proof.
  induction vals as [|v vals IH]; intros fs i; simpl; [done|].
  destruct i as [|i]; simpl.
  - by destruct fs.
  - rewrite IH. by destruct fs; simpl; rewrite ?lookup_nil.
Qed.

(** With every write right held, the merge leaves the scratch record in
    the target. *)
Lemma merge_spec_full ctx n :
  forall s d,
    mergeable_at n ctx s d = true -> every_field n (writable ctx) s = true ->
    merge_spec ctx s d = s.
Proof.
  induction n as [|n IH]; intros s d Hm Hw; [discriminate|].
  destruct s as [| | | | | | | | | | |ts svals| | |]; try discriminate.
  destruct d as [| | | | | | | | | | |td dvals| | |]; try discriminate.
  cbn [mergeable_at] in Hm. cbn [every_field] in Hw.
  rewrite !andb_true_iff in Hm. destruct Hm as [[[Hty Hls] Hld] Hall].
  apply bool_decide_eq_true in Hty. subst ts. apply Nat.eqb_eq in Hls, Hld.
  apply andb_prop in Hw as [Hwf Hwv]. rewrite forallb_forall in Hall, Hwf, Hwv.
  cbn [merge_spec]. f_equal. apply list_eq. intros i. rewrite merge_fields_lookup.
  destruct (dvals !! i) as [d|] eqn:Hd.
  2: { cbn. symmetry. apply lookup_ge_None. apply lookup_ge_None in Hd. lia. }
  pose proof (lookup_lt_Some _ _ _ Hd) as Hi.
  destruct (lookup_lt_is_Some_2 (Fields td) i ltac:(lia)) as [f Hf].
  destruct (lookup_lt_is_Some_2 svals i ltac:(lia)) as [x Hx].
  specialize (Hall i ltac:(apply in_seq; lia)). rewrite Hf, Hx, Hd in Hall.
  rewrite Hf, Hx. cbn [fmap option_fmap option_map].
  rewrite (Hwf f ltac:(apply list_elem_of_In; by eapply list_elem_of_lookup_2)) in Hall |- *.
  destruct (plain_record x) eqn:Hp; [|done].
  f_equal. apply IH; [by apply andb_prop in Hall as [_ ?]|].
  specialize (Hwv x ltac:(apply list_elem_of_In; by eapply list_elem_of_lookup_2)).
  by destruct x.
Qed.

(** The serializer never looks at the value of a suppressed field. *)
Lemma for_range_ext {St Res : Type} (body body' : nat -> St -> outcome (flow St Res)) l :
  (forall i s, i ∈ l -> body i s = body' i s) ->
  forall s, for_range l body s = for_range l body' s.
Proof.
  induction l as [|i l IH]; intros Hb s; simpl; [done|].
  rewrite (Hb i s) by left.
  destruct (body' i s) as [[s'|r]| |]; simpl; try done.
  apply IH. intros j s0 Hj. apply Hb. by right.
Qed.

Lemma safeSerializeStruct_suppressed (CamelToSnake : string -> string) ctx ty vals i f x fuel :
  Fields ty !! i = Some f -> suppressed f = true ->
  forall ro eo out,
    safeSerializeStruct CamelToSnake fuel ctx
      (mkRValue ro eo (Some (VStruct ty (<[i := x]> vals)))) out
    = safeSerializeStruct CamelToSnake fuel ctx (mkRValue ro eo (Some (VStruct ty vals))) out.
Proof.
  intros Hf Hsup. induction fuel as [|fuel IH]; intros ro eo out; [done|].
  cbn [safeSerializeStruct]. cbv zeta.
  cbn [Type_Kind NumField rv kind_of mbind outcome_bind].
  match goal with
  | |- (for_range ?l ?b ?s0 ≫= ?k) = (for_range _ ?b' _ ≫= _) =>
    rewrite (for_range_ext b b' l); [done|]
  end.
  intros j s _. unfold Type_Field. cbn [rv].
  destruct (Fields ty !! j) as [g|] eqn:Hg; [|done]. cbn [mbind outcome_bind].
  destruct (_ || _); [|done].
  assert (Hname : json_name g = (parseJSONTag (Tag_Get (Tag g) "json")).1) by done.
  destruct (parseJSONTag (Tag_Get (Tag g) "json")) as [name opts]. simpl in Hname.
  destruct (decide (j = i)) as [->|Hne].
  - rewrite Hf in Hg. inversion Hg; subst g.
    unfold suppressed in Hsup. rewrite Hname in Hsup. by rewrite Hsup.
  - assert (HF : Field (mkRValue ro eo (Some (VStruct ty (<[i := x]> vals)))) j
                 = Field (mkRValue ro eo (Some (VStruct ty vals))) j).
    { unfold Field. cbn [rv flagStickyRO]. by rewrite list_lookup_insert_ne. }
    by rewrite HF, IH.
Qed.

Lemma json_record_fields n ty vals :
  json_record (S n) (VStruct ty vals) = true ->
  struct_in_fragment ty = true /\ named ty = true
  /\ Implements ty encoding_TextMarshaler = false
  /\ length vals = length (Fields ty)
  /\ (forall i f, Fields ty !! i = Some f -> exported f = true)
  /\ (forall i v, vals !! i = Some v -> json_scalar v = true \/ json_record n v = true).
Proof.
  cbn [json_record]. rewrite !andb_true_iff, negb_true_iff, Nat.eqb_eq, !forallb_forall.
  intros [[[[[? ?] ?] ?] Hex] Hsc]. repeat split; try done.
  - intros i f Hf. apply Hex, list_elem_of_In. by eapply list_elem_of_lookup_2.
  - intros i v Hv. apply orb_prop, Hsc, list_elem_of_In. by eapply list_elem_of_lookup_2.
Qed.

Lemma json_record_struct n v :
  json_record n v = true -> exists ty vals, v = VStruct ty vals.
Proof. destruct n, v; try discriminate. by eexists _, _. Qed.

Lemma restored_scalar v : json_scalar v = true -> restored v = v.
Proof. by destruct v. Qed.

Lemma zeroOf_zeroOf_json_record n :
  forall v, json_record n v = true -> zeroOf (zeroOf v) = zeroOf v.
Proof.
  induction n as [|n IH]; intros v Hrec; [discriminate|].
  destruct (json_record_struct _ _ Hrec) as (ty & vals & ->).
  destruct (json_record_fields n ty vals Hrec) as (_ & _ & _ & _ & _ & Hvals).
  cbn [zeroOf]. f_equal. apply list_eq. intros i.
  change (map zeroOf) with (fmap (M := list) zeroOf). rewrite !list_lookup_fmap.
  destruct (vals !! i) as [v|] eqn:Hv; [|done]. cbn [fmap option_fmap option_map].
  f_equal. destruct (Hvals i v Hv) as [Hs|Hr]; [by destruct v|by apply IH].
Qed.

(** The scratch record that comes back of a record of the fragment, and
    the zero value of the record, merge into a zero-valued target. *)
Lemma json_record_mergeable ctx n :
  forall v s,
    json_record n v = true ->
    every_field n (fun f => readable ctx f && writable ctx f) v = true ->
    s = restored v \/ s = zeroOf v ->
    mergeable_at n ctx s (zeroOf v) = true /\ every_field n (writable ctx) s = true.
Proof.
  induction n as [|n IH]; intros v s Hrec Hall Hs; [discriminate|].
  destruct (json_record_struct _ _ Hrec) as (ty & vals & ->).
  destruct (json_record_fields n ty vals Hrec) as (_ & _ & _ & Hlen & Hex & Hvals).
  cbn [every_field] in Hall. apply andb_prop in Hall as [Hrw Hsub].
  rewrite forallb_forall in Hrw, Hsub.
  assert (Hw : forall i f, Fields ty !! i = Some f -> writable ctx f = true).
  { intros i f Hf.
    specialize (Hrw f ltac:(apply list_elem_of_In; by eapply list_elem_of_lookup_2)).
    by apply andb_prop in Hrw as [_ ?]. }
  assert (Hshape : exists svals, s = VStruct ty svals /\ length svals = length vals
            /\ forall i u, vals !! i = Some u ->
                 exists su, svals !! i = Some su /\ (su = restored u \/ su = zeroOf u)).
  { destruct Hs as [->| ->]; cbn [restored zeroOf].
    - eexists. split; [done|]. split; [by rewrite restore_fields_length|].
      intros i u Hu. rewrite restore_fields_lookup, Hu. cbn [fmap option_fmap option_map].
      destruct (Fields ty !! i) as [f|]; [destruct (suppressed f)|]; eauto.
    - eexists. split; [done|]. split; [by rewrite length_map|].
      intros i u Hu. change (map zeroOf) with (fmap (M := list) zeroOf).
      rewrite list_lookup_fmap, Hu. eauto. }
  destruct Hshape as (svals & -> & Hslen & Hsv).
  assert (Hin : forall i u su, vals !! i = Some u -> svals !! i = Some su ->
            (if plain_record su then mergeable_at n ctx su (zeroOf u)
             else assignable su (zeroOf u)) = true
            /\ match su with VStruct _ _ => every_field n (writable ctx) su | _ => true end
               = true).
  { intros i u su Hu Hsu. destruct (Hsv i u Hu) as (su' & Hsu' & Hor).
    rewrite Hsu in Hsu'. inversion Hsu'; subst su'. clear Hsu'.
    destruct (Hvals i u Hu) as [Hsc|Hr].
    - assert (Hsus : json_scalar su = true /\ kind_of (zeroOf u) = kind_of su).
      { destruct Hor as [->| ->].
        - rewrite restored_scalar by done. split; [done|]. by apply json_scalar_kind_zeroOf.
        - split; [by apply json_scalar_zeroOf|done]. }
      destruct Hsus as [Hsus Hk].
      rewrite (json_scalar_not_record su Hsus). split; [by apply json_scalar_assignable|].
      by destruct su.
    - destruct (IH u su Hr) as [Hm He]; [|done|].
      { specialize (Hsub u ltac:(apply list_elem_of_In; by eapply list_elem_of_lookup_2)).
        destruct (json_record_struct _ _ Hr) as (tu & uvals & ->). done. }
      destruct (json_record_struct _ _ Hr) as (tu & uvals & ->).
      assert (exists l, su = VStruct tu l) as [l ->].
      { destruct Hor as [->| ->]; cbn [restored zeroOf]; by eexists. }
      split; [|done].
      destruct (plain_record _); [done|].
      cbn [zeroOf assignable]. by apply bool_decide_eq_true. }
  split.
  - cbn [mergeable_at zeroOf].
    rewrite bool_decide_eq_true_2 by done.
    rewrite Hslen, length_map, Hlen, Nat.eqb_refl. cbn [andb].
    apply forallb_forall. intros i Hi. apply in_seq in Hi.
    destruct (lookup_lt_is_Some_2 (Fields ty) i ltac:(lia)) as [f Hf].
    destruct (lookup_lt_is_Some_2 vals i ltac:(lia)) as [u Hu].
    destruct (lookup_lt_is_Some_2 svals i ltac:(lia)) as [su Hsu].
    rewrite Hf, Hsu. change (map zeroOf) with (fmap (M := list) zeroOf).
    rewrite list_lookup_fmap, Hu. cbn [fmap option_fmap option_map].
    rewrite (Hw i f Hf), (Hex i f Hf). cbn [andb].
    exact (proj1 (Hin i u su Hu Hsu)).
  - cbn [every_field]. apply andb_true_intro. split.
    + apply forallb_forall. intros f Hf. specialize (Hrw f Hf).
      by apply andb_prop in Hrw as [_ ?].
    + apply forallb_forall. intros su Hsu.
      apply list_elem_of_In, list_elem_of_lookup in Hsu as [i Hsu].
      destruct (lookup_lt_is_Some_2 vals i) as [u Hu].
      { apply lookup_lt_Some in Hsu. lia. }
      exact (proj2 (Hin i u su Hu Hsu)).
Qed.

Section through_json.
Variable CamelToSnake : string -> string.
Variable decode : Wire -> Value -> Value * error.
Hypothesis Hleaf : restores_scalars decode.
Hypothesis Hobj : reads_members decode.
Variable ctx : RequestContext.

(** On a record of the fragment, with every right held, the serializer
    returns a map, and a decoder that restores scalars and reads objects
    member by member turns that map back into the record, its suppressed
    fields zeroed. *)
Lemma json_record_through_json n :
  forall v,
    json_record n v = true ->
    every_field n (fun f => readable ctx f && writable ctx f) v = true ->
    exists m, MakeJSONResponse CamelToSnake (S (n + n)) ctx v = Return (WMap m, nil)
              /\ decode (WMap m) (zeroOf v) = (restored v, nil).
Proof.
  induction n as [|n IH]; intros v Hrec Hall; [discriminate|].
  destruct (json_record_struct _ _ Hrec) as (ty & vals & ->).
  destruct (json_record_fields n ty vals Hrec) as (Hfrag & Hnamed & Htm & Hlen & Hex & Hvals).
  cbn [every_field] in Hall. apply andb_prop in Hall as [Hrw Hsub].
  rewrite forallb_forall in Hrw, Hsub.
  assert (Hread : forall i f, Fields ty !! i = Some f -> readable ctx f = true).
  { intros i f Hf.
    specialize (Hrw f ltac:(apply list_elem_of_In; by eapply list_elem_of_lookup_2)).
    by apply andb_prop in Hrw as [? _]. }
  replace (S (S n + S n)) with (S (S (S (n + n)))) by lia.
  remember (S (n + n)) as k eqn:Hk.
  (* every field value goes through *)
  assert (Hfield : forall i u, vals !! i = Some u ->
            exists x, safeSerialize CamelToSnake k ctx (ValueOf u) = Return (x, nil)
                      /\ decode x (zeroOf u) = (restored u, nil)).
  { intros i u Hu. destruct (Hvals i u Hu) as [Hs|Hr].
    - exists (WValue u). rewrite Hk. split; [by apply safeSerialize_scalar|].
      rewrite restored_scalar by done. apply Hleaf; [done|].
      symmetry. by apply json_scalar_kind_zeroOf.
    - destruct (IH u Hr) as (m' & Hser & Hdec).
      { specialize (Hsub u ltac:(apply list_elem_of_In; by eapply list_elem_of_lookup_2)).
        destruct (json_record_struct _ _ Hr) as (tu & uvals & ->). done. }
      exists (WMap m'). split; [exact Hser|exact Hdec]. }
  (* the serializer returns *)
  assert (Hser : exists m, MakeJSONResponse CamelToSnake (S (S k)) ctx (VStruct ty vals)
                           = Return (WMap m, nil)).
  { unfold MakeJSONResponse. cbn [safeSerialize].
    cbn [Type_Kind ValueOf rv kind_of mbind outcome_bind Interface flagRO
         flagStickyRO flagEmbedRO orb].
    rewrite Htm. cbn [safeSerializeStruct].
    cbn [Type_Kind NumField ValueOf rv kind_of mbind outcome_bind].
    match goal with |- context [for_range (seq 0 ?j) ?body ?s0] =>
      destruct (for_range_runs body (fun _ _ => True) j 0 s0 I) as (m & Hrun & _)
    end.
    2: { rewrite Hrun. by exists m. }
    intros i s [_ Hi] _. cbn in Hi.
    destruct (lookup_lt_is_Some_2 (Fields ty) i Hi) as [f Hf].
    destruct (lookup_lt_is_Some_2 vals i ltac:(lia)) as [v Hv].
    change (mkRValue false false (Some (VStruct ty vals))) with (ValueOf (VStruct ty vals)).
    unfold Type_Field. cbn [rv ValueOf]. rewrite Hf. cbn [mbind outcome_bind].
    change (mkRValue false false (Some (VStruct ty vals))) with (ValueOf (VStruct ty vals)).
    rewrite (Field_exported ty vals i f v Hf Hv (Hex i f Hf)).
    cbn [mbind outcome_bind]. cbv zeta.
    destruct (_ || _); [|by eexists].
    destruct (parseJSONTag _) as [name opts].
    assert (Hanon : String.eqb name "" && String.eqb (Name f) "" = false).
    { unfold named in Hnamed. rewrite forallb_forall in Hnamed.
      rewrite (proj1 (negb_true_iff _) (Hnamed f ltac:(apply list_elem_of_In;
        by eapply list_elem_of_lookup_2))). apply andb_false_r. }
    destruct (Hfield i v Hv) as (x & Hx & _).
    destruct (String.eqb name "-"); cbn [mbind outcome_bind]; [by eexists|].
    destruct (hasJSONOption "omitempty" opts); cbn [mbind outcome_bind].
    - destruct (isEmpty (ValueOf v)); [by eexists|].
      rewrite Hanon, Hx. cbn [mbind outcome_bind]. by eexists.
    - rewrite Hanon, Hx. cbn [mbind outcome_bind]. by eexists. }
  destruct Hser as [m Hser]. exists m. split; [done|].
  destruct (MakeJSONResponse_record CamelToSnake k ctx ty vals m nil Hnamed Hser)
    as (_ & HA & HB & _).
  unfold struct_in_fragment in Hfrag.
  pose proof Hfrag as Hfrag'.
  apply andb_prop in Hfrag as [Hfrag Hown].
  apply andb_prop in Hfrag as [Hfields Hnodup].
  apply bool_decide_eq_true in Hnodup. rewrite forallb_forall in Hfields.
  assert (Hff : forall i f, Fields ty !! i = Some f -> field_in_fragment f = true).
  { intros i f Hf. apply Hfields, list_elem_of_In. by eapply list_elem_of_lookup_2. }
  (* an entry of the map is the tree of the field that owns its key *)
  assert (Hentry : forall key x, m !! key = Some x ->
            exists j g u, Fields ty !! j = Some g /\ vals !! j = Some u
              /\ suppressed g = false /\ json_key g = Some key
              /\ decode x (zeroOf u) = (restored u, nil)).
  { intros key x Hkey.
    destruct (HA key x Hkey) as [Hempty|(j & g & gv & _ & Hg & Hgv & Hem & Hname & Hval)].
    { by rewrite lookup_empty in Hempty. }
    destruct (lookup_lt_is_Some_2 vals j) as [u Hu].
    { apply lookup_lt_Some in Hg. lia. }
    rewrite (Field_exported ty vals j g u Hg Hu (Hex j g Hg)) in Hgv.
    inversion Hgv; subst gv.
    destruct (Hfield j u Hu) as (x' & Hx' & Hdec).
    rewrite Hx' in Hval. inversion Hval; subst x'.
    unfold emitted in Hem. rewrite !andb_true_iff, !negb_true_iff in Hem.
    destruct Hem as [[_ Hsup] _].
    exists j, g, u. repeat split; try done.
    rewrite <- Hname. by apply json_key_wire_name; [apply (Hff j)|apply (Hex j)|]. }
  (* what the decoder leaves in each field of the scratch record *)
  set (r := decode_fields decode m (Fields ty) (map zeroOf vals)).
  assert (Hr : forall i f v, Fields ty !! i = Some f -> vals !! i = Some v ->
            r !! i = Some (if suppressed f then zeroOf v else restored v, nil)).
  { intros i f v Hf Hv. unfold r. rewrite decode_fields_lookup, Hf.
    change (map zeroOf vals) with (zeroOf <$> vals). rewrite list_lookup_fmap, Hv.
    cbn [fmap option_fmap option_map]. f_equal.
    destruct (json_key f) as [key|] eqn:Hkey.
    2: { by rewrite (json_key_suppressed f (Hex i f Hf) Hkey). }
    destruct (m !! key) as [x|] eqn:Hx.
    - destruct (Hentry key x Hx) as (j & g & u & Hg & Hu & Hsup & Hgk & Hdec).
      assert (j = i) as -> by (eapply (NoDup_omap_lookup json_key); eauto).
      rewrite Hf in Hg. inversion Hg; subst g.
      rewrite Hv in Hu. inversion Hu; subst u.
      by rewrite Hsup.
    - destruct (suppressed f) eqn:Hsup; [done|].
      destruct (emitted ctx f (ValueOf v)) eqn:Hem.
      + destruct (HB i f (ValueOf v)) as [[x Hx'] _];
          [by eapply lookup_lt_Some|done
          |by apply (Field_exported ty vals i f v Hf Hv (Hex i f Hf))|done|].
        rewrite (json_key_wire_name CamelToSnake f (Hff i f Hf) (Hex i f Hf) Hsup) in Hkey.
        inversion Hkey; subst key. congruence.
      + unfold emitted in Hem. rewrite (Hread i f Hf), Hsup in Hem. cbn [andb negb] in Hem.
        apply negb_false_iff, andb_prop in Hem as [_ Hie].
        destruct (Hvals i v Hv) as [Hs|Hrv].
        * rewrite restored_scalar by done.
          by rewrite (json_scalar_empty_zero (ValueOf v) v eq_refl Hs Hie).
        * destruct (json_record_struct _ _ Hrv) as (tu & uvals & ->). discriminate Hie. }
  assert (Hrlen : length r = length vals).
  { unfold r. by rewrite decode_fields_length, length_map. }
  assert (Hknown : keys_known m ty = true).
  { apply bool_decide_eq_true. intros key Hkey.
    apply elem_of_dom in Hkey as [x Hkey].
    destruct (Hentry key x Hkey) as (j & g & u & Hg & _ & _ & Hgk & _).
    apply elem_of_list_to_set, list_elem_of_omap. exists g. split; [|done].
    by eapply list_elem_of_lookup_2. }
  cbn [zeroOf restored].
  rewrite (Hobj m ty (map zeroOf vals) Hfrag' Hknown ltac:(by rewrite length_map)).
  fold r. f_equal.
  - f_equal. apply list_eq. intros i.
    rewrite list_lookup_fmap, restore_fields_lookup.
    destruct (vals !! i) as [v|] eqn:Hv.
    + destruct (lookup_lt_is_Some_2 (Fields ty) i) as [f Hf].
      { apply lookup_lt_Some in Hv. lia. }
      by rewrite (Hr i f v Hf Hv), Hf.
    + cbn [fmap option_fmap option_map].
      rewrite (proj2 (lookup_ge_None r i)); [done|].
      apply lookup_ge_None in Hv. lia.
  - apply first_error_nil. intros e He.
    apply list_elem_of_fmap in He as ([x e'] & -> & Hx).
    apply list_elem_of_lookup in Hx as [i Hx].
    destruct (lookup_lt_is_Some_2 (Fields ty) i) as [f Hf].
    { apply lookup_lt_Some in Hx. lia. }
    destruct (lookup_lt_is_Some_2 vals i) as [v Hv].
    { apply lookup_lt_Some in Hx. lia. }
    rewrite (Hr i f v Hf Hv) in Hx. by inversion Hx.
Qed.

End through_json.

Lemma json_Decode_total_restores_scalars :
  restores_scalars (fun w z => json_Decode_total z w).
Proof.
  intros x z Hx Hk. destruct z; cbn [json_Decode_total];
    by rewrite Hx, bool_decide_eq_true_2.
Qed.

Lemma json_Decode_total_reads_members :
  reads_members (fun w z => json_Decode_total z w).
Proof.
  intros m ty vals Hfrag Hknown Hlen. cbn [json_Decode_total].
  by rewrite Hfrag, Hknown, Hlen, Nat.eqb_refl.
Qed.




(** The read check of the serializer, on the tag it does read: every key of the
    output is the wire name of a field that is not suppressed and whose
    [readWrite] tag is unset or names a right the context holds. *)
Theorem safeSerialize_checks_readWrite (CamelToSnake : string -> string)
    fuel ctx ty vals m e :
  named ty = true ->
  MakeJSONResponse CamelToSnake (S (S fuel)) ctx (VStruct ty vals) = Return (WMap m, e) ->
  forall k, is_Some (m !! k) ->
    exists f, f ∈ Fields ty /\ wire_name CamelToSnake f = k
              /\ readable ctx f = true /\ suppressed f = false.
Proof.
  intros Hnamed H k [x Hk].
  destruct (MakeJSONResponse_record CamelToSnake fuel ctx ty vals m e Hnamed H) as (_ & HA & _).
  destruct (HA k x Hk) as [Hempty|(j & f & fv & _ & Hf & _ & Hem & Hname & _)].
  { by rewrite lookup_empty in Hempty. }
  unfold emitted in Hem. rewrite !andb_true_iff, !negb_true_iff in Hem.
  destruct Hem as [[Hread Hsup] _].
  exists f. split; [by eapply list_elem_of_lookup_2|done].
Qed.

Lemma safeSerialize_checks_readWrite_witness :
  MakeJSONResponse (fun s => s) 3 anonymous (vault "ann" "k1")
    = Return (WMap {[ "owner" := WValue (VString "ann") ]}, nil)
  /\ forall k, is_Some (({[ "owner" := WValue (VString "ann") ]} : gmap string Wire) !! k) ->
       exists f, f ∈ Fields tVault /\ wire_name (fun s => s) f = k
                 /\ readable anonymous f = true /\ suppressed f = false.
Proof.
  split; [vm_compute; reflexivity|].
  exact (safeSerialize_checks_readWrite (fun s => s) 1 anonymous tVault
           [VString "ann"; VString "k1"] {[ "owner" := WValue (VString "ann") ]} nil
           eq_refl eq_refl).
Defined.

(** ** Errors and order *)

(** The serializer never returns an error: whatever [MakeJSONResponse]
    returns, the error is nil. *)
Theorem MakeJSONResponse_error_is_nil (CamelToSnake : string -> string) fuel ctx v w e :
  MakeJSONResponse CamelToSnake fuel ctx v = Return (w, e) -> e = nil.
Proof. intros H. exact (proj1 (serializer_error_nil CamelToSnake fuel ctx (ValueOf v)) w e H). Qed.

Lemma MakeJSONResponse_error_is_nil_witness :
  MakeJSONResponse (fun s => s) 3 anonymous (vault "ann" "k1")
    = Return (WMap {[ "owner" := WValue (VString "ann") ]}, nil)
  /\ nil = nil.
Proof.
  split; [vm_compute; reflexivity|].
  exact (MakeJSONResponse_error_is_nil (fun s => s) 3 anonymous (vault "ann" "k1")
           (WMap {[ "owner" := WValue (VString "ann") ]}) nil eq_refl).
Defined.

(** A slice is serialized element by element, in order: the call returns
    exactly when the serialization of every element returns, and then it
    returns, with a nil error, the sequence of their results, as long as the
    slice and in its order. *)
Theorem safeSerializeSlice_in_order (CamelToSnake : string -> string) fuel ctx src l w e :
  rv src = Some (VSlice l) ->
  (safeSerializeSlice CamelToSnake (S fuel) ctx src = Return (w, e)
   <-> exists ws, w = WSlice ws /\ e = nil
         /\ Forall2 (fun x wx =>
                       safeSerialize CamelToSnake fuel ctx
                         (mkRValue (flagRO src) false (Some x)) = Return (wx, nil))
                    l ws).
Proof.
  intros Hsrc. cbn [safeSerializeSlice].
  unfold Len. rewrite Hsrc. cbn [mbind outcome_bind]. split.
  - intros H. case_bind H as res.
    match type of E with for_range (seq 0 ?k) ?body ?s0 = _ =>
      pose proof (for_range_invariant body
        (fun i ws => length ws = i
           /\ forall j x, j < i -> l !! j = Some x ->
                exists wx, ws !! j = Some wx
                  /\ safeSerialize CamelToSnake fuel ctx (mkRValue (flagRO src) false (Some x))
                     = Return (wx, nil))
        (fun _ : Wire * error => False) k 0 s0 res) as Hinv
    end.
    assert (Hres : match res with
                   | Next ws => length ws = length l
                       /\ forall j x, j < length l -> l !! j = Some x ->
                            exists wx, ws !! j = Some wx
                              /\ safeSerialize CamelToSnake fuel ctx
                                   (mkRValue (flagRO src) false (Some x)) = Return (wx, nil)
                   | Exit _ => False
                   end).
    { apply Hinv; [| |done]; clear Hinv E H.
      { split; [done|]. intros j x Hj. lia. }
      intros i ws c _ [Hlen Hprev] Hb.
      case_bind Hb as x. case_bind Hb as [val [err|]].
      { by pose proof (proj1 (serializer_error_nil CamelToSnake fuel ctx x) _ _ E0). }
      inversion Hb. unfold Index in E. rewrite Hsrc in E.
      destruct (l !! i) as [y|] eqn:Hy; [|discriminate]. inversion E; subst x.
      split; [rewrite length_app; simpl; lia|].
      intros j z Hj Hz. destruct (decide (j = i)) as [->|Hne].
      - rewrite Hy in Hz. inversion Hz; subst z. exists val.
        split; [|done]. rewrite lookup_app_r by lia.
        by replace (i - length ws) with 0 by lia.
      - destruct (Hprev j z ltac:(lia) Hz) as (wz & Hwz & Hser).
        exists wz. split; [|done]. by apply lookup_app_l_Some. }
    destruct res as [ws|r]; [|done].
    inversion H; subst. destruct Hres as [Hlen Hall].
    exists ws. split; [done|]. split; [done|].
    apply Forall2_same_length_lookup_2; [done|].
    intros i x wx Hx Hwx.
    destruct (Hall i x (lookup_lt_Some _ _ _ Hx) Hx) as (wx' & Hwx' & Hser).
    congruence.
  - intros (ws & -> & -> & Hall).
    pose proof (Forall2_length _ _ _ Hall) as Hlen.
    match goal with |- context [for_range (seq 0 ?k) ?body ?s0] =>
      destruct (for_range_runs body (fun i acc => acc = take i ws) k 0 s0)
        as (acc & Hrun & Hacc)
    end.
    + done.
    + intros i acc [_ Hi] ->. cbn in Hi.
      destruct (lookup_lt_is_Some_2 l i Hi) as [x Hx].
      destruct (lookup_lt_is_Some_2 ws i ltac:(lia)) as [wx Hwx].
      unfold Index. rewrite Hsrc, Hx. cbn [mbind outcome_bind].
      rewrite (Forall2_lookup_lr _ _ _ _ _ _ Hall Hx Hwx). cbn [mbind outcome_bind].
      eexists. split; [reflexivity|]. by rewrite (take_S_r _ _ _ Hwx).
    + rewrite Hrun. cbn [mbind outcome_bind]. rewrite Hacc. cbn [Nat.add].
      by rewrite Hlen, firstn_all.
Qed.

Lemma safeSerializeSlice_in_order_witness :
  safeSerializeSlice (fun s => s) 4 anonymous
    (ValueOf (VSlice [vault "ann" "k1"; vault "bob" "k2"]))
  = Return (WSlice [WMap {[ "owner" := WValue (VString "ann") ]};
                    WMap {[ "owner" := WValue (VString "bob") ]}], nil).
Proof.
  apply (safeSerializeSlice_in_order (fun s => s) 3 anonymous
           (ValueOf (VSlice [vault "ann" "k1"; vault "bob" "k2"]))
           [vault "ann" "k1"; vault "bob" "k2"]
           (WSlice [WMap {[ "owner" := WValue (VString "ann") ]};
                    WMap {[ "owner" := WValue (VString "bob") ]}]) nil eq_refl).
  exists [WMap {[ "owner" := WValue (VString "ann") ]};
          WMap {[ "owner" := WValue (VString "bob") ]}].
  split; [reflexivity|]. split; [reflexivity|].
  constructor; [vm_compute; reflexivity|].
  constructor; [vm_compute; reflexivity|]. constructor.
Defined.

(** Whatever the scratch value holds, a merge leaves the fields the
    context may not write as they were. *)
Theorem safeMerge_keeps_protected_fields fuel ctx src ty dvals d e :
  safeMerge fuel ctx src (ValueOf (VStruct ty dvals)) = Return (d, e) ->
  exists vals, d = VStruct ty vals /\ length vals = length dvals /\ e = nil
    /\ forall j f, Fields ty !! j = Some f -> writable ctx f = false ->
                   vals !! j = dvals !! j.
Proof.
  intros H. pose proof (safeMerge_error_nil _ _ _ _ _ _ H) as ->.
  destruct (safeMerge_frame fuel ctx src (ValueOf (VStruct ty dvals)) ty dvals d nil eq_refl H)
    as (vals & -> & Hlen & Hfr).
  by exists vals.
Qed.

Lemma safeMerge_keeps_protected_fields_witness :
  exists vals, account "x" "s3" = VStruct tAccount vals
    /\ length vals = length [VString "bob"; VString "s3"] /\ nil = nil
    /\ forall j f, Fields tAccount !! j = Some f -> writable (session ["user"]) f = false ->
                   vals !! j = [VString "bob"; VString "s3"] !! j.
Proof.
  exact (safeMerge_keeps_protected_fields 1 (session ["user"])
           (ValueOf (account "x" "y")) tAccount [VString "bob"; VString "s3"]
           (account "x" "s3") nil eq_refl).
Defined.

(** * The rest of the framework *)

(** ** The strings of a slice of values *)

Lemma ifSliceToStrSlice_loop_spec v :
  forall acc, exists l rest,
    (ifSliceToStrSlice_loop v acc).1 = (acc ++ l)%list
    /\ v = ((CString <$> l) ++ rest)%list
    /\ match rest with
       | [] => (ifSliceToStrSlice_loop v acc).2 = nil
       | x :: _ => (ifSliceToStrSlice_loop v acc).2 = ErrTypeError
                   /\ forall s, x <> CString s
       end.
Proof.
  induction v as [|x v IH]; intros acc.
  - exists [], []. cbn. by rewrite app_nil_r.
  - destruct x as [|b|n|s|l|m];
      try by (eexists [], (_ :: v); cbn; rewrite app_nil_r; repeat split; done).
    destruct (IH (acc ++ [s])%list) as (l & rest & Hl & Hv & Hrest).
    exists (s :: l), rest. cbn [ifSliceToStrSlice_loop].
    rewrite Hl, <- app_assoc. split; [done|]. split; [by rewrite Hv|done].
Qed.

Lemma ifSliceToStrSlice_loop_strings l :
  forall acc, ifSliceToStrSlice_loop (CString <$> l) acc = ((acc ++ l)%list, nil).
Proof.
  induction l as [|s l IH]; intros acc; cbn.
  - by rewrite app_nil_r.
  - by rewrite IH, <- app_assoc.
Qed.

(** [ifSliceToStrSlice] returns the strings the slice starts with: all
    of them and no error when the slice holds strings only, which makes it
    the inverse of wrapping strings as values; otherwise the strings before
    the first value that is no string, and [ErrTypeError]. *)
Theorem ifSliceToStrSlice_reads_the_leading_strings :
  (forall l, ifSliceToStrSlice (CString <$> l) = (l, nil))
  /\ (forall v, exists rest,
        v = ((CString <$> (ifSliceToStrSlice v).1) ++ rest)%list
        /\ match rest with
           | [] => (ifSliceToStrSlice v).2 = nil
           | x :: _ => (ifSliceToStrSlice v).2 = ErrTypeError
                       /\ forall s, x <> CString s
           end).
Proof.
  split.
  - intros l. unfold ifSliceToStrSlice. by rewrite ifSliceToStrSlice_loop_strings.
  - intros v. unfold ifSliceToStrSlice.
    destruct (ifSliceToStrSlice_loop_spec v []) as (l & rest & Hl & Hv & Hrest).
    exists rest. by rewrite Hl.
Qed.

(** ** The json tag and its options *)

Lemma append_nil_l s : "" ++ s = s.
Proof. reflexivity. Qed.

Lemma append_cons c s t : String c s ++ t = String c (s ++ t).
Proof. reflexivity. Qed.

Lemma index_comma_app name rest :
  no_comma name = true -> index 0 "," (name ++ String "," rest) = Some (String.length name).
Proof.
  induction name as [|c name IH]; intros Hno.
  - rewrite append_nil_l, index_comma_cons. done.
  - cbn [no_comma] in Hno. apply andb_true_iff in Hno as [Hc Hno].
    rewrite append_cons, index_comma_cons.
    destruct (Ascii.eqb c ","); [done|]. rewrite (IH Hno). done.
Qed.

Lemma index_comma_none tag : no_comma tag = true -> index 0 "," tag = None.
Proof.
  induction tag as [|c tag IH]; intros Hno; [done|].
  cbn [no_comma] in Hno. apply andb_true_iff in Hno as [Hc Hno].
  rewrite index_comma_cons. destruct (Ascii.eqb c ","); [done|]. by rewrite (IH Hno).
Qed.

Lemma substring_app_l name rest : substring 0 (String.length name) (name ++ rest) = name.
Proof.
  induction name as [|c name IH].
  - rewrite append_nil_l. by destruct rest.
  - rewrite append_cons. cbn [String.length substring]. by rewrite IH.
Qed.

Lemma substring_app_r name c rest :
  substring (String.length name + 1)
    (String.length (name ++ String c rest) - (String.length name + 1))
    (name ++ String c rest) = rest.
Proof.
  induction name as [|a name IH].
  - rewrite append_nil_l. cbn [String.length substring Nat.add Nat.sub].
    rewrite Nat.sub_0_r. apply substring_whole.
  - rewrite append_cons. cbn [String.length substring Nat.add Nat.sub]. exact IH.
Qed.

(** [parseJSONTag] cuts a tag at its first comma: a tag made of a
    name without a comma, a comma and options is taken apart into the name
    and the options, whatever commas the options hold; a tag without a comma
    is a name without options. *)
Theorem parseJSONTag_cuts_at_the_first_comma :
  (forall name opts, no_comma name = true ->
     parseJSONTag (name ++ "," ++ opts) = (name, opts))
  /\ (forall tag, no_comma tag = true -> parseJSONTag tag = (tag, "")).
Proof.
  split.
  - intros name opts Hno. unfold parseJSONTag, strings_Index.
    replace ("," ++ opts) with (String "," opts) by reflexivity.
    rewrite (index_comma_app name opts Hno).
    replace (negb (Z.of_nat (String.length name) =? -1)%Z) with true
      by (symmetry; apply negb_true_iff, Z.eqb_neq; lia).
    rewrite Nat2Z.id. unfold slice_to, slice_from.
    by rewrite substring_app_l, substring_app_r.
  - intros tag Hno. unfold parseJSONTag, strings_Index.
    by rewrite (index_comma_none tag Hno).
Qed.

Lemma comma_separated_nonempty s : comma_separated s <> [].
Proof.
  destruct s as [|c s]; cbn [comma_separated]; [done|].
  destruct (Ascii.eqb c ","); [done|]. by destruct (comma_separated s).
Qed.

Lemma options_compared_cons h next :
  match last (h :: comma_separated next) with
  | Some "" => removelast (h :: comma_separated next)
  | _ => h :: comma_separated next
  end = h :: options_compared next.
Proof.
  unfold options_compared.
  pose proof (comma_separated_nonempty next) as Hne.
  destruct (comma_separated next) as [|p ps] eqn:Hp; [done|].
  change (last (h :: p :: ps)) with (last (p :: ps)).
  change (removelast (h :: p :: ps)) with (h :: removelast (p :: ps)).
  destruct (last (p :: ps)) as [[|]|]; done.
Qed.

Lemma hasJSONOption_loop_compared key fuel :
  forall opts, String.length opts <= fuel ->
    (hasJSONOption_loop fuel key opts = true <-> key ∈ options_compared opts).
Proof.
  induction fuel as [|fuel IH]; intros opts Hlen.
  - destruct opts; [|simpl in Hlen; lia]. cbn.
    split; [discriminate|]. by intros ?%elem_of_nil.
  - rewrite hasJSONOption_loop_unfold.
    destruct (String.eqb_spec opts "") as [->|Hne].
    { cbn. split; [discriminate|]. by intros ?%elem_of_nil. }
    assert (0 < String.length opts) by (destruct opts; [done|simpl; lia]).
    pose proof (comma_separated_cut opts) as Hcut. cbv zeta.
    destruct (0 <=? strings_Index opts ",")%Z.
    + unfold options_compared at 1. rewrite Hcut.
      rewrite options_compared_cons, elem_of_cons.
      destruct (String.eqb_spec (slice_to opts (Z.to_nat (strings_Index opts ","))) key)
        as [->|Hh]; [by split; [left|]|].
      rewrite IH.
      * split; [by right|]. by intros [?|?].
      * unfold slice_from.
        pose proof (substring_length_le opts (Z.to_nat (strings_Index opts ",") + 1)
                      (String.length opts - (Z.to_nat (strings_Index opts ",") + 1))).
        lia.
    + unfold options_compared. rewrite Hcut. cbn [last removelast].
      replace (match Some opts with Some "" => [] | _ => [opts] end) with [opts]
        by (by destruct opts).
      rewrite list_elem_of_singleton.
      destruct (String.eqb_spec opts key) as [->|Hh]; [done|].
      assert (hasJSONOption_loop fuel key "" = false) as -> by by destruct fuel.
      split; [discriminate|congruence].
Qed.

(** [hasJSONOption] finds a key exactly when it is one of the
    comma-separated parts of the options, an empty last part left aside:
    the loop ends before it compares the text after a comma the options end
    with. *)
Theorem hasJSONOption_compares_every_part_but_an_empty_last key opts :
  hasJSONOption key opts = true <-> key ∈ options_compared opts.
Proof.
  unfold hasJSONOption.
  destruct (Nat.eqb_spec (String.length opts) 0) as [H0|H0].
  - destruct opts; [|discriminate]. cbn.
    split; [discriminate|]. by intros ?%elem_of_nil.
  - by apply hasJSONOption_loop_compared.
Qed.

(** ** The rights of the principal *)

(** On a predicate that is false up to some index and true from there on,
    the binary search finds that index. *)
Lemma Search_loop_least (f : nat -> bool) n fuel :
  (forall a b, a <= b -> b < n -> f a = true -> f b = true) ->
  forall i j, i <= j -> j <= n -> j - i <= fuel ->
    (forall k, k < i -> f k = false) ->
    (forall k, j <= k -> k < n -> f k = true) ->
    i <= Search_loop fuel i j f <= j
    /\ (forall k, k < Search_loop fuel i j f -> f k = false)
    /\ (forall k, Search_loop fuel i j f <= k -> k < n -> f k = true).
Proof.
  intros Hmono. induction fuel as [|fuel IH]; intros i j Hij Hjn Hfuel Hlo Hhi;
    cbn [Search_loop].
  - assert (i = j) as -> by lia. split; [lia|done].
  - destruct (Nat.ltb_spec i j) as [Hlt|Hge].
    + assert (Hh : i <= (i + j) / 2 < j).
      { split; [apply Nat.div_le_lower_bound; lia|apply Nat.Div0.div_lt_upper_bound; lia]. }
      destruct (f ((i + j) / 2)) eqn:Hf; cbn [negb].
      * destruct (IH i ((i + j) / 2)) as (Hr & Hr1 & Hr2); [lia|lia|lia|done|..].
        { intros k Hk Hkn. apply (Hmono ((i + j) / 2)); [lia|done|done]. }
        split; [lia|done].
      * destruct (IH ((i + j) / 2 + 1) j) as (Hr & Hr1 & Hr2); [lia|lia|lia|..|done|].
        { intros k Hk. destruct (f k) eqn:Hfk; [|done].
          rewrite (Hmono k ((i + j) / 2)) in Hf; [done|lia|lia|done]. }
        split; [lia|done].
    + assert (i = j) as -> by lia. split; [lia|done].
Qed.

(** When the occurrences of a right end the list, the binary search of
    [RemoveRight] finds the first of them. *)
Lemma sort_Search_trailing (rights l : list string) k (right : string) :
  rights = (l ++ replicate (S k) right)%list ->
  right ∉ l ->
  sort_Search (length rights) (fun i => bool_decide (rights !! i = Some right))
  = length l.
Proof.
  intros Hrights Hnotin.
  set (f := fun i => bool_decide (rights !! i = Some right)).
  assert (Hlen : length rights = length l + S k).
  { by rewrite Hrights, length_app, length_replicate. }
  assert (Hlow : forall i, i < length l -> f i = false).
  { intros i Hi. apply bool_decide_eq_false. rewrite Hrights, lookup_app_l by done.
    intros Hl. apply Hnotin. by eapply list_elem_of_lookup_2. }
  assert (Hhigh : forall i, length l <= i -> i < length rights -> f i = true).
  { intros i Hi Hin. apply bool_decide_eq_true. rewrite Hrights, lookup_app_r by done.
    apply lookup_replicate_2. lia. }
  destruct (Search_loop_least f (length rights) (length rights)) with
    (i := 0) (j := length rights) as (Hr & Hr1 & Hr2); [|lia|lia|lia|lia|lia|].
  { intros a b Hab Hb Ha. apply Hhigh; [|done].
    destruct (Nat.lt_ge_cases a (length l)) as [Hlt|Hge]; [|lia].
    rewrite (Hlow a Hlt) in Ha. done. }
  fold (sort_Search (length rights) f) in Hr, Hr1, Hr2.
  destruct (Nat.lt_trichotomy (sort_Search (length rights) f) (length l))
    as [Hlt|[Heq|Hgt]]; [|done|].
  - specialize (Hr2 _ (Nat.le_refl _)).
    rewrite (Hlow _ Hlt) in Hr2. discriminate Hr2. lia.
  - specialize (Hr1 (length l) Hgt). rewrite Hhigh in Hr1; [done|lia|lia].
Qed.

(** [RemoveRight] removes a right whose occurrences end the list of
    rights: the binary search then meets the first of them, which is taken
    out, and the others stay. *)
Theorem RemoveRight_removes_a_right_the_list_ends_with ctx p l k right :
  principal ctx = Some p ->
  Rights p = (l ++ replicate (S k) right)%list ->
  right ∉ l ->
  RemoveRight ctx right =
  mkContext (Some (mkPrincipal (Username p) (UserID p) (l ++ replicate k right)%list)).
Proof.
  intros Hp Hrights Hnotin. unfold RemoveRight, IsAuthenticated. rewrite Hp. cbn [negb].
  rewrite (sort_Search_trailing (Rights p) l k right Hrights Hnotin).
  assert (Hlen : length (Rights p) = length l + S k).
  { by rewrite Hrights, length_app, length_replicate. }
  destruct (Nat.leb_spec (length (Rights p)) (length l)) as [Hge|Hlt]; [lia|].
  by rewrite Hrights, take_app_length, drop_app_add.
Qed.

Lemma RemoveRight_removes_a_right_the_list_ends_with_witness :
  RemoveRight (session ["read"; "write"; "audit"; "audit"]) "audit"
  = session ["read"; "write"; "audit"].
Proof.
  apply (RemoveRight_removes_a_right_the_list_ends_with
           (session ["read"; "write"; "audit"; "audit"])
           (mkPrincipal "alice" 7 ["read"; "write"; "audit"; "audit"])
           ["read"; "write"] 1 "audit").
  - reflexivity.
  - reflexivity.
  - intros H. apply hasItem_elem_of in H. discriminate H.
Defined.

(** [RemoveRight] undoes [AddRight]: a right a session did not hold
    is gone again after it was added and removed, and the session is what
    it was. *)
Theorem RemoveRight_undoes_AddRight ctx right :
  IsAuthenticated ctx = true ->
  HasRight ctx right = false ->
  RemoveRight (AddRight ctx right).1 right = ctx.
Proof.
  unfold IsAuthenticated, HasRight, AddRight. destruct ctx as [[p|]]; [|discriminate].
  cbn [principal negb IsAuthenticated fst]. intros _ Hno.
  unfold RemoveRight, IsAuthenticated. cbn [principal negb Rights Username UserID].
  rewrite (sort_Search_trailing (Rights p ++ [right]) (Rights p) 0 right); [|done|].
  - rewrite length_app. cbn [length].
    destruct (Nat.leb_spec (length (Rights p) + 1) (length (Rights p))) as [Hge|Hlt]; [lia|].
    rewrite take_app_length, drop_app_add. cbn [drop]. rewrite app_nil_r. by destruct p.
  - intros Hin%hasItem_elem_of. congruence.
Qed.

Lemma RemoveRight_undoes_AddRight_witness :
  RemoveRight (AddRight (session ["write"; "read"]) "admin").1 "admin"
  = session ["write"; "read"].
Proof.
  apply (RemoveRight_undoes_AddRight (session ["write"; "read"]) "admin");
    reflexivity.
Defined.

Lemma hasItem_app item l1 l2 : hasItem item (l1 ++ l2) = hasItem item l1 || hasItem item l2.
Proof.
  induction l1 as [|v l1 IH]; [done|]. cbn [app hasItem].
  destruct (String.eqb v item); [done|]. exact IH.
Qed.

(** [AddRight] grants an authenticated session the one right and
    leaves the others, the name and the identifier of the principal as they
    were; an unauthenticated session gets an error and stays as it is. *)
Theorem AddRight_grants_one_right ctx right :
  if IsAuthenticated ctx
  then (AddRight ctx right).2 = nil
       /\ (forall r, HasRight (AddRight ctx right).1 r
                     = HasRight ctx r || String.eqb right r)
       /\ Username <$> principal (AddRight ctx right).1 = Username <$> principal ctx
       /\ UserID <$> principal (AddRight ctx right).1 = UserID <$> principal ctx
  else AddRight ctx right = (ctx, Some "Session not authenticated.").
Proof.
  unfold AddRight, HasRight, IsAuthenticated. destruct ctx as [[p|]].
  - cbn [negb fst snd principal fmap option_fmap option_map].
    split; [done|]. split; [|done].
    intros r. cbn [Rights]. rewrite hasItem_app. cbn [hasItem].
    by destruct (String.eqb right r).
  - done.
Qed.

(** The principal [SetPrincipal] sets holds the rights given and no
    other, under the name and identifier given; after [DestroyPrincipal]
    the session is unauthenticated and holds no right, and no right can be
    added to it. *)
Theorem SetPrincipal_and_DestroyPrincipal ctx username user_id rights right :
  (HasRight (SetPrincipal ctx username user_id rights) right = true <-> right ∈ rights)
  /\ IsAuthenticated (SetPrincipal ctx username user_id rights) = true
  /\ Username_of (SetPrincipal ctx username user_id rights) = username
  /\ UserID_of (SetPrincipal ctx username user_id rights) = user_id
  /\ IsAuthenticated (DestroyPrincipal ctx) = false
  /\ HasRight (DestroyPrincipal ctx) right = false
  /\ HasRight (AddRight (DestroyPrincipal ctx) right).1 right = false
  /\ Username_of (DestroyPrincipal ctx) = ""
  /\ UserID_of (DestroyPrincipal ctx) = 0%Z.
Proof.
  repeat split; try done.
  - apply hasItem_elem_of.
  - apply hasItem_elem_of.
Qed.

(** ** Middleware *)

Lemma composeMiddleware_loop_wrap mws :
  forall mwc h,
    wrap (composeMiddleware_loop mws mwc) h
    = foldl (fun acc mw => wrap mw acc) (wrap mwc h) mws.
Proof.
  induction mws as [|[m|] mws IH]; intros mwc h; cbn [composeMiddleware_loop foldl].
  - done.
  - destruct mwc as [c|]; rewrite IH; done.
  - rewrite IH. done.
Qed.

Lemma composeMiddleware_loop_nil mws :
  forall mwc, composeMiddleware_loop mws mwc = None <-> mwc = None /\ Forall (eq None) mws.
Proof.
  induction mws as [|[m|] mws IH]; intros mwc; cbn [composeMiddleware_loop].
  - split; [done|]. by intros [? _].
  - destruct mwc as [c|]; rewrite IH.
    + split; [by intros [? _]|by intros [? _]].
    + split; [by intros [? _]|]. intros [_ H]. by inversion H.
  - rewrite IH. split.
    + intros [? ?]. split; [done|]. by constructor.
    + intros [? H]. split; [done|]. by inversion H.
Qed.

(** [composeMiddleware] wraps a handler in the middlewares in the order
    given, the first innermost and the last outermost, a nil middleware
    wrapping nothing; what it returns is nil exactly when every middleware
    given is.  Composing is compatible with appending, the middlewares of
    the second list wrapping what those of the first have wrapped, and
    [extendMiddleware] puts the middlewares it is given around the one it
    extends. *)
Theorem composeMiddleware_wraps_in_the_order_given mws mws' mw h :
  wrap (composeMiddleware mws) h = foldl (fun acc mw => wrap mw acc) h mws
  /\ (composeMiddleware mws = None <-> Forall (eq None) mws)
  /\ wrap (composeMiddleware (mws ++ mws')) h
     = wrap (composeMiddleware mws') (wrap (composeMiddleware mws) h)
  /\ wrap (extendMiddleware mw mws) h = wrap (composeMiddleware mws) (wrap mw h).
Proof.
  unfold extendMiddleware, composeMiddleware.
  rewrite !composeMiddleware_loop_wrap, composeMiddleware_loop_nil. cbn [wrap].
  split; [done|]. split; [split; [by intros [_ ?]|by intros ?]|].
  split; [by rewrite foldl_app|done].
Qed.

Lemma RightCheckMiddleware_HasRight right fn ctx :
  RightCheckMiddleware right fn ctx
  = if HasRight (auth ctx) right then fn ctx
    else Return (EmptyJSONResponse StatusUnauthorized, ctx).
Proof.
  unfold RightCheckMiddleware, IsAuthenticated, HasRight.
  destruct (principal (auth ctx)) as [p|]; [|done]. cbn [negb orb].
  by destruct (hasItem right (Rights p)).
Qed.

(** A stack of right checks lets a request through to the handler
    exactly when the session holds every right of the stack, and answers
    401 without running the handler otherwise; the order of the checks does
    not matter, and an unauthenticated session passes an empty stack
    only. *)
Theorem RightCheckMiddleware_stack_requires_every_right rights fn ctx :
  wrap (composeMiddleware ((fun r => Some (RightCheckMiddleware r)) <$> rights)) fn ctx
  = if forallb (HasRight (auth ctx)) rights then fn ctx
    else Return (EmptyJSONResponse StatusUnauthorized, ctx).
Proof.
  unfold composeMiddleware. rewrite composeMiddleware_loop_wrap. cbn [wrap].
  revert fn. induction rights as [|r rights IH]; intros fn; [done|].
  rewrite fmap_cons. cbn [foldl forallb wrap]. rewrite IH.
  rewrite RightCheckMiddleware_HasRight.
  destruct (HasRight (auth ctx) r); [done|]. by destruct (forallb _ rights).
Qed.

(** [XSRFMiddleware] runs the handler when the token holds a session
    identifier that is a non-empty string and the [X-XSRF-Token] header
    repeats it; otherwise the handler has no part in the answer: an empty
    header is refused even by a token without identifier, whose identifier
    reads as the empty string. *)
Theorem XSRFMiddleware_runs_the_handler_on_a_match_only ctx :
  let header := Header_Get (Request ctx) "X-XSRF-Token" in
  (header <> "" /\ Claims (token ctx) !! "jti" = Some (CString header) ->
   forall fn, XSRFMiddleware fn ctx = fn ctx)
  /\ (~ (header <> "" /\ Claims (token ctx) !! "jti" = Some (CString header)) ->
      forall fn fn', XSRFMiddleware fn ctx = XSRFMiddleware fn' ctx).
Proof.
  intros header. unfold XSRFMiddleware, XSRFToken, SessionID.
  fold header. split.
  - intros [Hne Hjti] fn. rewrite Hjti. cbn [mbind outcome_bind].
    rewrite (proj2 (String.eqb_neq _ _) Hne), String.eqb_refl. done.
  - intros Hno fn fn'. destruct (String.eqb_spec header "") as [|Hne]; [done|].
    destruct (Claims (token ctx) !! "jti") as [[| | |s| |]|] eqn:Hjti;
      cbn [mbind outcome_bind]; try done.
    + destruct (String.eqb_spec s header) as [->|]; [|done]. by destruct Hno.
    + destruct (String.eqb_spec "" header) as [<-|]; [|done]. by destruct Hne.
Qed.

(** ** Decimal numbers *)

Lemma maxUint64_eq : maxUint64 = 18446744073709551615%Z.
Proof. reflexivity. Qed.

Lemma two_64_eq : (2 ^ 64 = 18446744073709551616)%Z.
Proof. reflexivity. Qed.

Lemma is_digit_code c :
  is_digit c = ((48 <=? Z.of_nat (nat_of_ascii c)) && (Z.of_nat (nat_of_ascii c) <=? 57))%Z.
Proof.
  unfold is_digit.
  destruct (Nat.leb_spec 48 (nat_of_ascii c)), (Nat.leb_spec (nat_of_ascii c) 57),
    (Z.leb_spec 48 (Z.of_nat (nat_of_ascii c))), (Z.leb_spec (Z.of_nat (nat_of_ascii c)) 57);
    cbn [andb]; try done; lia.
Qed.

Lemma is_digit_bounds c :
  is_digit c = true -> (0 <= Z.of_nat (nat_of_ascii c) - 48 <= 9)%Z.
Proof. rewrite is_digit_code. intros [?%Z.leb_le ?%Z.leb_le]%andb_true_iff. lia. Qed.

Lemma decimal_value_ge s :
  forall n, all_digits s = true -> (0 <= n)%Z -> (n <= decimal_value s n)%Z.
Proof.
  induction s as [|c s IH]; intros n Hs Hn; cbn [decimal_value]; [lia|].
  cbn [all_digits] in Hs. apply andb_true_iff in Hs as [Hc Hs].
  pose proof (is_digit_bounds c Hc).
  specialize (IH (n * 10 + (Z.of_nat (nat_of_ascii c) - 48))%Z Hs). lia.
Qed.

Lemma ParseUint_loop_unfold c s n :
  ParseUint_loop (String c s) n =
  if is_digit c then
    if (maxUint64 / 10 + 1 <=? n)%Z then (maxUint64, strconv_ErrRange)
    else
      if (((n * 10 + (Z.of_nat (nat_of_ascii c) - 48)) mod 2 ^ 64 <? n * 10)
          || (maxUint64 <? (n * 10 + (Z.of_nat (nat_of_ascii c) - 48)) mod 2 ^ 64))%Z
      then (maxUint64, strconv_ErrRange)
      else ParseUint_loop s ((n * 10 + (Z.of_nat (nat_of_ascii c) - 48)) mod 2 ^ 64)
  else (0%Z, strconv_ErrSyntax).
Proof. rewrite is_digit_code. reflexivity. Qed.

(** A step of the loop on a digit, the number read so far being in range:
    the loop goes on exactly when the number with the digit is in range
    too. *)
Lemma ParseUint_loop_step c s n :
  is_digit c = true -> (0 <= n <= maxUint64)%Z ->
  ParseUint_loop (String c s) n =
  if (n * 10 + (Z.of_nat (nat_of_ascii c) - 48) <=? maxUint64)%Z
  then ParseUint_loop s (n * 10 + (Z.of_nat (nat_of_ascii c) - 48))
  else (maxUint64, strconv_ErrRange).
Proof.
  intros Hc Hn. rewrite ParseUint_loop_unfold, Hc.
  pose proof (is_digit_bounds c Hc) as Hd.
  set (d := (Z.of_nat (nat_of_ascii c) - 48)%Z) in *.
  rewrite maxUint64_eq, two_64_eq in *.
  change (18446744073709551615 / 10 + 1)%Z with 1844674407370955162%Z.
  destruct (Z.leb_spec 1844674407370955162 n) as [Hcut|Hcut].
  { destruct (Z.leb_spec (n * 10 + d) 18446744073709551615); [lia|done]. }
  destruct (Z.leb_spec (n * 10 + d) 18446744073709551615) as [Hle|Hgt].
  - rewrite Z.mod_small by lia.
    destruct (Z.ltb_spec (n * 10 + d) (n * 10)); [lia|].
    destruct (Z.ltb_spec 18446744073709551615 (n * 10 + d)); [lia|]. done.
  - assert (Hmod : ((n * 10 + d) mod 18446744073709551616
                    = n * 10 + d - 18446744073709551616)%Z).
    { symmetry. apply (Z.mod_unique _ _ 1); lia. }
    rewrite Hmod.
    destruct (Z.ltb_spec (n * 10 + d - 18446744073709551616) (n * 10)); [done|lia].
Qed.

Lemma ParseUint_loop_spec s :
  forall n v, (0 <= n <= maxUint64)%Z ->
    (ParseUint_loop s n = (v, nil)
     <-> all_digits s = true /\ decimal_value s n = v /\ (v <= maxUint64)%Z).
Proof.
  induction s as [|c s IH]; intros n v Hn.
  - cbn [ParseUint_loop all_digits decimal_value]. split.
    + intros [= <-]. split; [done|]. split; [done|lia].
    + intros (_ & <- & _). done.
  - cbn [all_digits decimal_value]. destruct (is_digit c) eqn:Hc.
    + rewrite (ParseUint_loop_step c s n Hc Hn).
      pose proof (is_digit_bounds c Hc) as Hd.
      destruct (Z.leb_spec (n * 10 + (Z.of_nat (nat_of_ascii c) - 48)) maxUint64)
        as [Hle|Hgt].
      * rewrite IH by lia. done.
      * split; [discriminate|]. intros (Hs & <- & Hv).
        pose proof (decimal_value_ge s (n * 10 + (Z.of_nat (nat_of_ascii c) - 48)) Hs).
        lia.
    + rewrite ParseUint_loop_unfold, Hc. split; [discriminate|]. by intros [? _].
Qed.

Lemma ParseUint_spec s v :
  ParseUint s = (v, nil)
  <-> s <> "" /\ all_digits s = true /\ decimal_value s 0 = v /\ (v <= maxUint64)%Z.
Proof.
  unfold ParseUint. destruct (String.eqb_spec s "") as [->|Hne].
  - split; [discriminate|]. by intros [? _].
  - rewrite ParseUint_loop_spec by (rewrite maxUint64_eq; lia). tauto.
Qed.

(** When [ParseUint] fails, the number it returns is 0 or the greatest. *)
Lemma ParseUint_loop_error s :
  forall n v e, (0 <= n <= maxUint64)%Z -> ParseUint_loop s n = (v, Some e) ->
    (v = 0%Z /\ Some e = strconv_ErrSyntax) \/ (v = maxUint64 /\ Some e = strconv_ErrRange).
Proof.
  induction s as [|c s IH]; intros n v e Hn; [discriminate|].
  destruct (is_digit c) eqn:Hc.
  - rewrite (ParseUint_loop_step c s n Hc Hn).
    pose proof (is_digit_bounds c Hc) as Hd.
    destruct (Z.leb_spec (n * 10 + (Z.of_nat (nat_of_ascii c) - 48)) maxUint64).
    + apply IH. lia.
    + intros [= <- <-]. by right.
  - rewrite ParseUint_loop_unfold, Hc. intros [= <- <-]. by left.
Qed.

Lemma digit_code d :
  (0 <= d <= 9)%Z ->
  is_digit (ascii_of_nat (48 + Z.to_nat d)) = true
  /\ (Z.of_nat (nat_of_ascii (ascii_of_nat (48 + Z.to_nat d))) - 48 = d)%Z.
Proof.
  intros Hd. unfold is_digit. rewrite nat_ascii_embedding by lia.
  split; [|lia].
  apply andb_true_iff. split; apply Nat.leb_le; lia.
Qed.

(** What [FormatUint] writes, [ParseUint] reads back. *)
Lemma ParseUint_loop_FormatUint_loop fuel :
  forall u acc, (0 <= u <= maxUint64)%Z -> (u < 10 ^ Z.of_nat fuel)%Z ->
    ParseUint_loop (FormatUint_loop fuel u acc) 0 = ParseUint_loop acc u.
Proof.
  induction fuel as [|fuel IH]; intros u acc Hu Hfuel.
  - change (10 ^ Z.of_nat 0)%Z with 1%Z in Hfuel. cbn [FormatUint_loop].
    by replace u with 0%Z by lia.
  - cbn [FormatUint_loop].
    assert (Hpow : (10 ^ Z.of_nat (S fuel) = 10 * 10 ^ Z.of_nat fuel)%Z).
    { rewrite Nat2Z.inj_succ, Z.pow_succ_r by lia. done. }
    destruct (Z.leb_spec 10 u) as [Hge|Hlt].
    + assert (Hdiv : (0 <= u / 10 <= maxUint64)%Z /\ (u / 10 < 10 ^ Z.of_nat fuel)%Z
                     /\ (0 <= u mod 10 <= 9)%Z /\ (u = u / 10 * 10 + u mod 10)%Z).
      { rewrite maxUint64_eq in *.
        pose proof (Z.div_mod u 10 ltac:(lia)). pose proof (Z.mod_pos_bound u 10 ltac:(lia)).
        repeat split; try lia. }
      destruct Hdiv as (Hq & Hqf & Hr & Heq).
      rewrite IH by done.
      destruct (digit_code (u mod 10) Hr) as [Hc Hv].
      rewrite (ParseUint_loop_step _ _ _ Hc Hq), Hv, <- Heq.
      destruct (Z.leb_spec u maxUint64); [done|lia].
    + destruct (digit_code u ltac:(lia)) as [Hc Hv].
      rewrite (ParseUint_loop_step _ _ 0 Hc) by (rewrite maxUint64_eq; lia).
      rewrite Hv. replace (0 * 10 + u)%Z with u by lia.
      destruct (Z.leb_spec u maxUint64); [done|lia].
Qed.

Lemma FormatUint_loop_nonempty fuel u acc : FormatUint_loop (S fuel) u acc <> "".
Proof.
  revert u acc. induction fuel as [|fuel IH]; intros u acc.
  - cbn [FormatUint_loop]. by destruct (10 <=? u)%Z.
  - change (FormatUint_loop (S (S fuel)) u acc)
      with (if (10 <=? u)%Z
            then FormatUint_loop (S fuel) (u / 10)
                   (String (ascii_of_nat (48 + Z.to_nat (u mod 10))) acc)
            else String (ascii_of_nat (48 + Z.to_nat u)) acc).
    destruct (10 <=? u)%Z; [apply IH|done].
Qed.

Lemma ParseUint_FormatUint u :
  (0 <= u <= maxUint64)%Z -> ParseUint (FormatUint u) = (u, nil).
Proof.
  intros Hu. unfold ParseUint, FormatUint.
  destruct (String.eqb_spec (FormatUint_loop 20 u "") "") as [Hempty|_].
  { by destruct (FormatUint_loop_nonempty 19 u ""). }
  rewrite ParseUint_loop_FormatUint_loop; [done|done|].
  rewrite maxUint64_eq in Hu. change (10 ^ Z.of_nat 20)%Z with 100000000000000000000%Z. lia.
Qed.

(** [jsonNumberToUint64] accepts the non-empty texts of decimal digits
    that write a number below 2^64, and no other: no sign, no blank, no
    fraction and no exponent; what it returns is the number written.  With
    an error it returns 0, for a text that is no such number, or the
    greatest number, for one that writes too great a number. *)
Theorem jsonNumberToUint64_reads_decimal_digits n val :
  (jsonNumberToUint64 n = (val, nil)
   <-> n <> "" /\ all_digits n = true /\ decimal_value n 0 = val /\ (val <= maxUint64)%Z)
  /\ (forall e, jsonNumberToUint64 n = (val, Some e) ->
        (val = 0%Z /\ Some e = strconv_ErrSyntax)
        \/ (val = maxUint64 /\ Some e = strconv_ErrRange)).
Proof.
  split; [apply ParseUint_spec|].
  intros e. unfold jsonNumberToUint64, ParseUint.
  destruct (String.eqb n ""); [intros [= <- <-]; by left|].
  apply ParseUint_loop_error. rewrite maxUint64_eq. lia.
Qed.

(** ** The route variables *)

(** [RouteVar] answers from the map of route variables the context
    holds, and when it holds none from the map gorilla/mux holds for the
    request, which it keeps in the context: the answer is the value of the
    variable in that map, or the empty string when the variable is not in
    it or there is no map.  After a call that found a map the answers come
    from the map kept, whatever gorilla/mux holds for the request by then.
    Nothing else in the context changes. *)
Theorem RouteVar_reads_and_keeps_the_variables ctx k :
  let kept :=
    match routeVars ctx with
    | Some vars => Some vars
    | None => mux_Vars (Request ctx)
    end in
  (RouteVar ctx k).1
  = match kept with
    | Some vars => match vars !! k with Some v => v | None => "" end
    | None => ""
    end
  /\ routeVars (RouteVar ctx k).2 = kept
  /\ auth (RouteVar ctx k).2 = auth ctx
  /\ Request (RouteVar ctx k).2 = Request ctx
  /\ token (RouteVar ctx k).2 = token ctx
  /\ destroyingSession (RouteVar ctx k).2 = destroyingSession ctx
  /\ (forall vars r k',
        kept = Some vars ->
        RouteVar (mkCtx (auth ctx) r (token ctx) (destroyingSession ctx) kept) k'
        = (match vars !! k' with Some v => v | None => "" end,
           mkCtx (auth ctx) r (token ctx) (destroyingSession ctx) kept)).
Proof.
  intros kept. subst kept. unfold RouteVar, with_routeVars.
  destruct ctx as [a [header path mvars] t d [vars|]];
    cbn [routeVars Request mux_Vars auth token destroyingSession].
  - repeat split; try by destruct (vars !! k).
    intros vars' r k' [= <-]. by destruct (vars !! k').
  - destruct mvars as [vars|]; cbn [routeVars Request mux_Vars auth token destroyingSession].
    + repeat split; try by destruct (vars !! k).
      intros vars' r k' [= <-]. by destruct (vars !! k').
    + repeat split; done.
Qed.

Lemma RouteVar_reads_and_keeps_the_variables_witness :
  RouteVar order_context "id" = ("42", with_routeVars order_context (Some {[ "id" := "42" ]}))
  /\ RouteVar (mkCtx anonymous (plain_request "/") (mkToken ∅) false (Some {[ "id" := "42" ]}))
       "id"
     = ("42", mkCtx anonymous (plain_request "/") (mkToken ∅) false (Some {[ "id" := "42" ]}))
  /\ (RouteVar order_context "page").1 = "".
Proof.
  pose proof (RouteVar_reads_and_keeps_the_variables order_context "id")
    as (_ & _ & _ & _ & _ & _ & Hkept).
  split; [reflexivity|]. split; [|reflexivity].
  exact (Hkept {[ "id" := "42" ]} (plain_request "/") "id" eq_refl).
Defined.

(** [RouteModelID] returns an identifier without error exactly when
    the route variable [id] is a non-empty text of decimal digits writing a
    number below 2^64, which is the identifier returned; with an error the
    identifier is 0, also when the text wrote too great a number; and the
    decimal text of any 64-bit number is read back as that number. *)
Theorem RouteModelID_reads_a_decimal_id ctx :
  let idstr := (RouteVar ctx "id").1 in
  (forall id, (RouteModelID ctx).1 = (id, nil)
     <-> idstr <> "" /\ all_digits idstr = true /\ decimal_value idstr 0 = id
         /\ (id <= maxUint64)%Z)
  /\ ((RouteModelID ctx).1.2 <> nil -> (RouteModelID ctx).1.1 = 0%Z)
  /\ (idstr = "" -> (RouteModelID ctx).1 = (0%Z, ErrModelIDNotPresent))
  /\ (forall u, (0 <= u <= maxUint64)%Z -> idstr = FormatUint u ->
        (RouteModelID ctx).1 = (u, nil)).
Proof.
  intros idstr. unfold RouteModelID. subst idstr.
  destruct (RouteVar ctx "id") as [idstr ctx']. cbn [fst].
  assert (Hspec : forall id,
    (let '(idstr0, ctx0) := (idstr, ctx') in
     if String.eqb idstr0 ""
     then (0%Z, ErrModelIDNotPresent, ctx0)
     else let '(id0, err) := ParseUint idstr0 in
          match err with Some _ => (0%Z, err, ctx0) | None => (id0, nil, ctx0) end).1
    = (id, nil)
    <-> idstr <> "" /\ all_digits idstr = true /\ decimal_value idstr 0 = id
        /\ (id <= maxUint64)%Z).
  { intros id. rewrite <- ParseUint_spec. cbv beta iota.
    destruct (String.eqb_spec idstr "") as [->|Hne]; [done|].
    destruct (ParseUint idstr) as [v [e|]]; cbn [fst].
    all: unfold nil; split; congruence. }
  split; [exact Hspec|]. cbv beta iota in *.
  split; [|split].
  - destruct (String.eqb idstr ""); [done|].
    destruct (ParseUint idstr) as [v [e|]]; done.
  - intros ->. done.
  - intros u Hu ->. apply Hspec. by apply ParseUint_spec, ParseUint_FormatUint.
Qed.

(** ** A principal out of a token *)

Lemma ifSliceToStrSlice_nil v rights :
  ifSliceToStrSlice v = (rights, nil) <-> v = CString <$> rights.
Proof.
  split.
  - intros Hv. unfold ifSliceToStrSlice in Hv.
    destruct (ifSliceToStrSlice_loop_spec v []) as (l & rest & Hl & Hvl & Hrest).
    rewrite Hv in Hl, Hrest. cbn [fst snd app] in *. subst l.
    destruct rest as [|x rest]; [by rewrite app_nil_r in Hvl|].
    by destruct Hrest as [? _].
  - intros ->. unfold ifSliceToStrSlice. by rewrite ifSliceToStrSlice_loop_strings.
Qed.

(** [readPrincipal] on claims that are a map. *)
Lemma readPrincipal_sub tok sub :
  Claims tok !! "sub" = Some (CMap sub) ->
  readPrincipal (Some tok) =
  match sub !! "username", sub !! "rights", sub !! "user_id" with
  | Some (CString username), Some (CSlice irights), Some (CNumber userIDN) =>
    match ParseUint userIDN, ifSliceToStrSlice irights with
    | (userID, None), (rights, None) => (Some (mkPrincipal username userID rights), nil)
    | _, _ => (None, ErrInvalidJWT)
    end
  | _, _, _ => (None, ErrInvalidJWT)
  end.
Proof.
  intros Hsub. unfold readPrincipal, jsonNumberToUint64, NewPrincipal. rewrite Hsub.
  destruct (sub !! "username") as [[| | |username| |]|];
    destruct (sub !! "rights") as [[| | | |irights|]|];
    destruct (sub !! "user_id") as [[| |userIDN| | |]|];
    try reflexivity;
    try (destruct (ParseUint userIDN) as [userID [e|]]; reflexivity).
Qed.

Lemma readPrincipal_no_sub token : sub_of token = None -> readPrincipal token = (None, nil).
Proof.
  unfold sub_of, readPrincipal. destruct token as [tok|]; [|done].
  destruct (Claims tok !! "sub") as [[| | | | |sub]|]; done.
Qed.

Lemma readPrincipal_writes tok sub p :
  Claims tok !! "sub" = Some (CMap sub) ->
  (readPrincipal (Some tok) = (Some p, nil) <-> writes_principal sub p).
Proof.
  intros Hsub. rewrite (readPrincipal_sub tok sub Hsub). unfold writes_principal. split.
  - destruct (sub !! "username") as [[| | |username| |]|]; try discriminate.
    destruct (sub !! "rights") as [[| | | |irights|]|]; try discriminate.
    destruct (sub !! "user_id") as [[| |userIDN| | |]|]; try discriminate.
    destruct (ParseUint userIDN) as [userID [e|]] eqn:Hid; [discriminate|].
    destruct (ifSliceToStrSlice irights) as [rights [e|]] eqn:Hrights; [discriminate|].
    intros [= <-]. cbn [Username Rights UserID].
    apply ifSliceToStrSlice_nil in Hrights as ->. apply ParseUint_spec in Hid.
    split; [done|]. split; [done|]. exists userIDN. tauto.
  - intros (-> & -> & n & -> & Hn).
    assert (Hid : ParseUint n = (UserID p, nil)) by (apply ParseUint_spec; tauto).
    rewrite Hid, (proj2 (ifSliceToStrSlice_nil _ (Rights p)) eq_refl). by destruct p.
Qed.

Lemma readPrincipal_invalid tok sub :
  Claims tok !! "sub" = Some (CMap sub) ->
  (exists p, readPrincipal (Some tok) = (Some p, nil))
  \/ readPrincipal (Some tok) = (None, ErrInvalidJWT).
Proof.
  intros Hsub. rewrite (readPrincipal_sub tok sub Hsub).
  destruct (sub !! "username") as [[| | |username| |]|]; try by right.
  destruct (sub !! "rights") as [[| | | |irights|]|]; try by right.
  destruct (sub !! "user_id") as [[| |userIDN| | |]|]; try by right.
  destruct (ParseUint userIDN) as [userID [e|]]; [by right|].
  destruct (ifSliceToStrSlice irights) as [rights [e|]]; [by right|].
  left. by eexists.
Qed.

(** [readPrincipal] reads back the principal the claims write under
    the keys of [Principal]'s json tags: the name, the rights as strings
    and the identifier in the decimal digits [FormatUint] gives it, whatever
    else the claims hold. *)
Theorem readPrincipal_reads_back_a_principal tok sub p :
  Claims tok !! "sub" = Some (CMap sub) ->
  claims_of_principal p ⊆ sub ->
  (0 <= UserID p <= maxUint64)%Z ->
  readPrincipal (Some tok) = (Some p, nil).
Proof.
  intros Hsub Hclaims Hid. apply (readPrincipal_writes tok sub p Hsub).
  pose proof (ParseUint_FormatUint (UserID p) Hid) as Hparse.
  apply ParseUint_spec in Hparse.
  unfold writes_principal.
  split; [|split; [|exists (FormatUint (UserID p)); split; [|tauto]]];
    (eapply lookup_weaken; [|exact Hclaims]); reflexivity.
Qed.

Lemma readPrincipal_reads_back_a_principal_witness :
  readPrincipal
    (Some (mkToken (<["sub" := CMap (claims_of_principal
                                       (mkPrincipal "alice" 7 ["read"; "write"]))]>
                      (Claims (buildToken "shop" "f3b0" (CNumber "1"))))))
  = (Some (mkPrincipal "alice" 7 ["read"; "write"]), nil).
Proof.
  apply (readPrincipal_reads_back_a_principal _
           (claims_of_principal (mkPrincipal "alice" 7 ["read"; "write"]))).
  - reflexivity.
  - reflexivity.
  - cbn [UserID]. rewrite maxUint64_eq. lia.
Defined.

(** What [readPrincipal] returns is settled by the claims under
    [sub]: without a token, or with claims there that are no map, no
    principal and no error; with a map, the principal it writes and no
    error, or, when it writes none, no principal and [ErrInvalidJWT]. *)
Theorem readPrincipal_outcomes token :
  match sub_of token with
  | None => readPrincipal token = (None, nil)
  | Some sub =>
    (forall p, readPrincipal token = (Some p, nil) <-> writes_principal sub p)
    /\ ((exists p, writes_principal sub p)
        \/ readPrincipal token = (None, ErrInvalidJWT))
  end.
Proof.
  destruct (sub_of token) as [sub|] eqn:Hsub; [|by apply readPrincipal_no_sub].
  assert (exists tok, token = Some tok /\ Claims tok !! "sub" = Some (CMap sub))
    as (tok & -> & Hclaims).
  { unfold sub_of in Hsub. destruct token as [tok|]; [|done]. exists tok.
    destruct (Claims tok !! "sub") as [[| | | | |m]|]; try done. by injection Hsub as ->. }
  split.
  - intros p. by apply readPrincipal_writes.
  - destruct (readPrincipal_invalid tok sub Hclaims) as [[p Hp]|Herr]; [|by right].
    left. exists p. by apply (readPrincipal_writes tok sub p Hclaims).
Qed.

(** [CreateRequestContext] never fails for want of a token: when the
    token cannot be read, or the request brings none, the context is built
    on a fresh token, and is unauthenticated, with the fresh session
    identifier and an empty session store; and the only error it returns is
    [ErrInvalidJWT], without a context. *)
Theorem CreateRequestContext_builds_a_fresh_session read built r :
  (read.2 <> nil \/ read.1 = None ->
   forall IssuerName jti iat, built = buildToken IssuerName jti iat ->
   exists ctx, CreateRequestContext read built r = (Some ctx, nil)
     /\ token ctx = built
     /\ IsAuthenticated (auth ctx) = false
     /\ SessionID ctx = Return jti
     /\ forall key, HasSession ctx key = Return false)
  /\ ((CreateRequestContext read built r).2 = nil
      \/ CreateRequestContext read built r = (None, ErrInvalidJWT)).
Proof.
  split.
  - intros Hread IssuerName jti iat ->.
    exists (mkCtx (mkContext None) r (buildToken IssuerName jti iat) false None).
    split; [|done].
    unfold CreateRequestContext. destruct read as [tok [e|]]; [done|].
    destruct Hread as [Hread|Hread]; [done|]. cbn [fst] in Hread. by subst tok.
  - unfold CreateRequestContext. destruct read as [tok e].
    set (t := match match e with Some _ => None | None => tok end with
              | Some token => token | None => built end).
    destruct (Claims t !! "sub") as [[| | | | |sub]|] eqn:Hsub;
      try (rewrite readPrincipal_no_sub; [by left|unfold sub_of; by rewrite Hsub]).
    destruct (readPrincipal_invalid t sub Hsub) as [[p ->]| ->]; [by left|by right].
Qed.

(** ** The session store *)

(** The session store is a map under the claim [vars]: an item put
    is the item got, an item deleted is not there, the other items, the
    session identifier and the principal stay as they were. *)
Theorem session_store_puts_and_deletes ctx vars key value :
  session_vars ctx = Return vars ->
  exists ctx1 ctx2,
    PutSession ctx key value = Return ctx1
    /\ DeleteSession ctx key = Return ctx2
    /\ GetSession ctx1 key = Return (value, true)
    /\ HasSession ctx1 key = Return true
    /\ GetSession ctx2 key = Return (CNil, false)
    /\ HasSession ctx2 key = Return false
    /\ (forall k, k <> key ->
          GetSession ctx1 k = GetSession ctx k /\ GetSession ctx2 k = GetSession ctx k)
    /\ SessionID ctx1 = SessionID ctx /\ SessionID ctx2 = SessionID ctx
    /\ auth ctx1 = auth ctx /\ auth ctx2 = auth ctx.
Proof.
  intros Hvars. unfold PutSession, DeleteSession. rewrite Hvars. cbn [mbind outcome_bind].
  eexists _, _. split; [reflexivity|]. split; [reflexivity|].
  unfold GetSession, HasSession, session_vars, SessionID, with_Claims.
  cbn [token Claims auth]. rewrite !lookup_insert_eq. cbn [mbind outcome_bind].
  rewrite lookup_insert_eq, lookup_delete_eq.
  rewrite !(lookup_insert_ne _ "vars" "jti") by done.
  repeat split; try done.
  - unfold session_vars in Hvars. rewrite lookup_insert_ne by done.
    destruct (Claims (token ctx) !! "vars") as [[| | | | |m]|]; try done.
    by injection Hvars as ->.
  - unfold session_vars in Hvars. rewrite lookup_delete_ne by done.
    destruct (Claims (token ctx) !! "vars") as [[| | | | |m]|]; try done.
    by injection Hvars as ->.
Qed.

Lemma session_store_puts_and_deletes_witness :
  exists ctx1 ctx2,
    let ctx := mkCtx anonymous (plain_request "/")
                 (buildToken "shop" "f3b0" (CNumber "1")) false None in
    PutSession ctx "cart" (CString "empty") = Return ctx1
    /\ DeleteSession ctx "cart" = Return ctx2
    /\ GetSession ctx1 "cart" = Return (CString "empty", true)
    /\ HasSession ctx1 "cart" = Return true
    /\ GetSession ctx2 "cart" = Return (CNil, false)
    /\ HasSession ctx2 "cart" = Return false
    /\ (forall k, k <> "cart" ->
          GetSession ctx1 k = GetSession ctx k /\ GetSession ctx2 k = GetSession ctx k)
    /\ SessionID ctx1 = SessionID ctx /\ SessionID ctx2 = SessionID ctx
    /\ auth ctx1 = auth ctx /\ auth ctx2 = auth ctx.
Proof.
  apply (session_store_puts_and_deletes
           (mkCtx anonymous (plain_request "/")
              (buildToken "shop" "f3b0" (CNumber "1")) false None)
           ∅ "cart" (CString "empty")).
  reflexivity.
Defined.

(** Without a map under the claim [vars] the session store is out of
    reach: every one of its four operations panics, and none creates the
    map. *)
Theorem session_store_needs_the_vars_claim ctx key value :
  (forall vars, Claims (token ctx) !! "vars" <> Some (CMap vars)) ->
  exists why,
    GetSession ctx key = Panic why /\ HasSession ctx key = Panic why
    /\ PutSession ctx key value = Panic why /\ DeleteSession ctx key = Panic why.
Proof.
  intros Hno. unfold GetSession, HasSession, PutSession, DeleteSession, session_vars.
  destruct (Claims (token ctx) !! "vars") as [[| | | | |vars]|];
    try (eexists; repeat split; reflexivity).
  by destruct (Hno vars).
Qed.

Lemma session_store_needs_the_vars_claim_witness :
  exists why,
    let ctx := mkCtx anonymous (plain_request "/") (mkToken ∅) false None in
    GetSession ctx "cart" = Panic why /\ HasSession ctx "cart" = Panic why
    /\ PutSession ctx "cart" CNil = Panic why /\ DeleteSession ctx "cart" = Panic why.
Proof.
  apply (session_store_needs_the_vars_claim
           (mkCtx anonymous (plain_request "/") (mkToken ∅) false None) "cart" CNil).
  intros vars H. discriminate H.
Defined.

(** ** The asset resolver *)

Lemma Resolve_loop_first chain path response :
  Resolve_loop chain path = Some response
  <-> exists i handler, chain !! i = Some handler /\ handler path = Some response
        /\ forall j h, j < i -> chain !! j = Some h -> h path = None.
Proof.
  induction chain as [|resolver chain IH]; cbn [Resolve_loop].
  - split; [discriminate|]. by intros (i & h & Hi & _).
  - destruct (resolver path) as [x|] eqn:Hx.
    + split.
      * intros [= ->]. exists 0, resolver. split; [done|]. split; [done|]. lia.
      * intros ([|i] & h & Hi & Hh & Hbefore).
        -- injection Hi as <-. congruence.
        -- specialize (Hbefore 0 resolver ltac:(lia) eq_refl). congruence.
    + rewrite IH. split.
      * intros (i & h & Hi & Hh & Hbefore). exists (S i), h.
        split; [done|]. split; [done|].
        intros [|j] h' Hj Hh'; [by injection Hh' as <-|]. apply (Hbefore j); [lia|done].
      * intros ([|i] & h & Hi & Hh & Hbefore).
        -- injection Hi as <-. congruence.
        -- exists i, h. split; [done|]. split; [done|].
           intros j h' Hj Hh'. apply (Hbefore (S j)); [lia|done].
Qed.

Lemma Resolve_loop_none chain path :
  Resolve_loop chain path = None <-> forall h, h ∈ chain -> h path = None.
Proof.
  induction chain as [|resolver chain IH]; cbn [Resolve_loop].
  - split; [|done]. by intros _ h ?%elem_of_nil.
  - destruct (resolver path) as [x|] eqn:Hx.
    + split; [discriminate|]. intros H. rewrite (H resolver) in Hx; [done|by left].
    + rewrite IH. split.
      * intros H h [->|?]%elem_of_cons; [done|by apply H].
      * intros H h ?. apply H. by right.
Qed.

Lemma Resolve_loop_app chain1 chain2 path :
  Resolve_loop (chain1 ++ chain2) path =
  match Resolve_loop chain1 path with
  | Some response => Some response
  | None => Resolve_loop chain2 path
  end.
Proof.
  induction chain1 as [|resolver chain1 IH]; cbn [app Resolve_loop]; [done|].
  by destruct (resolver path).
Qed.

(** [Resolve] returns the answer of the first handler of the chain
    that answers the path, the handlers before it having answered nil; it
    returns nil exactly when every handler of the chain does. *)
Theorem Resolve_returns_the_first_answer r path :
  (forall response,
     Resolve r path = Some response
     <-> exists i handler, chain r !! i = Some handler /\ handler path = Some response
           /\ forall j h, j < i -> chain r !! j = Some h -> h path = None)
  /\ (Resolve r path = None <-> forall h, h ∈ chain r -> h path = None).
Proof.
  split; [intros response; apply Resolve_loop_first|apply Resolve_loop_none].
Qed.

(** A handler prepended is asked before the chain, a handler
    appended after it, the chain being asked as before; [Chain] gives the
    resolver the chain a new resolver would have, and an empty chain answers
    nothing. *)
Theorem PrependHandler_and_AppendHandler r handler chain' path :
  Resolve (PrependHandler r handler) path
  = match handler path with
    | Some response => Some response
    | None => Resolve r path
    end
  /\ Resolve (AppendHandler r handler) path
     = match Resolve r path with
       | Some response => Some response
       | None => handler path
       end
  /\ Resolve (Chain r chain') path = Resolve (NewAssetResolver chain') path
  /\ Resolve (NewAssetResolver []) path = None.
Proof.
  unfold Resolve, PrependHandler, AppendHandler, Chain, NewAssetResolver. cbn [chain].
  rewrite !Resolve_loop_app. cbn [Resolve_loop].
  split; [by destruct (handler path)|]. split; [|done].
  by destruct (Resolve_loop (chain r) path), (handler path).
Qed.

(** The handler [AssetResolverResponse] mounts asks the resolver for the
    path of the URL as it is when it begins with a slash, and with a slash
    put before it when it does not; the answer is the resolver's, or a blank
    404 when it has none, and the context is left as it was.  So the path
    the resolver is asked for always begins with a slash, and resolvers that
    agree on such paths give the same answer. *)
Theorem AssetResolverResponse_asks_for_a_rooted_path a ctx :
  (forall rest, URL_Path (Request ctx) = String "/" rest ->
     AssetResolverResponse a ctx
     = Return (default (BlankResponse StatusNotFound)
                 (Resolve a (URL_Path (Request ctx))), ctx))
  /\ ((forall rest, URL_Path (Request ctx) <> String "/" rest) ->
      AssetResolverResponse a ctx
      = Return (default (BlankResponse StatusNotFound)
                  (Resolve a (String "/" (URL_Path (Request ctx)))), ctx))
  /\ (forall a', (forall rest, Resolve a (String "/" rest) = Resolve a' (String "/" rest)) ->
        AssetResolverResponse a ctx = AssetResolverResponse a' ctx).
Proof.
  assert (Hprefix : forall path,
            String.prefix "/" path = true <-> exists rest, path = String "/" rest).
  { intros [|c path]; [split; [done|by intros [? ?]]|].
    change (String.prefix "/" (String c path))
      with (if ascii_dec "/" c then String.prefix "" path else false).
    destruct (ascii_dec "/" c) as [<-|Hne].
    - split; [by exists path|by destruct path].
    - split; [done|]. intros [rest [= ? _]]. by destruct Hne. }
  unfold AssetResolverResponse. split; [|split].
  - intros rest Hpath.
    rewrite (proj2 (Hprefix _) (ex_intro _ rest Hpath)). cbn [negb].
    by destruct (Resolve a _).
  - intros Hpath. destruct (String.prefix "/" (URL_Path (Request ctx))) eqn:Hp.
    + apply Hprefix in Hp as [rest Hrest]. by destruct (Hpath rest).
    + cbn [negb]. replace ("/" ++ URL_Path (Request ctx))
        with (String "/" (URL_Path (Request ctx))) by reflexivity.
      by destruct (Resolve a _).
  - intros a' Hagree.
    destruct (String.prefix "/" (URL_Path (Request ctx))) eqn:Hp; cbn [negb].
    + apply Hprefix in Hp as [rest Hrest]. by rewrite Hrest, Hagree.
    + replace ("/" ++ URL_Path (Request ctx))
        with (String "/" (URL_Path (Request ctx))) by reflexivity.
      by rewrite Hagree.
Qed.

Section files_lemmas.

Variable os_Stat : string -> bool * error.
Variable path_Clean : string -> string.

Lemma resolveLocalFile_descends k :
  forall fuel filename,
    (forall j, j < k -> os_Stat (index_of_depth j filename) = (true, nil)) ->
    k < fuel ->
    resolveLocalFile os_Stat fuel filename
    = match os_Stat (index_of_depth k filename) with
      | (_, Some e) => Return ("", Some e)
      | (true, None) => resolveLocalFile os_Stat (fuel - S k)
                          (index_of_depth (S k) filename)
      | (false, None) => Return (index_of_depth k filename, nil)
      end.
Proof.
  induction k as [|k IH]; intros fuel filename Hdirs Hfuel.
  - destruct fuel as [|fuel]; [lia|]. cbn [resolveLocalFile index_of_depth].
    rewrite Nat.sub_succ, Nat.sub_0_r.
    destruct (os_Stat filename) as [[|] [e|]]; done.
  - destruct fuel as [|fuel]; [lia|]. cbn [resolveLocalFile].
    pose proof (Hdirs 0 ltac:(lia)) as H0. cbn [index_of_depth] in H0. rewrite H0.
    cbn [index_of_depth].
    rewrite (IH fuel (filename ++ "/index.html")); [done| |lia].
    intros j Hj. apply (Hdirs (S j)). lia.
Qed.

Lemma resolveLocalFile_found fuel :
  forall filename name,
    resolveLocalFile os_Stat fuel filename = Return (name, nil) ->
    exists k, name = index_of_depth k filename
      /\ os_Stat name = (false, nil)
      /\ forall j, j < k -> os_Stat (index_of_depth j filename) = (true, nil).
Proof.
  induction fuel as [|fuel IH]; intros filename name; [discriminate|].
  cbn [resolveLocalFile].
  destruct (os_Stat filename) as [[|] [e|]] eqn:Hstat; try discriminate.
  - intros (k & -> & Hfile & Hdirs)%IH. exists (S k). split; [done|]. split; [done|].
    intros [|j] Hj; [done|]. apply Hdirs. lia.
  - intros [= <-]. exists 0. split; [done|]. split; [done|]. lia.
Qed.

End files_lemmas.

(** [LocalAssetHandler] goes down from the root path with the cleaned
    path after it through directories to their [index.html]: when the first
    name it meets that is no directory is there, that file is the one
    served, and when it is not there the answer is nil. *)
Theorem LocalAssetHandler_serves_the_index_of_a_directory
    (os_Stat : string -> bool * error) (path_Clean : string -> string)
    rootpath lpath k fuel :
  (forall j, j < k ->
     os_Stat (index_of_depth j (rootpath ++ path_Clean lpath)) = (true, nil)) ->
  (os_Stat (index_of_depth k (rootpath ++ path_Clean lpath))).1 = false
  \/ (os_Stat (index_of_depth k (rootpath ++ path_Clean lpath))).2 <> nil ->
  k < fuel ->
  LocalAssetHandler os_Stat path_Clean fuel rootpath lpath
  = Return (match (os_Stat (index_of_depth k (rootpath ++ path_Clean lpath))).2 with
            | None => Some (ServeFile (index_of_depth k (rootpath ++ path_Clean lpath)))
            | Some _ => None
            end).
Proof.
  intros Hdirs Hstop Hfuel. unfold LocalAssetHandler.
  set (filename := rootpath ++ path_Clean lpath) in *.
  rewrite (resolveLocalFile_descends os_Stat k fuel filename Hdirs Hfuel).
  destruct (os_Stat (index_of_depth k filename)) as [[|] [e|]]; cbn [fst snd] in *;
    try done.
  by destruct Hstop.
Qed.

Lemma LocalAssetHandler_serves_the_index_of_a_directory_witness :
  LocalAssetHandler static_files (fun p => p) 2 "/srv" "/docs"
  = Return (Some (ServeFile "/srv/docs/index.html")).
Proof.
  apply (LocalAssetHandler_serves_the_index_of_a_directory
           static_files (fun p => p) "/srv" "/docs" 1 2).
  - intros [|j] Hj; [reflexivity|lia].
  - left. reflexivity.
  - lia.
Defined.

(** A file [LocalAssetHandler] serves is there and is no directory,
    and its name is the root path, the cleaned path and [/index.html] some
    number of times. *)
Theorem LocalAssetHandler_serves_files_only
    (os_Stat : string -> bool * error) (path_Clean : string -> string)
    rootpath lpath fuel response :
  LocalAssetHandler os_Stat path_Clean fuel rootpath lpath = Return (Some response) ->
  exists k,
    response = ServeFile (index_of_depth k (rootpath ++ path_Clean lpath))
    /\ os_Stat (index_of_depth k (rootpath ++ path_Clean lpath)) = (false, nil)
    /\ forall j, j < k ->
         os_Stat (index_of_depth j (rootpath ++ path_Clean lpath)) = (true, nil).
Proof.
  unfold LocalAssetHandler.
  destruct (resolveLocalFile os_Stat fuel (rootpath ++ path_Clean lpath))
    as [[name [e|]]| |] eqn:Hres; cbn [mbind outcome_bind]; try discriminate.
  intros [= <-]. apply resolveLocalFile_found in Hres as (k & -> & Hfile & Hdirs).
  by exists k.
Qed.

Lemma LocalAssetHandler_serves_files_only_witness :
  exists k,
    ServeFile "/srv/docs/index.html" = ServeFile (index_of_depth k ("/srv" ++ "/docs"))
    /\ static_files (index_of_depth k ("/srv" ++ "/docs")) = (false, nil)
    /\ forall j, j < k ->
         static_files (index_of_depth j ("/srv" ++ "/docs")) = (true, nil).
Proof.
  apply (LocalAssetHandler_serves_files_only static_files (fun p => p) "/srv" "/docs" 2
           (ServeFile "/srv/docs/index.html")).
  reflexivity.
Defined.

(** ** Routes *)

Lemma Route_Handler_run_iter r ctxs :
  forall fn,
    Route_Handler_run r fn ctxs
    = imap (fun k ctx => Nat.iter (S k) (wrap (Route_mw r)) fn ctx) ctxs.
Proof.
  induction ctxs as [|ctx ctxs IH]; intros fn; [done|].
  cbn [Route_Handler_run Route_Handler_serve imap]. f_equal.
  rewrite IH. apply imap_ext. intros k c _. cbn [compose].
  by rewrite (Nat.iter_succ_r (S k)).
Qed.

Lemma RightCheckMiddleware_iter right fn ctx n :
  Nat.iter (S n) (RightCheckMiddleware right) fn ctx = RightCheckMiddleware right fn ctx.
Proof.
  induction n as [|n IH]; [done|].
  change (Nat.iter (S (S n)) (RightCheckMiddleware right) fn)
    with (RightCheckMiddleware right (Nat.iter (S n) (RightCheckMiddleware right) fn)).
  rewrite RightCheckMiddleware_HasRight, IH, RightCheckMiddleware_HasRight.
  by destruct (HasRight (auth ctx) right).
Qed.

(** The handler [Route.Handler] mounts wraps its function in the
    middleware of the route again on every request, and keeps the result:
    the request that comes in as the k-th after the first is answered by the
    function wrapped k+1 times.  A right check wrapped many times answers as
    it does wrapped once. *)
Theorem Route_Handler_wraps_again_on_every_request r fn ctxs :
  Route_Handler_run r fn ctxs
  = imap (fun k ctx => Nat.iter (S k) (wrap (Route_mw r)) fn ctx) ctxs
  /\ (forall right, Route_mw r = Some (RightCheckMiddleware right) ->
        Route_Handler_run r fn ctxs = (fun ctx => RightCheckMiddleware right fn ctx) <$> ctxs).
Proof.
  split; [apply Route_Handler_run_iter|].
  intros right Hmw. rewrite Route_Handler_run_iter, Hmw. cbn [wrap].
  rewrite <- (imap_const (fun ctx => RightCheckMiddleware right fn ctx)).
  apply imap_ext. intros k ctx _. apply RightCheckMiddleware_iter.
Qed.

Lemma iter_ext {A : Type} (f g : A -> A) n x :
  (forall a, f a = g a) -> Nat.iter n f x = Nat.iter n g x.
Proof.
  intros Hfg. induction n as [|n IH]; [done|]. by rewrite !Nat.iter_succ, IH, Hfg.
Qed.

Lemma iter_fixed {A : Type} n (x : A) : Nat.iter n (fun a => a) x = x.
Proof. induction n as [|n IH]; [done|]. by rewrite Nat.iter_succ. Qed.

(** [Route.Middleware] replaces the middleware a route got from its
    router, it does not add to it: the requests to the route are answered by
    the function wrapped in the middlewares given to the route, whatever the
    router was given; and given none, the route answers by the function as
    it is. *)
Theorem Route_Middleware_replaces_the_middleware_of_the_router router mws fn ctxs :
  Route_Handler_run (Route_Middleware (Router_Path router) mws) fn ctxs
  = imap (fun k ctx =>
            Nat.iter (S k) (fun h => foldl (fun acc mw => wrap mw acc) h mws) fn ctx) ctxs
  /\ Route_Handler_run (Route_Middleware (Router_Path router) []) fn ctxs = fn <$> ctxs.
Proof.
  rewrite !Route_Handler_run_iter. unfold Route_Middleware. cbn [Route_mw]. split.
  - apply imap_ext. intros k ctx _. cbn beta.
    rewrite (iter_ext (wrap (composeMiddleware mws))
               (fun h => foldl (fun acc mw => wrap mw acc) h mws)); [done|].
    intros h. unfold composeMiddleware. by rewrite composeMiddleware_loop_wrap.
  - rewrite <- (imap_const fn). apply imap_ext. intros k ctx _. cbn beta.
    change (wrap (composeMiddleware [])) with (fun a : ContextHandlerFunc => a).
    by rewrite iter_fixed.
Qed.
